(** * urlscan: URL and context extraction (urlscan/urlscan.py)

    A shallow embedding of the backend logic of urlscan: the link grammar
    [URLRE], the plain-text splitter [parse_text_urls], the HTML chunker
    [HTMLChunker] and the context-window extractor [extract_with_context].

    Python [str] values are modelled by [string]; a character is read as a
    code point below 256.  Python lists are [list]s, [None]-able values are
    [option]s, and [while] loops are run with explicit fuel. *)

From Stdlib Require Import List ListSet Arith Bool Lia ZArith String Ascii
  DecimalString.
Import ListNotations.

Set Implicit Arguments.

(** ** Loops

    [while cond: body] over a loop state [S].  [None] means that the fuel
    ran out before the condition became false. *)

Fixpoint while_loop {S : Type} (fuel : nat) (cond : S -> bool)
    (body : S -> option S) (s : S) : option S :=
  match fuel with
  | 0 => None
  | S fuel' =>
      if cond s then
        match body s with
        | Some s' => while_loop fuel' cond body s'
        | None => None
        end
      else Some s
  end.

Module Extractor.

Section Extract.

Variable A : Type.

(** A returned triple [(lst[start:start + length], usedfirst, usedlast)]. *)
Definition window : Type := (list A * bool * bool)%type.

Variable lst : list A.
Variable pred : A -> bool.
Variables before_context after_context : nat.

(** [pred(lst[i])].  Every use in the source sits behind the test
    [i < len(lst)] of the same condition, so the index is in range. *)
Definition pred_at (i : nat) : bool :=
  match nth_error lst i with
  | Some x => pred x
  | None => false
  end.

(** [lst[a:b]] *)
Definition slice (a b : nat) : list A := firstn (b - a) (skipn a lst).

Definition len : nat := List.length lst.

(** Every loop of the function moves forward in [lst]. *)
Definition fuel : nat := S len.

(** "Extend to the next match." *)
Definition extend_to_match (start length : nat) : option nat :=
  while_loop fuel
    (fun length => (start + length <? len) && (length <? before_context + 1)
                   && negb (pred_at (start + length)))
    (fun length => Some (length + 1))
    length.

(** "Slide to the next match." *)
Definition slide_to_match (start length : nat) : option nat :=
  while_loop fuel
    (fun start => (start + length <? len) && negb (pred_at (start + length)))
    (fun start => Some (start + 1))
    start.

(** "Read in the 'after' context and see if it holds a URL." *)
Definition read_after (start length : nat) : option nat :=
  while_loop fuel
    (fun extendlength =>
       (extendlength <? after_context + 1)
       && (start + length + extendlength <? len)
       && negb (pred_at (start + length + extendlength)))
    (fun extendlength => Some (extendlength + 1))
    1.

(** "Now read in possible 'before' context from the next URL". *)
Definition read_before (start length : nat) : option nat :=
  while_loop fuel
    (fun extendlength =>
       (extendlength <? before_context)
       && (start + length + extendlength <? len)
       && negb (pred_at (start + length + extendlength)))
    (fun extendlength => Some (extendlength + 1))
    1.

(** One round of "Now extend repeatedly until we can't find anything." *)
Definition extend_step (start length : nat) : option nat :=
  match read_after start length with
  | None => None
  | Some extendlength =>
      let length := length + extendlength in
      if (start + length <? len) && negb (pred_at (start + length)) then
        match read_before start length with
        | None => None
        | Some extendlength =>
            if (start + length + extendlength <? len)
               && pred_at (start + length + extendlength)
            then Some (length + extendlength)
            else Some length
        end
      else Some length
  end.

Definition extend_repeatedly (start length : nat) : option nat :=
  while_loop fuel
    (fun length => (start + length <? len) && pred_at (start + length))
    (extend_step start)
    length.

(** The outer [while start < len(lst)] loop; every round starts with
    [length = 0]. *)
Fixpoint scan (fuel : nat) (start : nat) (rval : list window)
    : option (list window) :=
  match fuel with
  | 0 => None
  | S fuel' =>
      if start <? len then
        match extend_to_match start 0 with
        | None => None
        | Some length =>
            match slide_to_match start length with
            | None => None
            | Some start =>
                if start + length =? len then Some rval
                else
                  match extend_repeatedly start length with
                  | None => None
                  | Some length =>
                      let rval :=
                        if (0 <? length) && (start + length <=? len)
                        then rval ++ [(slice start (start + length),
                                       start =? 0,
                                       start + length =? len)]
                        else rval in
                      scan fuel' (start + length) rval
                  end
            end
        end
      else Some rval
  end.

Definition extract_with_context : option (list window) :=
  scan fuel 0 [].

(** No line with an index in [[a, b)] satisfies the predicate. *)
Definition quiet (a b : nat) : Prop :=
  forall i, a <= i < b -> pred_at i = false.

(** The triple that the function appends for the index range
    [[fst r, snd r)]. *)
Definition window_of (r : nat * nat) : window :=
  (slice (fst r) (snd r), fst r =? 0, snd r =? len).

End Extract.

(** Index ranges that are non-empty, start at or after [lo], and follow
    one another without overlap. *)
Fixpoint ordered_from (lo : nat) (rs : list (nat * nat)) : Prop :=
  match rs with
  | [] => True
  | (a, b) :: rs' => lo <= a /\ a < b /\ ordered_from b rs'
  end.

End Extractor.


(** ** Exceptions

    A Python call either returns a value or raises. *)

Inductive exn : Type :=
| IndexError
| ValueError
| AssertionError
| ReError.                             (* re.error *)

Inductive result (A : Type) : Type :=
| Ok : A -> result A
| Raise : exn -> result A.

Arguments Ok {A} _.
Arguments Raise {A} _.

Definition bind {A B : Type} (c : result A) (k : A -> result B) : result B :=
  match c with
  | Ok a => k a
  | Raise e => Raise e
  end.

Notation "x <- c ;; k" := (bind c (fun x => k))
  (at level 61, c at next level, right associativity).

(** ** Strings and characters *)

Local Open Scope string_scope.
Local Open Scope list_scope.
Local Open Scope nat_scope.

Definition code (c : ascii) : N := N_of_ascii c.

Definition between (lo hi : N) (c : ascii) : bool :=
  ((lo <=? code c) && (code c <=? hi))%N.

(** [str.isspace] on one character. *)
Definition isspace (c : ascii) : bool :=
  between 9 13 c || between 28 32 c || (code c =? 133)%N || (code c =? 160)%N.

(** [str.isdigit] on one character (the superscript digits count). *)
Definition isdigit (c : ascii) : bool :=
  between 48 57 c || between 178 179 c || (code c =? 185)%N.

(** The class [\w] of a Unicode pattern: [_] and the alphanumerics. *)
Definition isword (c : ascii) : bool :=
  between 48 57 c || between 65 90 c || between 97 122 c || (code c =? 95)%N
  || (code c =? 170)%N || between 178 179 c || (code c =? 181)%N
  || between 185 186 c || between 188 190 c || between 192 214 c
  || between 216 246 c || between 248 255 c.

(** [c in chars] *)
Fixpoint char_in (chars : string) (c : ascii) : bool :=
  match chars with
  | EmptyString => false
  | String d chars' => Ascii.eqb c d || char_in chars' c
  end.

(** [needle in s] *)
Fixpoint contains (needle s : string) : bool :=
  String.prefix needle s ||
  match s with
  | EmptyString => false
  | String _ s' => contains needle s'
  end.

(** [s[a:b]] for [0 <= a <= b]. *)
Definition str_slice (s : string) (a b : nat) : string :=
  String.substring a (b - a) s.

(** [s[a:]] *)
Fixpoint str_from (s : string) (a : nat) : string :=
  match a, s with
  | 0, _ => s
  | S a', String _ s' => str_from s' a'
  | S _, EmptyString => EmptyString
  end.

Fixpoint last_char (s : string) : option ascii :=
  match s with
  | EmptyString => None
  | String c EmptyString => Some c
  | String _ s' => last_char s'
  end.

(** [s.split()]: the maximal runs of non-whitespace characters. *)
Fixpoint split_ws (s : string) (word : string) : list string :=
  match s with
  | EmptyString =>
      match word with EmptyString => [] | _ => [word] end
  | String c s' =>
      if isspace c then
        match word with
        | EmptyString => split_ws s' EmptyString
        | _ => word :: split_ws s' EmptyString
        end
      else split_ws s' (word ++ String c EmptyString)%string
  end.

Definition split (s : string) : list string := split_ws s EmptyString.

(** [sep.join(words)] *)
Fixpoint join (sep : string) (words : list string) : string :=
  match words with
  | [] => EmptyString
  | [w] => w
  | w :: ws => (w ++ sep ++ join sep ws)%string
  end.

(** [lst[-1]] *)
Definition last_item {A : Type} (l : list A) : result A :=
  match rev l with
  | x :: _ => Ok x
  | [] => Raise IndexError
  end.

(** ** Chunks *)

(** The three shapes of [Chunk.markup]: [None], a bare [str], or a
    [(style, text)] tuple. *)
Inductive markup_t : Type :=
| NoMarkup : markup_t
| Literal : string -> markup_t
| Styled : string -> string -> markup_t.

Record chunk : Type := Chunk { markup : markup_t; url : option string }.

(** ** Regular expressions

    The part of Python's [re] engine that the patterns of urlscan use: a
    backtracking matcher that tries alternatives from left to right, makes
    repetitions greedy, and records the span of every capturing group.  A
    pattern text is represented by its syntax tree. *)

Module Re.

Inductive regex : Type :=
| Eps : regex                          (* the empty pattern *)
| Chr : (ascii -> bool) -> regex       (* one character of a class *)
| Seq : regex -> regex -> regex
| Alt : regex -> regex -> regex        (* r1|r2 *)
| Star : regex -> regex                (* r*, greedy *)
| Group : nat -> regex -> regex        (* capturing group number n *)
| Eos : regex.                         (* $ *)

(** [r?] and [r+], both greedy. *)
Definition Opt (r : regex) : regex := Alt r Eps.
Definition Plus (r : regex) : regex := Seq r (Star r).

(** A literal text. *)
Fixpoint Lit (s : string) : regex :=
  match s with
  | EmptyString => Eps
  | String c s' => Seq (Chr (Ascii.eqb c)) (Lit s')
  end.

(** ['|'.join(rs)] *)
Fixpoint alternatives (rs : list regex) : regex :=
  match rs with
  | [] => Eps
  | [r] => r
  | r :: rs' => Alt r (alternatives rs')
  end.

(** Group number to [(start, end)], most recent binding first. *)
Definition captures : Type := list (nat * (nat * nat)).

(** What remains to be matched after a sub-pattern: it receives the
    position reached, the text from there on, and the groups set so far. *)
Definition cont : Type := nat -> string -> captures -> option (nat * captures).

(** [$] matches at the end of the text and before a final newline. *)
Definition at_end (rest : string) : bool :=
  match rest with
  | EmptyString => true
  | String c EmptyString => Ascii.eqb c "010"%char
  | _ => false
  end.

(** [run r pos rest caps k]: match [r] at position [pos], where [rest] is
    the text from [pos] on, then go on with [k]; [None] makes the caller
    backtrack.  A round of a repetition that consumes nothing is not
    taken, so [String.length rest] rounds are enough. *)
Fixpoint run (r : regex) (pos : nat) (rest : string) (caps : captures)
    (k : cont) {struct r} : option (nat * captures) :=
  match r with
  | Eps => k pos rest caps
  | Chr p =>
      match rest with
      | String c rest' => if p c then k (S pos) rest' caps else None
      | EmptyString => None
      end
  | Seq r1 r2 =>
      run r1 pos rest caps (fun pos' rest' caps' => run r2 pos' rest' caps' k)
  | Alt r1 r2 =>
      match run r1 pos rest caps k with
      | Some m => Some m
      | None => run r2 pos rest caps k
      end
  | Star r1 =>
      (fix rounds (n : nat) (pos : nat) (rest : string) (caps : captures)
           {struct n} : option (nat * captures) :=
         match n with
         | 0 => k pos rest caps
         | S n' =>
             match run r1 pos rest caps
                     (fun pos' rest' caps' =>
                        if pos <? pos' then rounds n' pos' rest' caps'
                        else None) with
             | Some m => Some m
             | None => k pos rest caps
             end
         end) (String.length rest) pos rest caps
  | Group n r1 =>
      run r1 pos rest caps
        (fun pos' rest' caps' => k pos' rest' ((n, (pos, pos')) :: caps'))
  | Eos => if at_end rest then k pos rest caps else None
  end.

(** A match of [r] that starts at [pos]: its end and its groups. *)
Definition match_at (r : regex) (pos : nat) (rest : string)
    : option (nat * captures) :=
  run r pos rest [] (fun pos' _ caps' => Some (pos', caps')).

(** A compiled pattern: the tree, the number of groups ([Pattern.groups])
    and the names of the named groups ([Pattern.groupindex]). *)
Record pattern : Type := Pattern {
  tree : regex;
  groups : nat;
  groupindex : list (string * nat)
}.

(** A match object. *)
Record match_obj : Type := Match {
  re : pattern;
  subject : string;
  m_start : nat;
  m_end : nat;
  spans : captures
}.

Fixpoint span_of (caps : captures) (n : nat) : option (nat * nat) :=
  match caps with
  | [] => None
  | (g, sp) :: caps' => if g =? n then Some sp else span_of caps' n
  end.

(** [match.group(n)]: the text of group [n], [None] when the group took
    no part in the match, [IndexError] when the pattern has no such group. *)
Definition group (m : match_obj) (n : nat) : result (option string) :=
  if n =? 0 then Ok (Some (str_slice (subject m) (m_start m) (m_end m)))
  else if n <=? groups (re m) then
    Ok (match span_of (spans m) n with
        | Some (a, b) => Some (str_slice (subject m) a b)
        | None => None
        end)
  else Raise IndexError.

Fixpoint index_of (name : string) (gi : list (string * nat)) : option nat :=
  match gi with
  | [] => None
  | (x, n) :: gi' => if String.eqb x name then Some n else index_of name gi'
  end.

(** [match.group(name)] *)
Definition group_named (m : match_obj) (name : string)
    : result (option string) :=
  match index_of name (groupindex (re m)) with
  | Some n => group m n
  | None => Raise IndexError
  end.

(** A match of [r] that starts at [pos] and is not empty: an empty match
    makes the matcher backtrack.  This is the search of the scanner when
    it must advance. *)
Definition match_advancing (r : regex) (pos : nat) (rest : string)
    : option (nat * captures) :=
  run r pos rest []
    (fun pos' _ caps' => if pos <? pos' then Some (pos', caps') else None).

(** [p.finditer(s)]: the matches from left to right, none overlapping.
    [rest] is the text from [pos] on; [skip] counts the characters still
    covered by the previous match.  After an empty match the scanner
    searches again from the same position and must advance: there it
    takes a match only when it is not empty. *)
Fixpoint find_from (p : pattern) (s : string) (rest : string) (pos : nat)
    (skip : nat) {struct rest} : list match_obj :=
  match skip with
  | S skip' =>
      match rest with
      | EmptyString => []
      | String _ rest' => find_from p s rest' (S pos) skip'
      end
  | 0 =>
      match match_at (tree p) pos rest with
      | Some (e, caps) =>
          Match p s pos e caps ::
          (if e =? pos then
             match match_advancing (tree p) pos rest with
             | Some (e', caps') =>
                 Match p s pos e' caps' ::
                 match rest with
                 | EmptyString => []
                 | String _ rest' =>
                     find_from p s rest' (S pos) (e' - pos - 1)
                 end
             | None =>
                 match rest with
                 | EmptyString => []
                 | String _ rest' => find_from p s rest' (S pos) 0
                 end
             end
           else
             match rest with
             | EmptyString => []
             | String _ rest' => find_from p s rest' (S pos) (e - pos - 1)
             end)
      | None =>
          match rest with
          | EmptyString => []
          | String _ rest' => find_from p s rest' (S pos) 0
          end
      end
  end.

Definition finditer (p : pattern) (s : string) : list match_obj :=
  find_from p s s 0 0.

(** [p.match(s)]: a match at the start of [s]. *)
Definition match_ (p : pattern) (s : string) : option match_obj :=
  match match_at (tree p) 0 s with
  | Some (e, caps) => Some (Match p s 0 e caps)
  | None => None
  end.

(** [(pos', rest')] is reached from [(pos, rest)] by reading [d]
    characters. *)
Definition reached (pos : nat) (rest : string) (pos' : nat) (rest' : string)
    : Prop :=
  exists d, pos' = pos + d /\ rest' = str_from rest d.

End Re.

(** ** The link grammar *)

Module Grammar.

Import Re.

(** A character class: the listed characters and, with [w], [\w]. *)
Definition class (w : bool) (chars : string) : regex :=
  Chr (fun c => (w && isword c) || char_in chars c).

(** [URLINTERNALPATTERN = r'[{}()@\w/\\\-%?!&.=:;+,#~]'] *)
Definition URLINTERNALPATTERN : regex := class true "{}()@/\-%?!&.=:;+,#~".

(** [URLTRAILINGPATTERN = r'[{}(@\w/\-%&=+#$]'] *)
Definition URLTRAILINGPATTERN : regex := class true "{}(@/-%&=+#$".

(** [(https?|file|ftps?)], group 2 of [URLRE]. *)
Definition scheme : regex :=
  Group 2 (Alt (Seq (Lit "http") (Opt (Lit "s")))
          (Alt (Lit "file")
               (Seq (Lit "ftp") (Opt (Lit "s"))))).

Definition HTTPURLPATTERN : regex :=
  Seq scheme
 (Seq (Lit "://")
 (Seq (Star URLINTERNALPATTERN)
      URLTRAILINGPATTERN)).

Section WithTLDs.

(** [TLDS = load_tlds()]: the entries of
    [assets/tlds-alpha-by-domain.txt], lower-cased, without the first
    line and without the entries that hold [--].  The file is not part
    of the sources; its entries are letters and digits, which stand for
    themselves in a pattern. *)
Variable TLDS : list string.

(** [r'(?:[\w\-%]+(?:\.[\w\-%]+)*\.(?:' + '|'.join(TLDS) + ')$)'] *)
Definition GUESSEDURLPATTERN : regex :=
  Seq (Plus (class true "-%"))
 (Seq (Star (Seq (Lit ".") (Plus (class true "-%"))))
 (Seq (Lit ".")
 (Seq (alternatives (map Lit TLDS))
      Eos))).

(** [(?P<email>(mailto:)?[\w\-.]+@[\w\-.]*[\w\-])], groups 3 and 4. *)
Definition email : regex :=
  Group 3
    (Seq (Opt (Group 4 (Lit "mailto:")))
    (Seq (Plus (class true "-."))
    (Seq (Lit "@")
    (Seq (Star (class true "-."))
         (class true "-"))))).

(** [URLRE]: an optional [<] or [<URL:], group 1 with the three
    alternatives, an optional [>]. *)
Definition URLRE : pattern :=
  Pattern
    (Seq (Opt (Seq (Lit "<") (Opt (Lit "URL:"))))
    (Seq (Group 1 (Alt HTTPURLPATTERN (Alt GUESSEDURLPATTERN email)))
         (Opt (Lit ">"))))
    4
    [("email", 3)].

End WithTLDs.

(** Top-level domains that the assertions after [URLRE] in the source
    rely on; an instance of the table for worked examples. *)
Definition sample_tlds : list string :=
  ["biz"; "com"; "edu"; "info"; "org"; "smile"; "zw"].

End Grammar.

(** ** The plain-text splitter *)

Module Text.

Import Re.

(** The body of [for match in URLRE.finditer(mesg)]; [custom] says whether
    a [regex] argument was given. *)
Definition on_match (mesg : string) (custom : bool) (m : match_obj)
    (st : list chunk * nat) : result (list chunk * nat) :=
  let '(rval, loc) := st in
  let rval :=
    if loc <? m_start m
    then rval ++ [Chunk (Literal (str_slice mesg loc (m_start m))) None]
    else rval in
  if custom then
    g0 <- group m 0 ;;
    Ok (rval ++ [Chunk NoMarkup g0], m_end m)
  else
    email <- group_named m "email" ;;
    mailto <-
      match email with
      | Some (String c e) =>
          if negb (contains "mailto" (String c e))
          then Ok (Some ("mailto:" ++ String c e)%string)
          else group m 1
      | _ => group m 1
      end ;;
    Ok (rval ++ [Chunk NoMarkup mailto], m_end m).

Fixpoint for_matches (mesg : string) (custom : bool) (ms : list match_obj)
    (st : list chunk * nat) : result (list chunk * nat) :=
  match ms with
  | [] => Ok st
  | m :: ms' =>
      st' <- on_match mesg custom m st ;;
      for_matches mesg custom ms' st'
  end.

(** [parse_text_urls(mesg, regex)] for a [regex] that is [None] or a
    compiled pattern, which [re.compile] returns as it is.  The first
    argument is the module variable [URLRE] when the call starts; the
    second component of the result is [URLRE] when the call ends.  For a
    [regex] given as text see [parse_text_urls_text]. *)
Definition parse_text_urls (URLRE : pattern) (mesg : string)
    (regex : option pattern) : result (list chunk) * pattern :=
  let URLRE := match regex with Some r => r | None => URLRE end in
  let custom := match regex with Some _ => true | None => false end in
  (st <- for_matches mesg custom (finditer URLRE mesg) ([], 0) ;;
   let '(rval, loc) := st in
   Ok (if loc <? String.length mesg
       then rval ++ [Chunk (Literal (str_from mesg loc)) None]
       else rval),
   URLRE).

Section WithCompile.

(** [re.compile] on the text of a pattern: the compiled pattern, or the
    exception [re.error] for a text that is not a pattern.  The syntax of
    patterns is that of the library. *)
Variable compile : string -> result pattern.



End WithCompile.

End Text.

(** ** Numbers in strings *)

(** The value of a digit in [int(s, base)]. *)
Definition digit_value (c : ascii) : option N :=
  if between 48 57 c then Some (code c - 48)%N
  else if between 97 122 c then Some (code c - 87)%N
  else if between 65 90 c then Some (code c - 55)%N
  else None.

(** The digits of [int(s, base)]: at least one digit, and single
    underscores between digits.  [seen] says that a digit was read, [us]
    that an underscore may come next. *)
Fixpoint digits (base : N) (s : string) (acc : N) (seen us : bool)
    : option N :=
  match s with
  | EmptyString => if seen && us then Some acc else None
  | String c s' =>
      if Ascii.eqb c "_" then
        if us then digits base s' acc seen false else None
      else
        match digit_value c with
        | Some d =>
            if (d <? base)%N then digits base s' (acc * base + d)%N true true
            else None
        | None => None
        end
  end.

(** The whitespace that [int] skips around the number.  In an ASCII text
    these are the blank and the characters 9 to 13; in a text with other
    characters the whitespace above 127 counts too, but the separators 28
    to 31 never do. *)
Definition int_space (c : ascii) : bool :=
  between 9 13 c || (code c =? 32)%N || (code c =? 133)%N
  || (code c =? 160)%N.

Fixpoint lstrip (s : string) : string :=
  match s with
  | String c s' => if int_space c then lstrip s' else s
  | EmptyString => EmptyString
  end.

Fixpoint rstrip (s : string) : string :=
  match s with
  | EmptyString => EmptyString
  | String c s' =>
      match rstrip s' with
      | EmptyString => if int_space c then EmptyString else String c EmptyString
      | t => String c t
      end
  end.

(** [sys.int_info.default_max_str_digits]: the longest digit string that
    [int] converts in a base that is not a power of two (CPython 3.11 and
    later; before, there is no limit). *)
Definition max_str_digits : nat := 4300.

(** The digits of a digit string, the underscores left out. *)
Fixpoint digit_count (s : string) : nat :=
  match s with
  | EmptyString => 0
  | String c s' =>
      if Ascii.eqb c "_" then digit_count s' else S (digit_count s')
  end.

(** [int(s, base)] for [base] 10 or 16: surrounding whitespace, a sign,
    for base 16 a [0x] or [0X] prefix, then the digits; in base 10 no more
    than [max_str_digits] of them. *)
Definition int (s : string) (base : N) : result Z :=
  let s := rstrip (lstrip s) in
  let '(neg, s) :=
    match s with
    | String "-" s' => (true, s')
    | String "+" s' => (false, s')
    | _ => (false, s)
    end in
  let '(s, us) :=
    match s with
    | String "0" (String x s') =>
        if (base =? 16)%N && (Ascii.eqb x "x" || Ascii.eqb x "X")
        then (s', true)
        else (s, false)
    | _ => (s, false)
    end in
  match digits base s 0 false us with
  | Some n =>
      if (base =? 10)%N && (max_str_digits <? digit_count s)
      then Raise ValueError
      else Ok (if neg then - Z.of_N n else Z.of_N n)%Z
  | None => Raise ValueError
  end.

(** [chr(i)] for [i < 128]. *)
Definition chr (i : Z) : result string :=
  if (i <? 0)%Z then Raise ValueError
  else Ok (String (ascii_of_N (Z.to_N i)) EmptyString).

(** ["%d" % n] *)
Definition decimal (n : nat) : string :=
  DecimalString.NilZero.string_of_uint (Nat.to_uint n).

(** ["%2d" % n] *)
Definition decimal2 (n : nat) : string :=
  let d := decimal n in
  if String.length d <? 2 then (" " ++ d)%string else d.

(** [' ' * n] *)
Fixpoint spaces (n : nat) : string :=
  match n with
  | 0 => EmptyString
  | S n' => String " " (spaces n')
  end.

(** ** The HTML chunker *)

Module HTML.

(** A [set] of style names: a list without duplicates. *)
Definition style_set : Type := list string.

Definition set_with (s : style_set) (x : string) : style_set :=
  ListSet.set_add string_dec x s.

Fixpoint insert_sorted (x : string) (l : list string) : list string :=
  match l with
  | [] => [x]
  | y :: l' => if String.leb x y then x :: l else y :: insert_sorted x l'
  end.

(** [list(s)] followed by [sort()]. *)
Definition sorted (s : style_set) : list string :=
  fold_right insert_sorted [] s.

(** The attributes of an [HTMLChunker] object. *)
Record HTMLChunker : Type := Build {
  rval : list (list chunk);
  at_para_start : bool;
  trailing_space : bool;
  style_stack : list style_set;
  anchor_stack : list (option string);
  list_stack : list (string * nat);
  in_style_or_script : bool
}.

(** [__init__] *)
Definition init : HTMLChunker :=
  Build [] true false [[]] [None] [] false.

Definition set_rval (st : HTMLChunker) (v : list (list chunk)) :=
  Build v (at_para_start st) (trailing_space st) (style_stack st)
        (anchor_stack st) (list_stack st) (in_style_or_script st).

Definition set_at_para_start (st : HTMLChunker) (v : bool) :=
  Build (rval st) v (trailing_space st) (style_stack st)
        (anchor_stack st) (list_stack st) (in_style_or_script st).

Definition set_trailing_space (st : HTMLChunker) (v : bool) :=
  Build (rval st) (at_para_start st) v (style_stack st)
        (anchor_stack st) (list_stack st) (in_style_or_script st).

Definition set_style_stack (st : HTMLChunker) (v : list style_set) :=
  Build (rval st) (at_para_start st) (trailing_space st) v
        (anchor_stack st) (list_stack st) (in_style_or_script st).

Definition set_anchor_stack (st : HTMLChunker) (v : list (option string)) :=
  Build (rval st) (at_para_start st) (trailing_space st) (style_stack st)
        v (list_stack st) (in_style_or_script st).

Definition set_list_stack (st : HTMLChunker) (v : list (string * nat)) :=
  Build (rval st) (at_para_start st) (trailing_space st) (style_stack st)
        (anchor_stack st) v (in_style_or_script st).

Definition set_in_style_or_script (st : HTMLChunker) (v : bool) :=
  Build (rval st) (at_para_start st) (trailing_space st) (style_stack st)
        (anchor_stack st) (list_stack st) v.

Definition tag_styles : list (string * string) :=
  [("b", "bold"); ("i", "italic")].

Definition ul_tags : list string := ["*"; "+"; "-"].

Fixpoint lookup {V : Type} (key : string) (d : list (string * V))
    : option V :=
  match d with
  | [] => None
  | (k, v) :: d' => if String.eqb k key then Some v else lookup key d'
  end.

(** [tag in (t1, t2, ...)] *)
Definition tag_in (tag : string) (tags : list string) : bool :=
  existsb (String.eqb tag) tags.

Definition isheadertag (tag : string) : bool :=
  match tag with
  | String c0 (String c1 EmptyString) => Ascii.eqb c0 "h" && isdigit c1
  | _ => false
  end.

Definition cur_url (st : HTMLChunker) : result (option string) :=
  last_item (anchor_stack st).

(** [self.rval[-1].append(c)] *)
Definition append_to_last (st : HTMLChunker) (c : chunk)
    : result HTMLChunker :=
  para <- last_item (rval st) ;;
  Ok (set_rval st (removelast (rval st) ++ [para ++ [c]])).

Definition add_chunk (st : HTMLChunker) (c : chunk) : result HTMLChunker :=
  st <-
    (if at_para_start st then Ok (set_rval st (rval st ++ [[]]))
     else if trailing_space st then
       u <- cur_url st ;;
       append_to_last st (Chunk (Literal " ") u)
     else Ok st) ;;
  st <- append_to_last st c ;;
  Ok (set_trailing_space (set_at_para_start st false) false).

Definition end_para (st : HTMLChunker) : result HTMLChunker :=
  let st :=
    if at_para_start st then set_rval st (rval st ++ [[]])
    else set_at_para_start st true in
  let st := set_trailing_space st false in
  match list_stack st with
  | _ :: _ =>
      u <- cur_url st ;;
      add_chunk st (Chunk (Literal (spaces (3 * List.length (list_stack st)))) u)
  | [] => Ok st
  end.

Definition end_list_para (st : HTMLChunker) : result HTMLChunker :=
  let st :=
    if at_para_start st then set_rval st (rval st ++ [[]]) else st in
  match list_stack st with
  | _ :: _ =>
      top <- last_item (list_stack st) ;;
      let '(tag, counter) := top in
      if String.eqb tag "ul" then
        let depth :=
          List.length
            (filter (fun t => String.eqb (fst t) tag) (list_stack st)) in
        glyph <-
          match nth_error ul_tags (depth mod List.length ul_tags) with
          | Some g => Ok g
          | None => Raise IndexError
          end ;;
        u <- cur_url st ;;
        add_chunk st (Chunk (Literal (glyph ++ "  ")%string) u)
      else
        let st :=
          set_list_stack st
            (removelast (list_stack st) ++ [(tag, counter + 1)]) in
        u <- cur_url st ;;
        add_chunk st (Chunk (Literal (decimal2 counter ++ ".")%string) u)
  | [] => end_para st
  end.

(** An attribute list as the parser passes it: a value is [None] for an
    attribute written without one. *)
Definition attrs_t : Type := list (string * option string).

Fixpoint findattr (attrs : attrs_t) (searchattr : string) : option string :=
  match attrs with
  | [] => None
  | (attr, val) :: attrs' =>
      if String.eqb attr searchattr then val else findattr attrs' searchattr
  end.

Definition handle_data (st : HTMLChunker) (data : string)
    : result HTMLChunker :=
  if in_style_or_script st then Ok st
  else
    let st :=
      match data with
      | String c _ => if isspace c then set_trailing_space st true else st
      | EmptyString => st
      end in
    let future_trailing_space :=
      match last_char data with
      | Some c => isspace c
      | None => false
      end in
    let data := join " " (split data) in
    top <- last_item (anchor_stack st) ;;
    let style :=
      match top with
      | None => "msgtext"
      | Some _ => "anchor"
      end in
    styles <- last_item (style_stack st) ;;
    let style :=
      match styles with
      | _ :: _ => (style ++ ":" ++ String.concat EmptyString (sorted styles))%string
      | [] => style
      end in
    u <- cur_url st ;;
    st <- add_chunk st (Chunk (Styled style data) u) ;;
    Ok (set_trailing_space st future_trailing_space).

(** [src.startswith(('http://', 'https://'))] *)
Definition external (src : string) : bool :=
  String.prefix "http://" src || String.prefix "https://" src.

Definition handle_starttag (st : HTMLChunker) (tag : string) (attrs : attrs_t)
    : result HTMLChunker :=
  if String.eqb tag "a" then
    Ok (set_anchor_stack st (anchor_stack st ++ [findattr attrs "href"]))
  else if tag_in tag ["ul"; "ol"] then
    end_para (set_list_stack st (list_stack st ++ [(tag, 1)]))
  else
    match lookup tag tag_styles with
    | Some style =>
        top <- last_item (style_stack st) ;;
        Ok (set_style_stack st (style_stack st ++ [set_with top style]))
    | None =>
        if isheadertag tag then
          top <- last_item (style_stack st) ;;
          Ok (set_style_stack st (style_stack st ++ [set_with top "bold"]))
        else if tag_in tag ["p"; "br"] then end_para st
        else if String.eqb tag "img" then
          let alt :=
            match findattr attrs "alt" with
            | Some alt => alt
            | None => "[IMG]"
            end in
          let src :=
            match findattr attrs "src" with
            | Some src => if external src then Some src else None
            | None => None
            end in
          match src with
          | Some src =>
              st <- handle_data
                      (set_anchor_stack st (anchor_stack st ++ [Some src]))
                      alt ;;
              Ok (set_anchor_stack st (removelast (anchor_stack st)))
          | None => handle_data st alt
          end
        else if String.eqb tag "li" then end_list_para st
        else if tag_in tag ["style"; "script"] then
          Ok (set_in_style_or_script st true)
        else Ok st
    end.

Definition handle_startendtag (st : HTMLChunker) (tag : string)
    (attrs : attrs_t) : result HTMLChunker :=
  if tag_in tag ["p"; "br"; "li"; "img"] then handle_starttag st tag attrs
  else Ok st.

Definition handle_endtag (st : HTMLChunker) (tag : string)
    : result HTMLChunker :=
  if String.eqb tag "a" then
    Ok (if 1 <? List.length (anchor_stack st)
        then set_anchor_stack st (removelast (anchor_stack st))
        else st)
  else
    match lookup tag tag_styles with
    | Some _ =>
        Ok (if 1 <? List.length (style_stack st)
            then set_style_stack st (removelast (style_stack st))
            else st)
    | None =>
        if tag_in tag ["ul"; "ol"] then
          end_para (if 0 <? List.length (list_stack st)
                    then set_list_stack st (removelast (list_stack st))
                    else st)
        else if isheadertag tag then
          end_para (if 1 <? List.length (style_stack st)
                    then set_style_stack st (removelast (style_stack st))
                    else st)
        else if tag_in tag ["style"; "script"] then
          Ok (set_in_style_or_script st false)
        else Ok st
    end.

Definition extrachars : list (Z * string) :=
  [(8212, "--"); (8217, "'"); (8220, "``"); (8221, "''"); (8230, "...")]%Z.

Fixpoint lookup_char (char : Z) (d : list (Z * string)) : option string :=
  match d with
  | [] => None
  | (k, v) :: d' => if (k =? char)%Z then Some v else lookup_char char d'
  end.

Definition handle_charref (st : HTMLChunker) (name : string)
    : result HTMLChunker :=
  char <-
    match name with
    | EmptyString => Raise IndexError
    | String c0 name1 =>
        if Ascii.eqb c0 "x" then int name1 16 else int name 10
    end ;;
  name <-
    (if (char <? 128)%Z then chr char
     else
       match lookup_char char extrachars with
       | Some s => Ok s
       | None => Ok ("&#" ++ name ++ ";")%string
       end) ;;
  handle_data st name.

Definition entities : list (string * string) :=
  [("nbsp", " "); ("lt", "<"); ("gt", ">"); ("amp", "&");
   ("ldquo", "``"); ("rdquo", "''"); ("apos", "'")].

Definition handle_entityref (st : HTMLChunker) (name : string)
    : result HTMLChunker :=
  match lookup name entities with
  | Some s => handle_data st s
  | None => handle_data st ("&" ++ name ++ ";")%string
  end.

(** The calls that [HTMLParser.feed] and [HTMLParser.close] make on the
    object, in document order.  [Abort e] is no call: it stands for the
    tokenizer itself raising [e], which ends the parse.  [HTMLChunker]
    leaves [convert_charrefs] on, so the tokenizer hands references on as
    text and calls neither [handle_charref] nor [handle_entityref];
    [CharRef] and [EntityRef] are calls that come from elsewhere. *)
Inductive event : Type :=
| StartTag : string -> attrs_t -> event
| StartEndTag : string -> attrs_t -> event
| EndTag : string -> event
| Data : string -> event
| CharRef : string -> event
| EntityRef : string -> event
| Abort : exn -> event.

Definition handle (st : HTMLChunker) (ev : event) : result HTMLChunker :=
  match ev with
  | StartTag tag attrs => handle_starttag st tag attrs
  | StartEndTag tag attrs => handle_startendtag st tag attrs
  | EndTag tag => handle_endtag st tag
  | Data data => handle_data st data
  | CharRef name => handle_charref st name
  | EntityRef name => handle_entityref st name
  | Abort e => Raise e
  end.

(** Handling a sequence of events; the first exception, of a handler or
    of the tokenizer, ends the parse. *)
Fixpoint feed (st : HTMLChunker) (evs : list event) : result HTMLChunker :=
  match evs with
  | [] => Ok st
  | ev :: evs' =>
      st' <- handle st ev ;;
      feed st' evs'
  end.

(** The chunk added last: the last chunk of the last paragraph. *)
Definition last_chunk (st : HTMLChunker) : option chunk :=
  match rev (rval st) with
  | para :: _ =>
      match rev para with
      | c :: _ => Some c
      | [] => None
      end
  | [] => None
  end.

(** What the handlers rely on: both stacks have their base entry, and a
    paragraph is there once [at_para_start] is off. *)
Definition well_formed (st : HTMLChunker) : Prop :=
  anchor_stack st <> [] /\ style_stack st <> []
  /\ (at_para_start st = false -> rval st <> []).

(** [st'] has the stacks and the style/script flag of [st]. *)
Definition same_stacks (st st' : HTMLChunker) : Prop :=
  anchor_stack st' = anchor_stack st /\ style_stack st' = style_stack st
  /\ in_style_or_script st' = in_style_or_script st.

(** A digit of [int(s, base)] below [base]. *)
Definition digit_below (base : N) (c : ascii) : bool :=
  match digit_value c with
  | Some d => (d <? base)%N
  | None => false
  end.

Fixpoint all_chars (p : ascii -> bool) (s : string) : bool :=
  match s with
  | EmptyString => true
  | String c s' => p c && all_chars p s'
  end.

(** The names of the numeric references [&#212;] and [&#xd4;]: decimal
    digits, no more than [int] converts, or a lower-case [x] and
    hexadecimal digits. *)
Definition valid_charref (name : string) : bool :=
  match name with
  | EmptyString => false
  | String c0 name1 =>
      if Ascii.eqb c0 "x" then
        match name1 with
        | EmptyString => false
        | _ => all_chars (digit_below 16) name1
        end
      else
        all_chars (digit_below 10) name
        && (String.length name <=? max_str_digits)
  end.

(** A handler call that is not [handle_charref] with another name. *)
Definition ok_event (ev : event) : bool :=
  match ev with
  | CharRef name => valid_charref name
  | Abort _ => false
  | _ => true
  end.

(** Text and references, which are dropped inside [style] and
    [script]. *)
Definition text_event (ev : event) : bool :=
  match ev with
  | Data _ | EntityRef _ => true
  | CharRef name => valid_charref name
  | _ => false
  end.

(** The style names that [handle_data] composes. *)
Definition palette : list string :=
  ["msgtext"; "msgtext:bold"; "msgtext:italic"; "msgtext:bolditalic";
   "anchor"; "anchor:bold"; "anchor:italic"; "anchor:bolditalic"].

(** The markup of a chunk of the chunker: a bare text, or a text under a
    style name of the palette. *)
Definition markup_ok (c : chunk) : bool :=
  match markup c with
  | NoMarkup => false
  | Literal _ => true
  | Styled style _ => existsb (String.eqb style) palette
  end.

(** A style set holds "bold" and "italic", each at most once, and nothing
    else. *)
Definition styles_ok (s : style_set) : bool :=
  existsb (fun l => if list_eq_dec string_dec s l then true else false)
    [[]; ["bold"]; ["italic"]; ["bold"; "italic"]; ["italic"; "bold"]].

(** A state that the handlers can work on and whose style sets are as
    [handle_starttag] builds them. *)
Definition sound (st : HTMLChunker) : Prop :=
  well_formed st /\ Forall (fun s => styles_ok s = true) (style_stack st).

(** All chunks, paragraph after paragraph. *)
Definition all_chunks (st : HTMLChunker) : list chunk :=
  List.concat (rval st).

(** [st'] has the chunks of [st], in the same order, then more chunks,
    all with markup, and no fewer paragraphs. *)
Definition extends (st st' : HTMLChunker) : Prop :=
  exists extra,
    all_chunks st' = all_chunks st ++ extra
    /\ Forall (fun c => markup_ok c = true) extra
    /\ List.length (rval st) <= List.length (rval st').

(** The links that a handler call can bring in: the [href] of the start
    tag of an anchor, and the [src] of an image when it is external. *)
Definition image_link (attrs : attrs_t) : list string :=
  match findattr attrs "src" with
  | Some src => if external src then [src] else []
  | None => []
  end.

Definition links_of (ev : event) : list string :=
  match ev with
  | StartTag tag attrs =>
      if String.eqb tag "a" then
        match findattr attrs "href" with
        | Some u => [u]
        | None => []
        end
      else if String.eqb tag "img" then image_link attrs
      else []
  | StartEndTag tag attrs =>
      if String.eqb tag "img" then image_link attrs else []
  | _ => []
  end.

(** No link, or a link of [U]. *)
Definition url_in (U : list string) (u : option string) : Prop :=
  match u with
  | Some x => In x U
  | None => True
  end.

(** The open anchors and the chunks have their links from [U]. *)
Definition linked (U : list string) (st : HTMLChunker) : Prop :=
  Forall (url_in U) (anchor_stack st)
  /\ Forall (fun c => url_in U (url c)) (all_chunks st).

(** The tags whose start tag pushes on a stack and whose end tag pops
    it. *)
Definition paired (tag : string) : bool :=
  String.eqb tag "a" || tag_in tag ["ul"; "ol"]
  || match lookup tag tag_styles with
     | Some _ => true
     | None => false
     end
  || isheadertag tag.

(** The other handler calls. *)
Definition neutral (ev : event) : bool :=
  match ev with
  | StartTag tag _ | EndTag tag => negb (paired tag)
  | StartEndTag _ _ | Data _ | EntityRef _ => true
  | CharRef name => valid_charref name
  | Abort _ => false
  end.

(** Events in which every start tag of a paired tag has its end tag, and
    the pairs nest. *)
Inductive balanced : list event -> Prop :=
| balanced_nil : balanced []
| balanced_neutral ev evs :
    neutral ev = true -> balanced evs -> balanced (ev :: evs)
| balanced_pair tag attrs body evs :
    paired tag = true -> balanced body -> balanced evs ->
    balanced (StartTag tag attrs :: body ++ EndTag tag :: evs).

(** [st'] has the open anchors, the open styles and the open lists of
    [st]; the counters of the lists may differ. *)
Definition same_nesting (st st' : HTMLChunker) : Prop :=
  anchor_stack st' = anchor_stack st /\ style_stack st' = style_stack st
  /\ map fst (list_stack st') = map fst (list_stack st).


End HTML.

(** ** The tokenizer, on text without tags *)

Module Parser.

(** Where [html.unescape] is in a text: in plain text, behind [&], behind
    [&#], or in the decimal or hexadecimal digits of a reference. *)
Inductive mode : Type :=
| Plain : mode
| Amp : mode
| Hash : mode
| Dec : string -> mode
| Hex : string -> mode.

Definition is_dec (c : ascii) : bool := between 48 57 c.

Definition is_hex (c : ascii) : bool :=
  between 48 57 c || between 97 102 c || between 65 70 c.

(** [_replace_charref] for the digits [ds] of a numeric reference that
    stands for a printable ASCII character; [None] for another number. *)
Definition replace_charref (ds : string) (base : N) : option string :=
  match ds, int ds base with
  | String _ _, Ok num =>
      if ((32 <=? num) && (num <=? 126))%Z
      then Some (String (ascii_of_N (Z.to_N num)) EmptyString)
      else None
  | _, _ => None
  end.

(** Modelled from the library: [html.unescape], for a text without [<]
    in which every [&] starts a numeric reference [&#...;], [&#x...;] or
    [&#X...;] that ends in [;] and stands for a printable ASCII
    character.  [None]: the text is outside this fragment. *)
Fixpoint unescape (m : mode) (s : string) : option string :=
  match s with
  | EmptyString =>
      match m with
      | Plain => Some EmptyString
      | _ => None
      end
  | String c s' =>
      match m with
      | Plain =>
          if Ascii.eqb c "&" then unescape Amp s'
          else if Ascii.eqb c "<" then None
          else option_map (String c) (unescape Plain s')
      | Amp => if Ascii.eqb c "#" then unescape Hash s' else None
      | Hash =>
          if Ascii.eqb c "x" || Ascii.eqb c "X" then unescape (Hex EmptyString) s'
          else if is_dec c then unescape (Dec (String c EmptyString)) s'
          else None
      | Dec ds =>
          if is_dec c then unescape (Dec (ds ++ String c EmptyString)) s'
          else if Ascii.eqb c ";" then
            match replace_charref ds 10, unescape Plain s' with
            | Some t, Some rest => Some (t ++ rest)%string
            | _, _ => None
            end
          else None
      | Hex ds =>
          if is_hex c then unescape (Hex (ds ++ String c EmptyString)) s'
          else if Ascii.eqb c ";" then
            match replace_charref ds 16, unescape Plain s' with
            | Some t, Some rest => Some (t ++ rest)%string
            | _, _ => None
            end
          else None
      end
  end.

(** Modelled from the library: the handler calls of [HTMLParser.feed]
    followed by [HTMLParser.close], with [convert_charrefs] on as
    [HTMLChunker.__init__] leaves it, for a message of the fragment of
    [unescape].  Such a message has no tag: the tokenizer hands the whole
    text on in one call of [handle_data], the references replaced by
    their characters, and makes no call for an empty message. *)
Definition calls (mesg : string) : option (list HTML.event) :=
  match mesg with
  | EmptyString => Some []
  | _ =>
      match unescape Plain mesg with
      | Some text => Some [HTML.Data text]
      | None => None
      end
  end.

End Parser.

(** ** The shape of the extracted windows *)

Module Shape.

Section WithInput.

Variable A : Type.
Variable lst : list A.
Variable pred : A -> bool.
Variables before_context after_context : nat.

(** The longest run of lines without a match, between two lines with one,
    that the extension loop of [extract_with_context] takes into a
    window. *)
Definition merge_gap : nat := after_context + Nat.max before_context 1.

(** Between the matching lines [m] and [t], no run of lines without a
    match is longer than [merge_gap]. *)
Definition bridged (m t : nat) : Prop :=
  forall i j, m <= i -> i < j -> j <= t ->
    Extractor.pred_at lst pred i = true ->
    Extractor.pred_at lst pred j = true ->
    Extractor.quiet lst pred (i + 1) j ->
    j <= i + merge_gap + 1.

(** The index range [r] as a window that follows a window ending at [p]
    (or the start of the list, [p = 0]): [m] is its first and [t] its last
    matching line. *)
Definition window_ok (p : nat) (r : nat * nat) : Prop :=
  exists m t,
    p <= fst r /\ fst r <= m /\ m <= t /\ t < snd r
    /\ snd r <= Extractor.len lst
    /\ Extractor.quiet lst pred p m
    /\ Extractor.pred_at lst pred m = true
    /\ Extractor.pred_at lst pred t = true
    /\ Extractor.quiet lst pred (t + 1) (snd r)
    /\ m <= fst r + (before_context + 1)
    /\ (fst r = p \/ m = fst r + (before_context + 1))
    /\ snd r <= t + 1 + after_context
    /\ (snd r = Extractor.len lst \/ snd r = t + 1 + after_context)
    /\ Extractor.quiet lst pred (t + 1) (t + merge_gap + 2)
    /\ bridged m t.

(** Windows one after the other, the first one after [p]. *)
Fixpoint chain (p : nat) (rs : list (nat * nat)) : Prop :=
  match rs with
  | [] => True
  | r :: rs' => window_ok p r /\ chain (snd r) rs'
  end.

(** Where the last window of [rs] ends; [p] without a window. *)
Fixpoint last_end (p : nat) (rs : list (nat * nat)) : nat :=
  match rs with
  | [] => p
  | r :: rs' => last_end (snd r) rs'
  end.

End WithInput.

End Shape.

(** ** The drivers *)

Module Drivers.

Import Re.



(** [chnk.url is not None] *)
Definition has_url (c : chunk) : bool :=
  match url c with
  | Some _ => true
  | None => false
  end.



(** The texts before, between and after the matches [ms] of [s]. *)
Fixpoint pieces (s : string) (ms : list match_obj) (loc : nat)
    : list string :=
  match ms with
  | [] => [str_from s loc]
  | m :: ms' => str_slice s loc (m_start m) :: pieces s ms' (m_end m)
  end.

(** [p.split(s)], for a pattern without groups whose matches are not
    empty. *)
Definition split (p : pattern) (s : string) : list string :=
  pieces s (finditer p s) 0.


Section WithCompile.

(** [re.compile], as for [Text.parse_text_urls_text]. *)
Variable compile : string -> result pattern.



End WithCompile.

(** [somechunkisurl(chunks)] *)
Definition somechunkisurl (chunks : list chunk) : bool :=
  existsb has_url chunks.

Section WithParser.

(** What [chunk.feed(mesg)] and [chunk.close()] do for the text [mesg]:
    the handler calls, and at their end [HTML.Abort e] when the tokenizer
    raises [e].  The tokenizer is that of [html.parser]. *)
Variable calls : string -> list HTML.event.

(** [extracthtmlurls(mesg, regex)]; [regex] is not used. *)
Definition extracthtmlurls (mesg : string) (regex : option pattern)
    : result (option (list (Extractor.window (list chunk)))) :=
  chunk <- HTML.feed HTML.init (calls mesg) ;;
  Ok (Extractor.extract_with_context (HTML.rval chunk) somechunkisurl 1 1).

End WithParser.


End Drivers.

(** A word of [str.split]: not empty, and without whitespace. *)
Definition ws_word (w : string) : Prop :=
  w <> EmptyString /\ HTML.all_chars (fun c => negb (isspace c)) w = true.

(** * Properties *)

(** ** Loops *)

(** A loop whose body keeps [I] and decreases [mu] ends, within any fuel
    above [mu], in a state where [I] holds and the condition is false. *)
Lemma while_loop_rule (S : Type) (I : S -> Prop) (mu : S -> nat)
    (cond : S -> bool) (body : S -> option S) :
  (forall s, I s -> cond s = true ->
             exists s', body s = Some s' /\ I s' /\ mu s' < mu s) ->
  forall fuel s, I s -> mu s < fuel ->
    exists s', while_loop fuel cond body s = Some s' /\ I s' /\ cond s' = false.
Proof.
  intros Hbody. induction fuel as [|fuel IH]; intros s HI Hmu.
  - lia.
  - simpl. destruct (cond s) eqn:Hc.
    + destruct (Hbody s HI Hc) as (s' & -> & HI' & Hlt).
      apply IH; [assumption | lia].
    + exists s. auto.
Qed.

(** ** The context-window extractor *)

Section ExtractProofs.

Import Extractor.

Variable A : Type.
Variable lst : list A.
Variable pred : A -> bool.
Variables before_context after_context : nat.

Local Abbreviation n := (len lst).
Local Abbreviation P := (pred_at lst pred).

Ltac bools :=
  repeat match goal with
         | H : (_ && _)%bool = true |- _ => apply andb_prop in H; destruct H
         | H : negb _ = true |- _ => apply negb_true_iff in H
         | H : (_ <? _) = true |- _ => apply Nat.ltb_lt in H
         | H : (_ <=? _) = true |- _ => apply Nat.leb_le in H
         | H : (_ =? _) = true |- _ => apply Nat.eqb_eq in H
         | H : (_ <? _) = false |- _ => apply Nat.ltb_ge in H
         | H : (_ =? _) = false |- _ => apply Nat.eqb_neq in H
         end.

Local Abbreviation quiet := (Extractor.quiet lst pred).

Lemma extend_to_match_spec start :
  start <= n ->
  exists l, extend_to_match lst pred before_context start 0 = Some l
            /\ start + l <= n /\ quiet start (start + l).
Proof.
  intros Hs. unfold extend_to_match.
  destruct (while_loop_rule
              (fun l => start + l <= n /\ quiet start (start + l))
              (fun l => n - (start + l))
              (fun l => (start + l <? n) && (l <? before_context + 1)
                        && negb (P (start + l)))
              (fun l => Some (l + 1))) with (fuel := fuel lst) (s := 0)
    as (l & Hrun & (Hle & Hq) & _).
  - intros l [Hle Hq] Hc. bools. exists (l + 1). split; [reflexivity|].
    split; [split|]; try lia.
    intros i Hi. destruct (Nat.eq_dec i (start + l)) as [->|]; [assumption|].
    apply Hq. lia.
  - split; [lia|]. intros i Hi. lia.
  - unfold fuel. lia.
  - exists l. auto.
Qed.

Lemma slide_to_match_spec start l :
  start + l <= n -> quiet start (start + l) ->
  exists s, slide_to_match lst pred start l = Some s
            /\ start <= s /\ s + l <= n /\ quiet start (s + l)
            /\ (s + l = n \/ (s + l < n /\ P (s + l) = true)).
Proof.
  intros Hle Hq. unfold slide_to_match.
  destruct (while_loop_rule
              (fun s => start <= s /\ s + l <= n /\ quiet start (s + l))
              (fun s => n - (s + l))
              (fun s => (s + l <? n) && negb (P (s + l)))
              (fun s => Some (s + 1))) with (fuel := fuel lst) (s := start)
    as (s & Hrun & (Hs & Hle' & Hq') & Hc).
  - intros s (Hs & Hle' & Hq') Hc. bools. exists (s + 1).
    split; [reflexivity|]. split; [split; [|split]|]; try lia.
    intros i Hi. destruct (Nat.eq_dec i (s + l)) as [->|]; [assumption|].
    apply Hq'. lia.
  - auto.
  - unfold fuel. lia.
  - exists s. repeat split; try assumption.
    apply andb_false_iff in Hc. destruct Hc as [Hc|Hc]; bools.
    + left. lia.
    + right. apply negb_false_iff in Hc. split; [|assumption].
      destruct (Nat.eq_dec (s + l) n) as [E|]; [|lia].
      unfold pred_at in Hc. rewrite E in Hc.
      destruct (nth_error lst n) eqn:Hn; [|discriminate].
      assert (n < List.length lst)
        by (apply nth_error_Some; rewrite Hn; discriminate).
      unfold len in *. lia.
Qed.

Lemma read_after_spec start l :
  start + l < n ->
  exists e, read_after lst pred after_context start l = Some e
            /\ 1 <= e /\ start + l + e <= n.
Proof.
  intros Hlt. unfold read_after.
  destruct (while_loop_rule
              (fun e => 1 <= e /\ start + l + e <= n)
              (fun e => n - (start + l + e))
              (fun e => (e <? after_context + 1) && (start + l + e <? n)
                        && negb (P (start + l + e)))
              (fun e => Some (e + 1))) with (fuel := fuel lst) (s := 1)
    as (e & Hrun & He & _).
  - intros e [H1 H2] Hc. bools. exists (e + 1). repeat split; lia.
  - lia.
  - unfold fuel. lia.
  - exists e. tauto.
Qed.

Lemma read_before_spec start l :
  start + l < n ->
  exists e, read_before lst pred before_context start l = Some e /\ 1 <= e.
Proof.
  intros Hlt. unfold read_before.
  destruct (while_loop_rule
              (fun e => 1 <= e /\ start + l + e <= n)
              (fun e => n - (start + l + e))
              (fun e => (e <? before_context) && (start + l + e <? n)
                        && negb (P (start + l + e)))
              (fun e => Some (e + 1))) with (fuel := fuel lst) (s := 1)
    as (e & Hrun & He & _).
  - intros e [H1 H2] Hc. bools. exists (e + 1). repeat split; lia.
  - lia.
  - unfold fuel. lia.
  - exists e. tauto.
Qed.

(** One round of the extension takes at least one more line and stays
    inside the list. *)
Lemma extend_step_spec start l :
  start + l < n ->
  exists l', extend_step lst pred before_context after_context start l
             = Some l'
             /\ l < l' /\ start + l' <= n.
Proof.
  intros Hlt. unfold extend_step.
  destruct (read_after_spec start l Hlt) as (e & -> & He1 & He2).
  destruct ((start + (l + e) <? n) && negb (P (start + (l + e)))) eqn:Hc.
  - bools.
    destruct (read_before_spec start (l + e)) as (e' & -> & He'); [lia|].
    destruct ((start + (l + e) + e' <? n) && P (start + (l + e) + e'))
      eqn:Hc'.
    + bools. exists (l + e + e'). repeat split; lia.
    + exists (l + e). repeat split; lia.
  - exists (l + e). repeat split; lia.
Qed.

Lemma extend_repeatedly_spec start l :
  start + l < n -> P (start + l) = true ->
  exists l', extend_repeatedly lst pred before_context after_context start l
             = Some l'
             /\ l < l' /\ start + l' <= n.
Proof.
  intros Hlt HP. unfold extend_repeatedly.
  destruct (while_loop_rule
              (fun l' => l <= l' /\ start + l' <= n)
              (fun l' => n - (start + l'))
              (fun l' => (start + l' <? n) && P (start + l'))
              (extend_step lst pred before_context after_context start))
    with (fuel := fuel lst) (s := l)
    as (l' & Hrun & [H1 H2] & Hc).
  - intros l0 [H1 H2] Hc. bools.
    destruct (extend_step_spec start l0) as (l1 & -> & Hl1 & Hl2); [lia|].
    exists l1. repeat split; lia.
  - lia.
  - unfold fuel. lia.
  - exists l'. repeat split; try assumption.
    destruct (Nat.eq_dec l l') as [<-|]; [|lia].
    rewrite HP in Hc. apply Nat.ltb_lt in Hlt. rewrite Hlt in Hc.
    discriminate.
Qed.

Lemma ordered_from_app lo rs a b :
  ordered_from lo rs -> Forall (fun r => snd r <= a) rs ->
  lo <= a -> a < b ->
  ordered_from lo (rs ++ [(a, b)]).
Proof.
  revert lo. induction rs as [|[a0 b0] rs IH]; intros lo Ho Hf Hlo Hab.
  - simpl. auto.
  - simpl in *. destruct Ho as (H1 & H2 & H3).
    inversion Hf as [|? ? Hb0 Hf']; subst. simpl in Hb0.
    repeat split; auto.
Qed.

Lemma ordered_from_lower lo rs r :
  ordered_from lo rs -> In r rs -> lo <= fst r /\ fst r < snd r.
Proof.
  revert lo. induction rs as [|[a0 b0] rs IH]; intros lo Ho Hin.
  - destruct Hin.
  - simpl in Ho. destruct Ho as (H1 & H2 & H3). destruct Hin as [<-|Hin].
    + simpl. lia.
    + destruct (IH _ H3 Hin). lia.
Qed.

Lemma ordered_from_pairwise lo rs j k rj rk :
  ordered_from lo rs -> j < k ->
  nth_error rs j = Some rj -> nth_error rs k = Some rk ->
  snd rj <= fst rk.
Proof.
  revert lo j k. induction rs as [|[a0 b0] rs IH]; intros lo j k Ho Hjk Hj Hk.
  - destruct j; discriminate.
  - simpl in Ho. destruct Ho as (H1 & H2 & H3).
    destruct k as [|k]; [lia|]. simpl in Hk.
    destruct j as [|j].
    + simpl in Hj. injection Hj as <-. simpl.
      apply nth_error_In in Hk.
      destruct (ordered_from_lower _ _ _ H3 Hk). assumption.
    + simpl in Hj. apply (IH b0 j k); auto. lia.
Qed.

(** The invariant of the outer loop, carried to its end: the triples
    appended so far are those of the ranges [rs], which lie before
    [start], and every link-bearing line before [start] is in one. *)
Lemma scan_spec fuel start rs :
  n - start < fuel -> start <= n ->
  ordered_from 0 rs ->
  Forall (fun r => snd r <= start) rs ->
  (forall i, i < start -> P i = true ->
             exists r, In r rs /\ fst r <= i < snd r) ->
  Forall (fun r => exists i, fst r <= i < snd r /\ P i = true) rs ->
  exists rs',
    scan lst pred before_context after_context fuel start
         (map (window_of lst) rs)
    = Some (map (window_of lst) rs')
    /\ ordered_from 0 rs'
    /\ Forall (fun r => snd r <= n) rs'
    /\ (forall i, P i = true -> exists r, In r rs' /\ fst r <= i < snd r)
    /\ Forall (fun r => exists i, fst r <= i < snd r /\ P i = true) rs'.
Proof.
  revert start rs.
  induction fuel as [|fuel IH]; intros start rs Hfuel Hstart Ho Hb Hcov Hw.
  - lia.
  - assert (Hrange : forall i, P i = true -> i < n).
    { intros i Hi. unfold pred_at in Hi.
      destruct (nth_error lst i) eqn:E; [|discriminate].
      apply nth_error_Some. rewrite E. discriminate. }
    simpl. destruct (start <? n) eqn:Hlt.
    + bools.
      destruct (@extend_to_match_spec start Hstart) as (l & -> & Hl & Hq).
      destruct (@slide_to_match_spec start l Hl Hq)
        as (s & -> & Hs & Hsl & Hq' & Hend).
      destruct (s + l =? n) eqn:Hbreak.
      * bools. exists rs. repeat split; auto.
        -- eapply Forall_impl; [|exact Hb]. simpl. intros; lia.
        -- intros i Hi. apply Hcov; [|assumption].
           destruct (Nat.lt_ge_cases i start) as [|Hge]; [assumption|].
           specialize (Hrange i Hi).
           rewrite Hq' in Hi; [discriminate|lia].
      * bools. destruct Hend as [|[Hlt' HP]]; [lia|].
        destruct (@extend_repeatedly_spec s l Hlt' HP)
          as (l' & -> & Hl1 & Hl2).
        assert (Hc : (0 <? l') && (s + l' <=? n) = true).
        { apply andb_true_intro. split;
            [apply Nat.ltb_lt | apply Nat.leb_le]; lia. }
        rewrite Hc.
        change [(slice lst s (s + l'), s =? 0, s + l' =? n)]
          with (map (window_of lst) [(s, s + l')]).
        rewrite <- map_app.
        apply IH.
        -- lia.
        -- lia.
        -- apply ordered_from_app; try lia; auto.
           eapply Forall_impl; [|exact Hb]. simpl. intros; lia.
        -- apply Forall_app. split.
           ++ eapply Forall_impl; [|exact Hb]. simpl. intros; lia.
           ++ constructor; [simpl; lia | constructor].
        -- intros i Hi HPi.
           destruct (Nat.lt_ge_cases i start) as [Hi1|Hi1].
           ++ destruct (Hcov i Hi1 HPi) as (r & Hin & Hr).
              exists r. split; [apply in_or_app; auto | assumption].
           ++ destruct (Nat.lt_ge_cases i s) as [Hi2|Hi2].
              ** rewrite Hq' in HPi; [discriminate|lia].
              ** exists (s, s + l'). split.
                 { apply in_or_app. right. left. reflexivity. }
                 simpl. lia.
        -- apply Forall_app. split; [assumption|].
           constructor; [|constructor].
           exists (s + l). simpl. split; [lia|assumption].
    + bools. exists rs. repeat split; auto.
      * eapply Forall_impl; [|exact Hb]. simpl. intros; lia.
      * intros i Hi. apply Hcov; [|assumption].
        specialize (Hrange i Hi). lia.
Qed.

End ExtractProofs.

(** C2.  For every list of lines, every predicate and every size of the
    two contexts, [extract_with_context] returns; the windows it returns
    are slices [lst[a:b]] of non-empty index ranges inside the list, a
    later window starts where an earlier one has ended or after it, every
    line that satisfies the predicate lies in exactly one of them, and
    every window holds a line that satisfies the predicate. *)
Theorem extract_with_context_windows (A : Type) (lst : list A)
    (pred : A -> bool) (before_context after_context : nat) :
  exists rs : list (nat * nat),
    Extractor.extract_with_context lst pred before_context after_context
    = Some (map (Extractor.window_of lst) rs)
    /\ (forall r, In r rs -> fst r < snd r <= List.length lst)
    /\ (forall j k rj rk, j < k ->
          nth_error rs j = Some rj -> nth_error rs k = Some rk ->
          snd rj <= fst rk)
    /\ (forall i x, nth_error lst i = Some x -> pred x = true ->
          exists k r, nth_error rs k = Some r /\ fst r <= i < snd r
            /\ forall k' r', nth_error rs k' = Some r' ->
                 fst r' <= i < snd r' -> k' = k)
    /\ (forall r, In r rs ->
          exists i x, fst r <= i < snd r
                      /\ nth_error lst i = Some x /\ pred x = true).
Proof.
  destruct (scan_spec lst pred before_context after_context
              (fuel := Extractor.fuel lst) (start := 0) (rs := []))
    as (rs & Hrun & Ho & Hb & Hcov & Hw).
  - unfold Extractor.fuel. lia.
  - lia.
  - exact I.
  - constructor.
  - intros i Hi. lia.
  - constructor.
  - exists rs. split; [exact Hrun|]. split; [|split; [|split]].
    + intros r Hin. split.
      * apply (ordered_from_lower _ _ _ Ho Hin).
      * rewrite Forall_forall in Hb. apply (Hb r Hin).
    + intros j k rj rk. apply ordered_from_pairwise with (lo := 0). exact Ho.
    + intros i x Hx Hp.
      destruct (Hcov i) as (r & Hin & Hr).
      { unfold Extractor.pred_at. rewrite Hx. exact Hp. }
      destruct (In_nth_error _ _ Hin) as (k & Hk).
      exists k, r. split; [assumption|]. split; [assumption|].
      intros k' r' Hk' Hr'.
      destruct (Nat.lt_trichotomy k' k) as [Hlt|[Heq|Hgt]]; [|assumption|].
      * pose proof (ordered_from_pairwise _ _ Ho Hlt Hk' Hk). lia.
      * pose proof (ordered_from_pairwise _ _ Ho Hgt Hk Hk'). lia.
    + intros r Hin. rewrite Forall_forall in Hw.
      destruct (Hw r Hin) as (i & Hi & HP).
      unfold Extractor.pred_at in HP.
      destruct (nth_error lst i) as [x|] eqn:E; [|discriminate].
      exists i, x. auto.
Qed.

(** C1.  Five lines of which only the one at index 2 satisfies the
    predicate, with one line of context on each side: the function returns
    the single window [lst[0:4]] with [usedfirst] set.  The first loop lets
    [length] reach [before_context + 1] before the matching line is looked
    at, so two lines of leading context are kept, not one. *)
Theorem extract_with_context_five_lines (A : Type) (l0 l1 l2 l3 l4 : A)
    (pred : A -> bool) :
  pred l0 = false -> pred l1 = false -> pred l2 = true ->
  pred l3 = false -> pred l4 = false ->
  Extractor.extract_with_context [l0; l1; l2; l3; l4] pred 1 1
  = Some [([l0; l1; l2; l3], true, false)].
Proof.
  intros H0 H1 H2 H3 H4.
  unfold Extractor.extract_with_context, Extractor.fuel, Extractor.len.
  repeat (progress
            (cbn;
             unfold Extractor.extend_to_match, Extractor.slide_to_match,
               Extractor.extend_repeatedly, Extractor.extend_step,
               Extractor.read_after, Extractor.read_before, Extractor.pred_at,
               Extractor.fuel, Extractor.len;
             cbn; rewrite ?H0, ?H1, ?H2, ?H3, ?H4)).
  reflexivity.
Qed.

Lemma extract_with_context_five_lines_witness :
  Extractor.extract_with_context [0; 1; 2; 3; 4] (fun x => x =? 2) 1 1
  = Some [([0; 1; 2; 3], true, false)].
Proof.
  apply (@extract_with_context_five_lines nat 0 1 2 3 4 (fun x => x =? 2));
    reflexivity.
Defined.

(** ** The matcher *)

Section MatcherProofs.

Import Re.

Lemma str_from_0 s : str_from s 0 = s.
Proof. destruct s; reflexivity. Qed.

Lemma str_from_add s a b : str_from (str_from s a) b = str_from s (a + b).
Proof.
  revert s. induction a as [|a IH]; intros s.
  - rewrite str_from_0. reflexivity.
  - destruct s as [|c s]; simpl.
    + destruct b; reflexivity.
    + apply IH.
Qed.

Lemma reached_refl pos rest : reached pos rest pos rest.
Proof. exists 0. rewrite str_from_0. split; [lia | reflexivity]. Qed.

Lemma reached_trans p1 r1 p2 r2 p3 r3 :
  reached p1 r1 p2 r2 -> reached p2 r2 p3 r3 -> reached p1 r1 p3 r3.
Proof.
  intros (d1 & -> & ->) (d2 & -> & ->). exists (d1 + d2).
  rewrite str_from_add. split; [lia | reflexivity].
Qed.

Lemma reached_step pos c rest : reached pos (String c rest) (S pos) rest.
Proof. exists 1. simpl. rewrite str_from_0. split; [lia | reflexivity]. Qed.

(** A successful run is a successful call of the continuation, further
    on in the text. *)
Lemma run_continues r :
  forall pos rest caps (k : cont) res,
    run r pos rest caps k = Some res ->
    exists pos' rest' caps',
      reached pos rest pos' rest' /\ k pos' rest' caps' = Some res.
Proof.
  induction r as [|p|r1 IH1 r2 IH2|r1 IH1 r2 IH2|r1 IH1|g r1 IH1|];
    intros pos rest caps k res H; simpl in H.
  - exists pos, rest, caps. split; [apply reached_refl | assumption].
  - destruct rest as [|c rest]; [discriminate|].
    destruct (p c); [|discriminate].
    exists (S pos), rest, caps. split; [apply reached_step | assumption].
  - apply IH1 in H. destruct H as (p1 & t1 & c1 & Hr1 & H).
    apply IH2 in H. destruct H as (p2 & t2 & c2 & Hr2 & H).
    exists p2, t2, c2. split; [eapply reached_trans; eauto | assumption].
  - destruct (run r1 pos rest caps k) eqn:E.
    + injection H as ->. apply IH1 in E. exact E.
    + apply IH2 in H. exact H.
  - remember (String.length rest) as n eqn:Hn in H. clear Hn.
    revert pos rest caps H.
    induction n as [|n IHn]; intros pos rest caps H.
    + exists pos, rest, caps. split; [apply reached_refl | assumption].
    + match type of H with
      | match ?x with _ => _ end = _ => destruct x eqn:E
      end.
      * injection H as ->. apply IH1 in E.
        destruct E as (p1 & t1 & c1 & Hr1 & E).
        destruct (pos <? p1); [|discriminate].
        apply IHn in E. destruct E as (p2 & t2 & c2 & Hr2 & E).
        exists p2, t2, c2.
        split; [eapply reached_trans; eauto | assumption].
      * exists pos, rest, caps. split; [apply reached_refl | assumption].
  - apply IH1 in H. destruct H as (p1 & t1 & c1 & Hr1 & H).
    exists p1, t1, ((g, (pos, p1)) :: c1). split; assumption.
  - destruct (at_end rest); [|discriminate].
    exists pos, rest, caps. split; [apply reached_refl | assumption].
Qed.

Lemma run_seq_continues r1 r2 pos rest caps (k : cont) res :
  run (Seq r1 r2) pos rest caps k = Some res ->
  exists pos' rest' caps',
    reached pos rest pos' rest' /\ run r2 pos' rest' caps' k = Some res.
Proof. simpl. intros H. apply run_continues in H. exact H. Qed.

(** A pattern that ends in [$] hands over only at the end of the text. *)
Lemma run_seq_eos r pos rest caps (k : cont) res :
  run (Seq r Eos) pos rest caps k = Some res ->
  exists pos' rest' caps',
    reached pos rest pos' rest' /\ at_end rest' = true
    /\ k pos' rest' caps' = Some res.
Proof.
  simpl. intros H. apply run_continues in H.
  destruct H as (p1 & t1 & c1 & Hr1 & H). simpl in H.
  destruct (at_end t1) eqn:E; [|discriminate].
  exists p1, t1, c1. auto.
Qed.

End MatcherProofs.

(** ** The link grammar and the plain-text splitter *)

(** The assertions that follow [URLRE] in the source (those on ASCII
    text) hold of the pattern as embedded. *)
Lemma URLRE_assertions :
  let URLRE := Grammar.URLRE Grammar.sample_tlds in
  let matches s :=
    match Re.match_ URLRE s with Some _ => true | None => false end in
  forallb matches
    ["<URL:http://linuxtoday.com>"; "http://linuxtoday.com"; "example.biz";
     "linuxtoday.com"; "master.wizard.edu"; "blah.bar.info"; "goodpr.org";
     "http://www.testurl.zw"; "http://www.testurl.smile";
     "testurl.smile.smile"; "testurl.biz.smile.zw"] = true
  /\ existsb matches
       ["blah..org"; "example..biz"; "blah.baz.obviouslynotarealdomain"]
     = false.
Proof. vm_compute. split; reflexivity. Qed.

(** C4, as the code has it.  The alternative for bare domains ends in [$]:
    whenever [GUESSEDURLPATTERN] matches from [pos], the match ends where
    the text ends, or just before a newline that ends the text. *)
Theorem guessed_domain_ends_text (TLDS : list string) (pos : nat)
    (rest : string) (e : nat) (caps : Re.captures) :
  Re.match_at (Grammar.GUESSEDURLPATTERN TLDS) pos rest = Some (e, caps) ->
  pos <= e /\ Re.at_end (str_from rest (e - pos)) = true.
Proof.
  unfold Re.match_at, Grammar.GUESSEDURLPATTERN. intros H.
  apply run_seq_continues in H. destruct H as (p1 & t1 & c1 & R1 & H).
  apply run_seq_continues in H. destruct H as (p2 & t2 & c2 & R2 & H).
  apply run_seq_continues in H. destruct H as (p3 & t3 & c3 & R3 & H).
  apply run_seq_eos in H. destruct H as (p4 & t4 & c4 & R4 & E & H).
  injection H as <- <-.
  pose proof (reached_trans R1 (reached_trans R2 (reached_trans R3 R4)))
    as (d & -> & ->).
  split; [lia|]. replace (pos + d - pos) with d by lia. exact E.
Qed.

Lemma guessed_domain_ends_text_witness :
  Re.match_at (Grammar.GUESSEDURLPATTERN Grammar.sample_tlds) 8
    "linuxtoday.com" = Some (22, [])
  /\ 8 <= 22 /\ Re.at_end (str_from "linuxtoday.com" (22 - 8)) = true.
Proof.
  split; [vm_compute; reflexivity|].
  apply (@guessed_domain_ends_text Grammar.sample_tlds 8 "linuxtoday.com" 22
           []).
  vm_compute. reflexivity.
Defined.

(** C4, as claimed, fails: in "linuxtoday.com is down" the domain is
    followed by further text, and the whole line comes back as one plain
    chunk, without a link chunk. *)
Lemma bare_domain_followed_by_text :
  fst (Text.parse_text_urls (Grammar.URLRE Grammar.sample_tlds)
         "linuxtoday.com is down" None)
  = Ok [Chunk (Literal "linuxtoday.com is down") None].
Proof. vm_compute. reflexivity. Qed.

(** The same domain at the end of the line is a link. *)
Lemma bare_domain_at_end_of_line :
  fst (Text.parse_text_urls (Grammar.URLRE Grammar.sample_tlds)
         "is down linuxtoday.com" None)
  = Ok [Chunk (Literal "is down ") None;
        Chunk NoMarkup (Some "linuxtoday.com")].
Proof. vm_compute. reflexivity. Qed.

(** The two inputs of the specification's email examples. *)
Lemma parse_text_urls_email_examples (TLDS : list string) :
  fst (Text.parse_text_urls (Grammar.URLRE TLDS) "foo@bar.com" None)
  = Ok [Chunk NoMarkup (Some "mailto:foo@bar.com")]
  /\ fst (Text.parse_text_urls (Grammar.URLRE TLDS) "mailto:foo@bar.com" None)
     = Ok [Chunk NoMarkup (Some "mailto:foo@bar.com")].
Proof. split; vm_compute; reflexivity. Qed.

(** What the loop body does with a match of the default pattern: the test
    is whether the text "mailto" occurs anywhere in the email group. *)
Lemma on_match_email (mesg : string) (m : Re.match_obj) (c : ascii)
    (e : string) (g1 : option string) :
  Re.group_named m "email" = Ok (Some (String c e)) ->
  Re.group m 1 = Ok g1 ->
  Text.on_match mesg false m ([], Re.m_start m)
  = Ok ([Chunk NoMarkup
           (if contains "mailto" (String c e) then g1
            else Some ("mailto:" ++ String c e)%string)],
        Re.m_end m).
Proof.
  intros He Hg. unfold Text.on_match. rewrite Nat.ltb_irrefl, He.
  cbn [bind]. destruct (contains "mailto" (String c e)); cbn [negb bind].
  - rewrite Hg. reflexivity.
  - reflexivity.
Qed.

(** C5.  The address "mailto@bar.com" is matched by the email alternative
    and has no "mailto:" prefix, yet it is returned as it stands: the text
    "mailto" occurs in it. *)
Theorem parse_text_urls_mailto_in_address (TLDS : list string) :
  fst (Text.parse_text_urls (Grammar.URLRE TLDS) "mailto@bar.com" None)
  = Ok [Chunk NoMarkup (Some "mailto@bar.com")]
  /\ map (fun m => Re.group_named m "email")
         (Re.finditer (Grammar.URLRE TLDS) "mailto@bar.com")
     = [Ok (Some "mailto@bar.com")]
  /\ String.prefix "mailto:" "mailto@bar.com" = false.
Proof. repeat split; vm_compute; reflexivity. Qed.

(** C7, as claimed, fails on the empty line: the pattern finds nothing in
    it and no chunk is returned. *)
Lemma parse_text_urls_empty_line :
  Re.finditer (Grammar.URLRE Grammar.sample_tlds) EmptyString = []
  /\ fst (Text.parse_text_urls (Grammar.URLRE Grammar.sample_tlds)
            EmptyString None) = Ok [].
Proof. split; vm_compute; reflexivity. Qed.

(** C7, as the code has it.  A line in which the default pattern finds no
    match comes back as exactly one chunk, with the line as its text and no
    [url], when the line is not empty, and as no chunk at all when it is
    empty. *)
Theorem parse_text_urls_no_match (TLDS : list string) (mesg : string) :
  Re.finditer (Grammar.URLRE TLDS) mesg = [] ->
  fst (Text.parse_text_urls (Grammar.URLRE TLDS) mesg None)
  = Ok match mesg with
       | EmptyString => []
       | _ => [Chunk (Literal mesg) None]
       end.
Proof.
  intros Hnone. unfold Text.parse_text_urls. rewrite Hnone. simpl.
  destruct mesg as [|c mesg]; reflexivity.
Qed.

Lemma parse_text_urls_no_match_witness :
  fst (Text.parse_text_urls (Grammar.URLRE Grammar.sample_tlds)
         "no links here" None)
  = Ok [Chunk (Literal "no links here") None].
Proof.
  apply (@parse_text_urls_no_match Grammar.sample_tlds "no links here").
  vm_compute. reflexivity.
Defined.


(** C3.  A call with a custom pattern leaves that pattern in [URLRE].  A
    later call without [regex] then runs it in place of the default
    pattern: the address below is no longer found, and where the custom
    pattern does match, the lookup of the group "email" raises. *)
Theorem parse_text_urls_keeps_custom_pattern :
  let URLRE := Grammar.URLRE Grammar.sample_tlds in
  let custom := Re.Pattern (Re.Lit "x") 0 [] in
  let URLRE' := snd (Text.parse_text_urls URLRE "x" (Some custom)) in
  URLRE' = custom
  /\ fst (Text.parse_text_urls URLRE "foo@bar.com" None)
     = Ok [Chunk NoMarkup (Some "mailto:foo@bar.com")]
  /\ fst (Text.parse_text_urls URLRE' "foo@bar.com" None)
     = Ok [Chunk (Literal "foo@bar.com") None]
  /\ fst (Text.parse_text_urls URLRE' "fax@bar.com" None)
     = Raise IndexError.
Proof. repeat split; vm_compute; reflexivity. Qed.

(** ** The HTML chunker *)

Create HintDb chunker.

Section ChunkerProofs.

Import HTML.

Lemma last_item_app (X : Type) (l : list X) (x : X) :
  last_item (l ++ [x]) = Ok x.
Proof. unfold last_item. rewrite rev_unit. reflexivity. Qed.

Lemma last_item_ok (X : Type) (l : list X) :
  l <> [] -> exists l' x, l = l' ++ [x] /\ last_item l = Ok x.
Proof.
  intros Hne. destruct (exists_last Hne) as (l' & x & ->).
  exists l', x. split; [reflexivity | apply last_item_app].
Qed.

Lemma app_unit_not_nil (X : Type) (l : list X) (x : X) : l ++ [x] <> [].
Proof. destruct l; discriminate. Qed.

Lemma removelast_not_nil (X : Type) (l : list X) :
  1 < List.length l -> removelast l <> [].
Proof.
  destruct l as [|x [|y l]]; simpl; intros H; try lia. discriminate.
Qed.

Lemma length_not_nil (X : Type) (l : list X) :
  l <> [] <-> 1 <= List.length l.
Proof.
  destruct l; simpl; split; intros H; try lia; try congruence.
Qed.

#[local] Hint Resolve app_unit_not_nil removelast_not_nil : chunker.

(** [add_chunk] puts the chunk at the end of the last paragraph and
    leaves the stacks alone. *)
Lemma add_chunk_ok st c :
  well_formed st ->
  exists paras para,
    add_chunk st c
    = Ok (Build (paras ++ [para ++ [c]]) false false (style_stack st)
            (anchor_stack st) (list_stack st) (in_style_or_script st)).
Proof.
  destruct st as [rv aps ts ss acs ls iss].
  unfold well_formed, add_chunk, append_to_last, cur_url. cbn.
  intros (Ha & Hs & Hr). destruct aps; cbn.
  - rewrite last_item_app. cbn. rewrite removelast_last.
    exists rv, []. reflexivity.
  - destruct (last_item_ok (Hr eq_refl)) as (rv' & para & -> & Hl).
    destruct ts; cbn.
    + destruct (last_item_ok Ha) as (acs' & u & -> & Hu).
      rewrite Hu. cbn. rewrite Hl. cbn. rewrite removelast_last.
      rewrite last_item_app. cbn. rewrite removelast_last.
      exists rv', (para ++ [Chunk (Literal " ") u]).
      rewrite <- app_assoc. reflexivity.
    + rewrite Hl. cbn. rewrite removelast_last.
      exists rv', para. reflexivity.
Qed.

Lemma add_chunk_spec st c :
  well_formed st ->
  exists st', add_chunk st c = Ok st' /\ well_formed st'
              /\ same_stacks st st' /\ last_chunk st' = Some c.
Proof.
  intros Hwf. destruct (add_chunk_ok c Hwf) as (paras & para & ->).
  destruct Hwf as (Ha & Hs & Hr).
  eexists. split; [reflexivity|]. unfold well_formed, same_stacks. simpl.
  repeat split; auto with chunker.
  unfold last_chunk. simpl. rewrite !rev_unit. reflexivity.
Qed.

Lemma end_para_spec st :
  well_formed st ->
  exists st', end_para st = Ok st' /\ well_formed st' /\ same_stacks st st'.
Proof.
  intros (Ha & Hs & Hr). unfold end_para.
  set (st1 := set_trailing_space
                (if at_para_start st then set_rval st (rval st ++ [[]])
                 else set_at_para_start st true) false).
  assert (Hwf1 : well_formed st1 /\ same_stacks st st1).
  { unfold well_formed, same_stacks, st1.
    destruct (at_para_start st); simpl; repeat split; auto with chunker;
      discriminate. }
  destruct Hwf1 as (Hwf1 & Hsame).
  destruct (list_stack st1) eqn:Hls.
  - exists st1. auto.
  - destruct (last_item_ok (proj1 Hwf1)) as (acs' & u & Hacs & Hu).
    unfold cur_url. rewrite Hu. simpl.
    destruct (add_chunk_spec
                (Chunk (Literal (spaces (3 * List.length (p :: l)))) u)
                Hwf1) as (st' & Hadd & Hwf' & Hsame' & _).
    exists st'. split; [exact Hadd|]. split; [exact Hwf'|].
    unfold same_stacks in *. intuition congruence.
Qed.

Lemma end_list_para_spec st :
  well_formed st ->
  exists st', end_list_para st = Ok st' /\ well_formed st'
              /\ same_stacks st st'.
Proof.
  intros Hwf. unfold end_list_para.
  set (st1 := if at_para_start st then set_rval st (rval st ++ [[]])
              else st).
  assert (Hwf1 : well_formed st1 /\ same_stacks st st1).
  { destruct Hwf as (Ha & Hs & Hr). unfold well_formed, same_stacks, st1.
    destruct (at_para_start st); simpl; repeat split; auto with chunker. }
  destruct Hwf1 as (Hwf1 & Hsame).
  destruct (list_stack st1) eqn:Hls.
  - destruct (end_para_spec Hwf1) as (st' & He & Hwf' & Hsame').
    exists st'. split; [exact He|]. split; [exact Hwf'|].
    unfold same_stacks in *. intuition congruence.
  - assert (Hne : p :: l <> []) by discriminate.
    destruct (last_item_ok Hne) as (ls' & [tag counter] & Hlseq & Hlast).
    rewrite Hlast. cbn [bind].
    destruct (last_item_ok (proj1 Hwf1)) as (acs' & u & Hacs & Hu).
    destruct (String.eqb tag "ul").
    + destruct (nth_error ul_tags _) as [glyph|] eqn:Hg.
      * cbn [bind]. unfold cur_url. rewrite Hu. cbn [bind].
        destruct (add_chunk_spec (Chunk (Literal (glyph ++ "  ")%string) u)
                    Hwf1) as (st' & Hadd & Hwf' & Hsame' & _).
        exists st'. split; [exact Hadd|]. split; [exact Hwf'|].
        unfold same_stacks in *. intuition congruence.
      * apply nth_error_None in Hg.
        change (List.length ul_tags) with 3 in Hg.
        pose proof (Nat.mod_upper_bound
                      (List.length
                         (filter (fun t => String.eqb (fst t) tag) (p :: l)))
                      3 ltac:(lia)).
        lia.
    + set (st2 := set_list_stack st1
                    (removelast (p :: l) ++ [(tag, counter + 1)])).
      assert (Hwf2 : well_formed st2 /\ same_stacks st1 st2).
      { destruct Hwf1 as (Ha & Hs & Hr).
        unfold well_formed, same_stacks, st2. simpl. auto. }
      destruct Hwf2 as (Hwf2 & Hsame2).
      unfold cur_url. replace (anchor_stack st2) with (anchor_stack st1)
        by reflexivity.
      rewrite Hu. cbn [bind].
      destruct (add_chunk_spec
                  (Chunk (Literal (decimal2 counter ++ ".")%string) u) Hwf2)
        as (st' & Hadd & Hwf' & Hsame' & _).
      exists st'. split; [exact Hadd|]. split; [exact Hwf'|].
      unfold same_stacks in *. intuition congruence.
Qed.

Lemma same_stacks_trans st1 st2 st3 :
  same_stacks st1 st2 -> same_stacks st2 st3 -> same_stacks st1 st3.
Proof. unfold same_stacks. intuition congruence. Qed.

(** Outside [style] and [script], [handle_data] adds one chunk: the
    text with its whitespace collapsed, under the current link target. *)
Lemma handle_data_spec st data :
  well_formed st -> in_style_or_script st = false ->
  exists st' style u,
    handle_data st data = Ok st' /\ well_formed st' /\ same_stacks st st'
    /\ cur_url st = Ok u
    /\ last_chunk st' = Some (Chunk (Styled style (join " " (split data))) u).
Proof.
  intros Hwf Hin. unfold handle_data. rewrite Hin.
  set (st1 := match data with
              | String c _ =>
                  if isspace c then set_trailing_space st true else st
              | EmptyString => st
              end).
  assert (H1 : well_formed st1 /\ same_stacks st st1).
  { unfold st1. destruct data as [|c data]; [|destruct (isspace c)];
      unfold well_formed, same_stacks in *; simpl; tauto. }
  destruct H1 as (Hwf1 & (Ha1 & Hs1 & Hi1)).
  destruct (last_item_ok (proj1 Hwf1)) as (acs' & u & Hacs & Hu).
  destruct (last_item_ok (proj1 (proj2 Hwf1))) as (ss' & styles & Hss & Hst).
  rewrite Hu, Hst. cbn [bind]. unfold cur_url at 1. rewrite Hu. cbn [bind].
  match goal with
  | |- context [add_chunk st1 ?c] =>
      destruct (add_chunk_spec c Hwf1) as (st' & -> & Hwf' & Hsame' & Hlast)
  end.
  cbn [bind]. eexists. eexists. exists u. split; [reflexivity|].
  split; [|split; [|split]].
  - unfold well_formed in *. simpl. exact Hwf'.
  - apply same_stacks_trans with st1; [unfold same_stacks; auto|].
    unfold same_stacks in *. simpl. exact Hsame'.
  - unfold cur_url. rewrite <- Ha1. exact Hu.
  - unfold last_chunk in *. simpl. exact Hlast.
Qed.

Lemma handle_data_wf st data :
  well_formed st ->
  exists st', handle_data st data = Ok st' /\ well_formed st'
              /\ same_stacks st st'.
Proof.
  intros Hwf. destruct (in_style_or_script st) eqn:Hin.
  - exists st. unfold handle_data. rewrite Hin.
    unfold same_stacks. auto.
  - destruct (handle_data_spec data Hwf Hin)
      as (st' & style & u & H & Hwf' & Hsame & _).
    exists st'. auto.
Qed.

Lemma handle_starttag_wf st tag attrs :
  well_formed st ->
  exists st', handle_starttag st tag attrs = Ok st' /\ well_formed st'.
Proof.
  intros Hwf. pose proof Hwf as (Ha & Hs & Hr). unfold handle_starttag.
  destruct (last_item_ok Hs) as (ss' & top & Hss & Htop).
  destruct (String.eqb tag "a").
  { eexists. split; [reflexivity|].
    unfold well_formed. simpl. auto with chunker. }
  destruct (tag_in tag ["ul"; "ol"]).
  { match goal with
    | |- context [end_para ?s] =>
        destruct (@end_para_spec s) as (st' & H & Hwf' & _);
          [unfold well_formed; simpl; auto | exists st'; auto]
    end. }
  destruct (lookup tag tag_styles).
  { rewrite Htop. cbn [bind]. eexists. split; [reflexivity|].
    unfold well_formed. simpl. auto with chunker. }
  destruct (isheadertag tag).
  { rewrite Htop. cbn [bind]. eexists. split; [reflexivity|].
    unfold well_formed. simpl. auto with chunker. }
  destruct (tag_in tag ["p"; "br"]).
  { destruct (end_para_spec Hwf) as (st' & H & Hwf' & _). exists st'. auto. }
  destruct (String.eqb tag "img").
  { match goal with
    | |- context [match ?x with Some _ => _ | None => handle_data st _ end] =>
        destruct x as [src|]
    end.
    - match goal with
      | |- context [handle_data ?s ?alt] =>
          destruct (@handle_data_wf s alt) as (st' & -> & Hwf' & Hsame);
            [unfold well_formed; simpl; auto with chunker|]
      end.
      cbn [bind]. eexists. split; [reflexivity|].
      destruct Hwf' as (Ha' & Hs' & Hr'). destruct Hsame as (E1 & E2 & E3).
      simpl in E1. unfold well_formed. simpl. rewrite E1, removelast_last.
      auto.
    - match goal with
      | |- context [handle_data st ?alt] =>
          destruct (handle_data_wf alt Hwf) as (st' & H & Hwf' & _)
      end.
      exists st'. auto. }
  destruct (String.eqb tag "li").
  { destruct (end_list_para_spec Hwf) as (st' & H & Hwf' & _).
    exists st'. auto. }
  destruct (tag_in tag ["style"; "script"]).
  { eexists. split; [reflexivity|]. unfold well_formed. simpl. auto. }
  exists st. auto.
Qed.

(** No end tag makes [handle_endtag] raise, and both stacks keep their
    base entry. *)
Lemma handle_endtag_wf st tag :
  well_formed st ->
  exists st', handle_endtag st tag = Ok st' /\ well_formed st'.
Proof.
  intros Hwf. pose proof Hwf as (Ha & Hs & Hr). unfold handle_endtag.
  destruct (String.eqb tag "a").
  { eexists. split; [reflexivity|].
    destruct (1 <? List.length (anchor_stack st)) eqn:E; [|assumption].
    apply Nat.ltb_lt in E. unfold well_formed. simpl. auto with chunker. }
  destruct (lookup tag tag_styles).
  { eexists. split; [reflexivity|].
    destruct (1 <? List.length (style_stack st)) eqn:E; [|assumption].
    apply Nat.ltb_lt in E. unfold well_formed. simpl. auto with chunker. }
  destruct (tag_in tag ["ul"; "ol"]).
  { match goal with
    | |- context [end_para ?s] =>
        destruct (@end_para_spec s) as (st' & H & Hwf' & _);
          [|exists st'; auto]
    end.
    destruct (0 <? List.length (list_stack st)); [|assumption].
    unfold well_formed. simpl. auto. }
  destruct (isheadertag tag).
  { match goal with
    | |- context [end_para ?s] =>
        destruct (@end_para_spec s) as (st' & H & Hwf' & _);
          [|exists st'; auto]
    end.
    destruct (1 <? List.length (style_stack st)) eqn:E; [|assumption].
    apply Nat.ltb_lt in E. unfold well_formed. simpl. auto with chunker. }
  destruct (tag_in tag ["style"; "script"]).
  { eexists. split; [reflexivity|]. unfold well_formed. simpl. auto. }
  exists st. auto.
Qed.

Lemma handle_wf st ev st' :
  well_formed st -> handle st ev = Ok st' -> well_formed st'.
Proof.
  intros Hwf H. destruct ev as [tag attrs|tag attrs|tag|data|name|name|e];
    simpl in H; [| | | | | |discriminate].
  - destruct (handle_starttag_wf tag attrs Hwf) as (st1 & E & Hwf1).
    congruence.
  - unfold handle_startendtag in H.
    destruct (tag_in tag _); [|congruence].
    destruct (handle_starttag_wf tag attrs Hwf) as (st1 & E & Hwf1).
    congruence.
  - destruct (handle_endtag_wf tag Hwf) as (st1 & E & Hwf1). congruence.
  - destruct (handle_data_wf data Hwf) as (st1 & E & Hwf1 & _). congruence.
  - unfold handle_charref in H.
    match type of H with
    | bind ?c _ = _ => destruct c as [char|]; [|discriminate]
    end.
    cbn [bind] in H.
    match type of H with
    | bind ?c _ = _ => destruct c as [text|]; [|discriminate]
    end.
    cbn [bind] in H.
    destruct (handle_data_wf text Hwf) as (st1 & E & Hwf1 & _). congruence.
  - unfold handle_entityref in H.
    destruct (lookup name entities) as [text|].
    + destruct (handle_data_wf text Hwf) as (st1 & E & Hwf1 & _).
      congruence.
    + match type of H with
      | handle_data st ?text = _ =>
          destruct (handle_data_wf text Hwf) as (st1 & E & Hwf1 & _)
      end.
      congruence.
Qed.

Lemma init_wf : well_formed init.
Proof. unfold well_formed, init. simpl. repeat split; discriminate. Qed.

(** Whatever was fed to a chunker without an exception, the state is
    well formed. *)
Lemma feed_wf evs :
  forall st st', well_formed st -> feed st evs = Ok st' -> well_formed st'.
Proof.
  induction evs as [|ev evs IH]; intros st st' Hwf H; simpl in H.
  - congruence.
  - destruct (handle st ev) as [st1|] eqn:E; [|discriminate].
    cbn [bind] in H. apply (IH st1 st'); [|assumption].
    apply (handle_wf _ Hwf E).
Qed.







End ChunkerProofs.


(** The innermost open [a] decides: without an [href] of its own it
    gives no link, also inside an [a] element that has one. *)
Lemma img_inside_nested_anchor :
  HTML.feed HTML.init
    [HTML.StartTag "a" [("href", Some "http://example.com/")];
     HTML.StartTag "a" [("name", Some "y")];
     HTML.StartTag "img" [("src", Some "logo.png")]]
  = Ok (HTML.Build [[Chunk (Styled "msgtext" "[IMG]") None]] false false
          [[]] [None; Some "http://example.com/"; None] [] false).
Proof. vm_compute. reflexivity. Qed.



(** C9.  A fresh chunker fed the events of [<ol><li>x</li></ol>] ends
    with an empty first paragraph. *)
Theorem ordered_list_leaves_empty_paragraph :
  exists st,
    HTML.feed HTML.init
      [HTML.StartTag "ol" []; HTML.StartTag "li" []; HTML.Data "x";
       HTML.EndTag "li"; HTML.EndTag "ol"] = Ok st
    /\ HTML.rval st
       = [[]; [Chunk (Literal "   ") None; Chunk (Literal " 1.") None;
               Chunk (Styled "msgtext" "x") None]]
    /\ In [] (HTML.rval st).
Proof.
  eexists. split; [vm_compute; reflexivity|].
  split; [reflexivity | left; reflexivity].
Qed.

(** The step behind it: [end_para] at a paragraph start inside a list
    appends an empty paragraph, and [add_chunk] then starts another one for
    the indentation. *)
Lemma end_para_in_list_at_para_start (st : HTML.HTMLChunker)
    (u : option string) :
  HTML.at_para_start st = true -> HTML.list_stack st <> [] ->
  HTML.cur_url st = Ok u ->
  exists st',
    HTML.end_para st = Ok st'
    /\ HTML.rval st'
       = HTML.rval st
         ++ [[]; [Chunk (Literal (spaces (3 * List.length (HTML.list_stack st))))
                    u]].
Proof.
  destruct st as [rv aps ts ss acs ls iss]. simpl. intros -> Hls Hu.
  unfold HTML.end_para, HTML.cur_url in *. simpl in *.
  destruct ls as [|t ls]; [contradiction|].
  rewrite Hu. cbn [bind]. unfold HTML.add_chunk, HTML.append_to_last. cbn.
  rewrite last_item_app. cbn. rewrite removelast_last.
  eexists. split; [reflexivity|]. simpl. rewrite <- app_assoc. reflexivity.
Qed.

Lemma rstrip_keeps_head (c : ascii) (s : string) :
  int_space c = false -> exists t, rstrip (String c s) = String c t.
Proof.
  intros Hc. simpl. rewrite Hc. destruct (rstrip s); eexists; reflexivity.
Qed.

(** C10, as claimed, fails: the tokenizer does not hand the name on.
    With [convert_charrefs] on, the message [&#X41;] reaches the chunker
    as the text [A] in a call of [handle_data], which adds a chunk and
    does not raise. *)
Lemma uppercase_hex_markup_is_text :
  Parser.calls "&#X41;" = Some [HTML.Data "A"]
  /\ HTML.feed HTML.init [HTML.Data "A"]
     = Ok (HTML.Build [[Chunk (Styled "msgtext" "A") None]] false false
             [[]] [None] [] false).
Proof. split; vm_compute; reflexivity. Qed.

(** C10, as the code has it.  Called with a reference name that has an
    upper-case [X] in front, [handle_charref] does not take the name to
    be hexadecimal: it goes to [int(name)], which raises, whereas the
    lower-case form gives the character.  The tokenizer makes no such
    call: for a message of text and numeric references its only call is
    [handle_data]. *)
Theorem handle_charref_uppercase_hex (st : HTML.HTMLChunker) (name : string) :
  HTML.handle_charref st (String "X" name) = Raise ValueError
  /\ HTML.handle_charref st "X41" = Raise ValueError
  /\ HTML.handle_charref st "x41" = HTML.handle_data st "A"
  /\ forall mesg evs ev,
       Parser.calls mesg = Some evs -> In ev evs ->
       exists text, ev = HTML.Data text.
Proof.
  split; [|split; [reflexivity|split; [reflexivity|]]].
  - unfold HTML.handle_charref. cbn [Ascii.eqb Bool.eqb].
    replace (int (String "X" name) 10) with (@Raise Z ValueError);
      [reflexivity|].
    unfold int. cbn [lstrip].
    change (int_space "X") with false. cbv iota.
    destruct (@rstrip_keeps_head "X" name eq_refl) as (t & ->).
    reflexivity.
  - intros mesg evs ev H Hin. unfold Parser.calls in H.
    destruct mesg as [|c mesg].
    + injection H as <-. destruct Hin.
    + destruct (Parser.unescape Parser.Plain (String c mesg)) as [text|];
        [|discriminate].
      injection H as <-. destruct Hin as [<-|[]]. eauto.
Qed.

(** C8, as claimed, fails for header tags: with the style stack at its
    base, [</h1>] pops nothing, but it still ends the paragraph, here by
    appending an empty one. *)
Lemma header_endtag_at_base_changes_state :
  List.length (HTML.style_stack HTML.init) = 1
  /\ HTML.handle_endtag HTML.init "h1"
     = Ok (HTML.set_rval HTML.init [[]])
  /\ HTML.handle_endtag HTML.init "h1" <> Ok HTML.init.
Proof. repeat split; try reflexivity. discriminate. Qed.

Lemma header_tag_shape (tag : string) :
  HTML.isheadertag tag = true ->
  exists c, tag = String "h" (String c EmptyString).
Proof.
  destruct tag as [|c0 [|c1 [|c2 tag]]]; simpl; try discriminate.
  intros H. apply andb_prop in H. destruct H as [H _].
  apply Ascii.eqb_eq in H. subst c0. exists c1. reflexivity.
Qed.

(** C8, as the code has it.  After any events that the chunker handled,
    each of the two stacks holds at least its base entry, and an end tag
    does not raise and keeps that.  With the anchor stack at its base
    [</a>] changes nothing; with the style stack at its base [</b>] and
    [</i>] change nothing, and the end tag of a header leaves both stacks
    as they are (it still ends the paragraph). *)
Theorem chunker_stacks_keep_base (evs : list HTML.event)
    (st : HTML.HTMLChunker) (tag : string) :
  HTML.feed HTML.init evs = Ok st ->
  1 <= List.length (HTML.anchor_stack st)
  /\ 1 <= List.length (HTML.style_stack st)
  /\ (exists st', HTML.handle_endtag st tag = Ok st'
                  /\ 1 <= List.length (HTML.anchor_stack st')
                  /\ 1 <= List.length (HTML.style_stack st'))
  /\ (tag = "a" -> List.length (HTML.anchor_stack st) = 1 ->
      HTML.handle_endtag st tag = Ok st)
  /\ (tag = "b" \/ tag = "i" -> List.length (HTML.style_stack st) = 1 ->
      HTML.handle_endtag st tag = Ok st)
  /\ (HTML.isheadertag tag = true ->
      List.length (HTML.style_stack st) = 1 ->
      exists st', HTML.handle_endtag st tag = Ok st'
                  /\ HTML.style_stack st' = HTML.style_stack st
                  /\ HTML.anchor_stack st' = HTML.anchor_stack st).
Proof.
  intros Hfeed. pose proof (feed_wf evs init_wf Hfeed) as Hwf.
  pose proof Hwf as (Ha & Hs & _).
  split; [apply length_not_nil; assumption|].
  split; [apply length_not_nil; assumption|].
  split; [|split; [|split]].
  - destruct (handle_endtag_wf tag Hwf) as (st' & H & (Ha' & Hs' & _)).
    exists st'. split; [assumption|].
    split; apply length_not_nil; assumption.
  - intros -> Hlen. unfold HTML.handle_endtag. simpl. rewrite Hlen.
    reflexivity.
  - intros [-> | ->] Hlen; unfold HTML.handle_endtag; simpl; rewrite Hlen;
      reflexivity.
  - intros Hh Hlen. destruct (header_tag_shape tag Hh) as (c & ->).
    unfold HTML.handle_endtag. rewrite Hh, Hlen.
    cbn [String.eqb Ascii.eqb Bool.eqb HTML.lookup HTML.tag_styles
         HTML.tag_in existsb orb Nat.ltb Nat.leb].
    destruct (end_para_spec Hwf) as (st' & H & _ & (E1 & E2 & _)).
    exists st'. auto.
Qed.

Lemma chunker_stacks_keep_base_witness :
  1 <= List.length (HTML.anchor_stack HTML.init)
  /\ 1 <= List.length (HTML.style_stack HTML.init)
  /\ (exists st', HTML.handle_endtag HTML.init "h1" = Ok st'
                  /\ 1 <= List.length (HTML.anchor_stack st')
                  /\ 1 <= List.length (HTML.style_stack st'))
  /\ ("h1" = "a" -> List.length (HTML.anchor_stack HTML.init) = 1 ->
      HTML.handle_endtag HTML.init "h1" = Ok HTML.init)
  /\ ("h1" = "b" \/ "h1" = "i" ->
      List.length (HTML.style_stack HTML.init) = 1 ->
      HTML.handle_endtag HTML.init "h1" = Ok HTML.init)
  /\ (HTML.isheadertag "h1" = true ->
      List.length (HTML.style_stack HTML.init) = 1 ->
      exists st', HTML.handle_endtag HTML.init "h1" = Ok st'
                  /\ HTML.style_stack st' = HTML.style_stack HTML.init
                  /\ HTML.anchor_stack st' = HTML.anchor_stack HTML.init).
Proof.
  apply (@chunker_stacks_keep_base [HTML.EndTag "a"; HTML.EndTag "b"]).
  reflexivity.
Defined.

(** * Further properties *)

(** ** The shape of the windows of [extract_with_context] *)

Lemma while_loop_done (S : Type) (fuel : nat) (cond : S -> bool)
    (body : S -> option S) (s : S) :
  cond s = false -> while_loop (Datatypes.S fuel) cond body s = Some s.
Proof. intros H. simpl. rewrite H. reflexivity. Qed.

Section ShapeProofs.

Import Extractor.

Variable A : Type.
Variable lst : list A.
Variable pred : A -> bool.
Variables before_context after_context : nat.

Local Abbreviation n := (len lst).
Local Abbreviation P := (pred_at lst pred).
Local Abbreviation quiet := (Extractor.quiet lst pred).
Local Abbreviation W := (Shape.merge_gap before_context after_context).

Ltac flags :=
  repeat match goal with
         | H : (_ && _)%bool = true |- _ => apply andb_prop in H; destruct H
         | H : (_ && _)%bool = false |- _ =>
             apply andb_false_iff in H; destruct H
         | H : negb _ = true |- _ => apply negb_true_iff in H
         | H : negb _ = false |- _ => apply negb_false_iff in H
         | H : (_ <? _) = true |- _ => apply Nat.ltb_lt in H
         | H : (_ <=? _) = true |- _ => apply Nat.leb_le in H
         | H : (_ =? _) = true |- _ => apply Nat.eqb_eq in H
         | H : (_ <? _) = false |- _ => apply Nat.ltb_ge in H
         | H : (_ =? _) = false |- _ => apply Nat.eqb_neq in H
         end.

Lemma pred_at_lt i : P i = true -> i < n.
Proof.
  unfold pred_at, len. intros H.
  destruct (nth_error lst i) eqn:E; [|discriminate].
  apply nth_error_Some. rewrite E. discriminate.
Qed.

Lemma pred_at_beyond i : n <= i -> P i = false.
Proof.
  intros H. destruct (P i) eqn:E; [|reflexivity].
  apply pred_at_lt in E. lia.
Qed.

Lemma quiet_step a b : quiet a b -> P b = false -> quiet a (b + 1).
Proof.
  intros Hq Hb i Hi. destruct (Nat.eq_dec i b) as [->|]; [assumption|].
  apply Hq. lia.
Qed.

Lemma extend_to_match_shape start :
  start <= n ->
  exists l, extend_to_match lst pred before_context start 0 = Some l
            /\ start + l <= n /\ quiet start (start + l)
            /\ l <= before_context + 1
            /\ (start + l = n \/ l = before_context + 1
                \/ P (start + l) = true).
Proof.
  intros Hs. unfold extend_to_match.
  destruct (while_loop_rule
              (fun l => start + l <= n /\ quiet start (start + l)
                        /\ l <= before_context + 1)
              (fun l => n - (start + l))
              (fun l => (start + l <? n) && (l <? before_context + 1)
                        && negb (P (start + l)))
              (fun l => Some (l + 1))) with (fuel := fuel lst) (s := 0)
    as (l & Hrun & (Hle & Hq & Hb) & Hc).
  - intros l (Hle & Hq & Hb) Hc. flags. exists (l + 1).
    split; [reflexivity|]. split; [|lia]. split; [lia|]. split; [|lia].
    rewrite Nat.add_assoc. apply quiet_step; assumption.
  - split; [lia|]. split; [|lia]. intros i Hi. lia.
  - unfold fuel. lia.
  - exists l. repeat split; try assumption. flags; [left|right;left|right;right];
      try lia. assumption.
Qed.

Lemma slide_to_match_shape start l :
  start + l <= n -> quiet start (start + l) ->
  exists s, slide_to_match lst pred start l = Some s
            /\ start <= s /\ s + l <= n /\ quiet start (s + l)
            /\ (s + l = n \/ (s + l < n /\ P (s + l) = true))
            /\ (start + l = n \/ P (start + l) = true -> s = start).
Proof.
  intros Hle Hq.
  destruct (@slide_to_match_spec A lst pred start l Hle Hq)
    as (s & Hrun & H1 & H2 & H3 & H4).
  exists s. repeat split; try assumption.
  intros Hstop. unfold slide_to_match, fuel in Hrun.
  rewrite while_loop_done in Hrun; [congruence|].
  destruct Hstop as [E|E].
  - replace (start + l <? n) with false; [reflexivity|].
    symmetry. apply Nat.ltb_ge. lia.
  - rewrite E. apply andb_false_r.
Qed.

Lemma read_after_shape s l :
  s + l < n ->
  exists e, read_after lst pred after_context s l = Some e
            /\ 1 <= e /\ e <= after_context + 1 /\ s + l + e <= n
            /\ quiet (s + l + 1) (s + l + e)
            /\ (e = after_context + 1 \/ s + l + e = n
                \/ P (s + l + e) = true).
Proof.
  intros Hlt. unfold read_after.
  destruct (while_loop_rule
              (fun e => 1 <= e /\ e <= after_context + 1 /\ s + l + e <= n
                        /\ quiet (s + l + 1) (s + l + e))
              (fun e => n - (s + l + e))
              (fun e => (e <? after_context + 1) && (s + l + e <? n)
                        && negb (P (s + l + e)))
              (fun e => Some (e + 1))) with (fuel := fuel lst) (s := 1)
    as (e & Hrun & (H1 & H2 & H3 & H4) & Hc).
  - intros e (H1 & H2 & H3 & H4) Hc. flags. exists (e + 1).
    split; [reflexivity|]. split; [|lia]. repeat split; try lia.
    rewrite Nat.add_assoc. apply quiet_step; assumption.
  - repeat split; try lia. intros i Hi. lia.
  - unfold fuel. lia.
  - exists e. repeat split; try assumption.
    flags; [left|right;left|right;right]; try lia. assumption.
Qed.

Lemma read_before_shape s l :
  s + l < n ->
  exists e, read_before lst pred before_context s l = Some e
            /\ 1 <= e /\ e <= Nat.max before_context 1 /\ s + l + e <= n
            /\ quiet (s + l + 1) (s + l + e)
            /\ (before_context <= e \/ s + l + e = n
                \/ P (s + l + e) = true).
Proof.
  intros Hlt. unfold read_before.
  destruct (while_loop_rule
              (fun e => 1 <= e /\ e <= Nat.max before_context 1
                        /\ s + l + e <= n
                        /\ quiet (s + l + 1) (s + l + e))
              (fun e => n - (s + l + e))
              (fun e => (e <? before_context) && (s + l + e <? n)
                        && negb (P (s + l + e)))
              (fun e => Some (e + 1))) with (fuel := fuel lst) (s := 1)
    as (e & Hrun & (H1 & H2 & H3 & H4) & Hc).
  - intros e (H1 & H2 & H3 & H4) Hc. flags. exists (e + 1).
    split; [reflexivity|]. split; [|lia]. repeat split; try lia.
    rewrite Nat.add_assoc. apply quiet_step; assumption.
  - repeat split; try lia. intros i Hi. lia.
  - unfold fuel. lia.
  - exists e. repeat split; try assumption.
    flags; [left|right;left|right;right]; try lia. assumption.
Qed.


(** One round of the extension, from the matching line [s + l]: it ends
    on the next matching line, at most [merge_gap] lines further, or it
    closes the window after the trailing context. *)
Lemma extend_step_shape s l :
  s + l < n -> P (s + l) = true ->
  exists l', extend_step lst pred before_context after_context s l = Some l'
    /\ l < l' /\ s + l' <= n /\ quiet (s + l + 1) (s + l')
    /\ ((s + l' < n /\ P (s + l') = true /\ s + l' <= s + l + W + 1)
        \/ (s + l' <= s + l + 1 + after_context
            /\ (s + l' = n \/ s + l' = s + l + 1 + after_context)
            /\ quiet (s + l + 1) (s + l + W + 2))).
Proof.
  intros Hlt HP. unfold extend_step.
  destruct (read_after_shape s l Hlt)
    as (e & -> & He1 & He2 & He3 & Heq & Hestop).
  unfold Shape.merge_gap.
  destruct ((s + (l + e) <? n) && negb (P (s + (l + e)))) eqn:Hc.
  - flags.
    assert (Ee : e = after_context + 1).
    { destruct Hestop as [|[|Hp]]; [assumption|lia|].
      rewrite Nat.add_assoc in H0. congruence. }
    destruct (read_before_shape s (l + e))
      as (e' & -> & Hb1 & Hb2 & Hb3 & Hbq & Hbstop); [lia|].
    assert (Hq1 : quiet (s + l + 1) (s + (l + e) + 1)).
    { rewrite Nat.add_assoc. apply quiet_step; [assumption|].
      rewrite <- Nat.add_assoc. assumption. }
    assert (Hq2 : quiet (s + l + 1) (s + (l + e) + e')).
    { intros i Hi. destruct (Nat.lt_ge_cases i (s + (l + e) + 1)).
      - apply Hq1. lia.
      - apply Hbq. lia. }
    destruct ((s + (l + e) + e' <? n) && P (s + (l + e) + e')) eqn:Hc'.
    + flags. exists (l + e + e'). split; [reflexivity|].
      split; [lia|]. split; [lia|].
      replace (s + (l + e + e')) with (s + (l + e) + e') by lia.
      split; [assumption|]. left. repeat split; try assumption. lia.
    + exists (l + e). split; [reflexivity|]. split; [lia|]. split; [lia|].
      split; [intros i Hi; apply Hq1; lia|].
      right. split; [lia|]. split; [right; lia|].
      intros i Hi.
      destruct (Nat.lt_ge_cases i (s + (l + e) + e')) as [Hlo|Hhi];
        [apply Hq2; lia|].
      flags.
      * apply pred_at_beyond. lia.
      * destruct Hbstop as [Hb|[Hb|Hb]].
        -- assert (i = s + (l + e) + e') by lia. subst i. assumption.
        -- apply pred_at_beyond. lia.
        -- congruence.
  - exists (l + e). split; [reflexivity|]. split; [lia|]. split; [lia|].
    split; [rewrite Nat.add_assoc; assumption|].
    flags.
    + right. split; [lia|]. split; [left; lia|].
      intros i Hi. destruct (Nat.lt_ge_cases i (s + l + e)).
      * apply Heq. lia.
      * apply pred_at_beyond. lia.
    + left. destruct (Nat.lt_ge_cases (s + (l + e)) n) as [Hin|Hout].
      * repeat split; try assumption. lia.
      * apply pred_at_lt in H. lia.
Qed.

Lemma extend_repeatedly_shape s l :
  s + l < n -> P (s + l) = true ->
  exists l' t,
    extend_repeatedly lst pred before_context after_context s l = Some l'
    /\ s + l <= t /\ t < s + l' /\ s + l' <= n /\ P t = true
    /\ quiet (t + 1) (s + l')
    /\ s + l' <= t + 1 + after_context
    /\ (s + l' = n \/ s + l' = t + 1 + after_context)
    /\ quiet (t + 1) (t + W + 2)
    /\ Shape.bridged lst pred before_context after_context (s + l) t.
Proof.
  intros Hlt HP. unfold extend_repeatedly.
  pose (G := Shape.bridged lst pred before_context after_context (s + l)).
  destruct (while_loop_rule
              (fun l' =>
                 l <= l' /\ s + l' <= n
                 /\ ((s + l' < n /\ P (s + l') = true /\ G (s + l'))
                     \/ exists t,
                          s + l <= t /\ t < s + l' /\ P t = true
                          /\ quiet (t + 1) (s + l')
                          /\ s + l' <= t + 1 + after_context
                          /\ (s + l' = n \/ s + l' = t + 1 + after_context)
                          /\ quiet (t + 1) (t + W + 2)
                          /\ G t))
              (fun l' => n - (s + l'))
              (fun l' => (s + l' <? n) && P (s + l'))
              (extend_step lst pred before_context after_context s))
    with (fuel := fuel lst) (s := l)
    as (l' & Hrun & (H1 & H2 & Hst) & Hc).
  - intros l0 (H1 & H2 & Hst) Hc. flags.
    assert (HG : G (s + l0)).
    { destruct Hst as [(_ & _ & HG)|(t & T1 & T2 & T3 & T4 & T5 & T6 & T7 & _)];
        [assumption|].
      rewrite T7 in H0; [discriminate|]. unfold Shape.merge_gap. lia. }
    destruct (extend_step_shape s l0 H H0)
      as (l1 & -> & L1 & L2 & Lq & Lcase).
    exists l1. split; [reflexivity|]. split; [|lia].
    split; [lia|]. split; [assumption|].
    destruct Lcase as [(C1 & C2 & C3)|(C1 & C2 & C3)].
    + left. repeat split; try assumption.
      intros i j Hi Hij Hj Pi Pj Hq.
      destruct (Nat.le_gt_cases j (s + l0)) as [Hjl|Hjg];
        [apply (HG i j); assumption|].
      assert (j = s + l1).
      { destruct (Nat.eq_dec j (s + l1)); [assumption|].
        rewrite Lq in Pj; [discriminate|lia]. }
      subst j.
      destruct (Nat.lt_ge_cases i (s + l0)) as [Hil|Hig].
      * rewrite Hq in H0; [discriminate|lia].
      * destruct (Nat.eq_dec i (s + l0)) as [->|]; [lia|].
        rewrite Lq in Pi; [discriminate|lia].
    + right. exists (s + l0). repeat split; try assumption; lia.
  - split; [lia|]. split; [lia|]. left. repeat split; try assumption.
    intros i j Hi Hij Hj. lia.
  - unfold fuel. lia.
  - destruct Hst as [(S1 & S2 & _)|(t & T)].
    + apply Nat.ltb_lt in S1. rewrite S1, S2 in Hc. discriminate.
    + exists l', t. split; [exact Hrun|]. tauto.
Qed.

Lemma chain_app p rs r :
  Shape.chain lst pred before_context after_context p rs ->
  Shape.window_ok lst pred before_context after_context (Shape.last_end p rs) r ->
  Shape.chain lst pred before_context after_context p (rs ++ [r]).
Proof.
  revert p. induction rs as [|r0 rs IH]; intros p Hc Hw; simpl in *.
  - auto.
  - destruct Hc as [H0 Hc]. split; [assumption|]. apply IH; assumption.
Qed.

Lemma last_end_app p rs r : Shape.last_end p (rs ++ [r]) = snd r.
Proof.
  revert p. induction rs as [|r0 rs IH]; intros p; simpl; [reflexivity|].
  apply IH.
Qed.

(** The outer loop builds a chain of windows and leaves only lines
    without a match behind the last one. *)
Lemma scan_chain fuel start rs :
  n - start < fuel -> start <= n ->
  Shape.chain lst pred before_context after_context 0 rs ->
  Shape.last_end 0 rs = start ->
  exists rs',
    scan lst pred before_context after_context fuel start
         (map (window_of lst) rs)
    = Some (map (window_of lst) rs')
    /\ Shape.chain lst pred before_context after_context 0 rs'
    /\ quiet (Shape.last_end 0 rs') n.
Proof.
  revert start rs.
  induction fuel as [|fuel IH]; intros start rs Hfuel Hstart Hch Hend.
  - lia.
  - simpl. destruct (start <? n) eqn:Hlt.
    + flags.
      destruct (@extend_to_match_shape start Hstart)
        as (l & -> & Hl & Hq & Hlb & Hlstop).
      destruct (@slide_to_match_shape start l Hl Hq)
        as (s & -> & Hs & Hsl & Hq' & Hsend & Hsame).
      destruct (s + l =? n) eqn:Hbreak.
      * flags. exists rs. split; [reflexivity|]. split; [assumption|].
        rewrite Hend. intros i Hi. apply Hq'. lia.
      * flags. destruct Hsend as [|[Hlt' HP]]; [lia|].
        destruct (extend_repeatedly_shape s l Hlt' HP)
          as (l' & t & -> & T1 & T2 & T3 & T4 & T5 & T6 & T7 & T8 & T9).
        assert (Hc : (0 <? l') && (s + l' <=? n) = true).
        { apply andb_true_intro. split;
            [apply Nat.ltb_lt | apply Nat.leb_le]; lia. }
        rewrite Hc.
        change [(slice lst s (s + l'), s =? 0, s + l' =? n)]
          with (map (window_of lst) [(s, s + l')]).
        rewrite <- map_app.
        apply IH.
        -- lia.
        -- lia.
        -- apply chain_app; [assumption|]. rewrite Hend.
           exists (s + l), t. simpl.
           repeat split; try assumption; try lia.
           destruct Hlstop as [E|[E|E]].
           ++ left. apply Hsame. left. exact E.
           ++ right. lia.
           ++ left. apply Hsame. right. exact E.
        -- apply last_end_app.
    + flags. exists rs. split; [reflexivity|]. split; [assumption|].
      intros i Hi. lia.
Qed.

(** The structure of the result of [extract_with_context]. *)
Lemma extract_with_context_chain :
  exists rs,
    extract_with_context lst pred before_context after_context
    = Some (map (window_of lst) rs)
    /\ Shape.chain lst pred before_context after_context 0 rs
    /\ quiet (Shape.last_end 0 rs) n.
Proof.
  apply (@scan_chain (fuel lst) 0 []).
  - unfold fuel. lia.
  - lia.
  - exact I.
  - reflexivity.
Qed.

End ShapeProofs.

Section ShapeFacts.

Import Extractor.

Variable A : Type.
Variable lst : list A.
Variable pred : A -> bool.
Variables before_context after_context : nat.

Local Abbreviation n := (len lst).
Local Abbreviation P := (pred_at lst pred).
Local Abbreviation quiet := (Extractor.quiet lst pred).
Local Abbreviation chain := (Shape.chain lst pred before_context after_context).
Local Abbreviation window_ok :=
  (Shape.window_ok lst pred before_context after_context).

Lemma pred_at_nth i :
  P i = true <-> exists x, nth_error lst i = Some x /\ pred x = true.
Proof.
  unfold pred_at. destruct (nth_error lst i) as [x|]; split.
  - intros H. exists x. auto.
  - intros (y & E & H). congruence.
  - discriminate.
  - intros (y & E & _). discriminate.
Qed.

Lemma pred_at_false_nth i x :
  P i = false -> nth_error lst i = Some x -> pred x = false.
Proof. unfold pred_at. intros H E. rewrite E in H. exact H. Qed.

Lemma slice_nth a b i :
  a + i < b -> nth_error (slice lst a b) i = nth_error lst (a + i).
Proof.
  intros H. unfold slice. rewrite nth_error_firstn.
  replace (i <? b - a) with true by (symmetry; apply Nat.ltb_lt; lia).
  apply nth_error_skipn.
Qed.

Lemma slice_length a b : b <= n -> List.length (slice lst a b) = b - a.
Proof.
  intros H. unfold slice, len in *.
  rewrite length_firstn, length_skipn. lia.
Qed.

Lemma slice_nth_inv a b i y :
  b <= n -> nth_error (slice lst a b) i = Some y ->
  a + i < b /\ nth_error lst (a + i) = Some y.
Proof.
  intros Hb E.
  assert (i < b - a).
  { rewrite <- (@slice_length a b Hb). apply nth_error_Some. congruence. }
  split; [lia|]. rewrite <- (@slice_nth a b i) by lia. exact E.
Qed.

Lemma window_ok_range p r : window_ok p r -> p <= fst r /\ fst r < snd r <= n.
Proof.
  intros (m & t & H). decompose [and] H. lia.
Qed.

Lemma chain_ordered p rs : chain p rs -> ordered_from p rs.
Proof.
  revert p. induction rs as [|[a b] rs IH]; intros p H; simpl in *.
  - exact I.
  - destruct H as [Hw Hc]. apply window_ok_range in Hw. simpl in Hw.
    repeat split; try lia. apply IH. exact Hc.
Qed.

(** Every window of a chain is well shaped after the end of the one
    before it. *)
Lemma chain_nth p rs k r :
  chain p rs -> nth_error rs k = Some r ->
  window_ok (Shape.last_end p (firstn k rs)) r.
Proof.
  revert p k. induction rs as [|r0 rs IH]; intros p k Hc Hk.
  - destruct k; discriminate.
  - destruct Hc as [Hw Hc]. destruct k as [|k]; simpl in *.
    + injection Hk as <-. exact Hw.
    + apply IH; assumption.
Qed.

Lemma last_end_firstn_S p rs k r :
  nth_error rs k = Some r -> Shape.last_end p (firstn (S k) rs) = snd r.
Proof.
  revert p k. induction rs as [|r0 rs IH]; intros p k Hk.
  - destruct k; discriminate.
  - destruct k as [|k].
    + simpl in *. injection Hk as <-. reflexivity.
    + simpl in Hk. change (firstn (S (S k)) (r0 :: rs))
        with (r0 :: firstn (S k) rs).
      simpl. apply IH. exact Hk.
Qed.

Lemma chain_in p rs r : chain p rs -> In r rs -> exists p', window_ok p' r.
Proof.
  intros Hc Hin. destruct (In_nth_error _ _ Hin) as (k & Hk).
  eexists. apply (@chain_nth p rs k r Hc Hk).
Qed.

(** A chain covers every matching line from its start to its end. *)
Lemma chain_covers p rs i :
  chain p rs -> p <= i -> i < Shape.last_end p rs -> P i = true ->
  exists r, In r rs /\ fst r <= i < snd r.
Proof.
  revert p. induction rs as [|r rs IH]; intros p Hc Hp Hi HP; simpl in *.
  - lia.
  - destruct Hc as [Hw Hc]. pose proof Hw as (m & t & H).
    decompose [and] H. clear H.
    assert (m <= i).
    { destruct (Nat.le_gt_cases m i); [assumption|].
      match goal with Hq : quiet p m |- _ => rewrite Hq in HP end;
        [discriminate|lia]. }
    destruct (Nat.lt_ge_cases i (snd r)) as [Hin|Hout].
    + exists r. split; [left; reflexivity|lia].
    + destruct (IH (snd r) Hc Hout Hi HP) as (r' & Hin' & Hr').
      exists r'. split; [right; assumption|assumption].
Qed.

Lemma result_chain :
  exists rs,
    extract_with_context lst pred before_context after_context
    = Some (map (window_of lst) rs)
    /\ chain 0 rs /\ quiet (Shape.last_end 0 rs) n.
Proof. apply extract_with_context_chain. Qed.

Lemma covered rs i :
  chain 0 rs -> quiet (Shape.last_end 0 rs) n -> P i = true ->
  exists r, In r rs /\ fst r <= i < snd r.
Proof.
  intros Hc Hq HP. apply (chain_covers (p := 0)); try assumption; [lia|].
  destruct (Nat.lt_ge_cases i (Shape.last_end 0 rs)); [assumption|].
  rewrite Hq in HP; [discriminate|].
  split; [assumption|]. apply pred_at_lt in HP. exact HP.
Qed.

End ShapeFacts.

Section ShapeTheorems.

Import Extractor.

Variable A : Type.
Variable lst : list A.
Variable pred : A -> bool.
Variables before_context after_context : nat.

Local Abbreviation n := (len lst).
Local Abbreviation P := (pred_at lst pred).
Local Abbreviation quiet := (Extractor.quiet lst pred).
Local Abbreviation chain := (Shape.chain lst pred before_context after_context).
Local Abbreviation extract :=
  (extract_with_context lst pred before_context after_context).

(** X1.  [extract_with_context] returns no window exactly when no line
    satisfies the predicate. *)
Theorem extract_with_context_empty_iff :
  Extractor.extract_with_context lst pred before_context after_context = Some []
  <-> (forall x, In x lst -> pred x = false).
Proof.
  destruct (@result_chain A lst pred before_context after_context)
    as (rs & Hrun & Hc & Hq).
  split.
  - intros H. rewrite Hrun in H. injection H as H. apply map_eq_nil in H.
    subst rs. simpl in Hq. intros x Hin.
    destruct (In_nth_error _ _ Hin) as (i & Hi).
    apply (@pred_at_false_nth A lst pred i x); [|assumption].
    apply Hq. split; [lia|]. apply nth_error_Some. congruence.
  - intros Hnone. destruct rs as [|r rs]; [exact Hrun|].
    destruct Hc as [(m & t & H) _]. decompose [and] H.
    match goal with
    | Hm : P m = true |- _ =>
        apply pred_at_nth in Hm; destruct Hm as (x & Ex & Hx)
    end.
    apply nth_error_In in Ex. rewrite (Hnone x Ex) in Hx. discriminate.
Qed.

(** X2.  Only the first returned window can have [usedfirst] set, and it
    is then a prefix of [lst]; only the last returned window can have
    [usedlast] set, and it is then a suffix of [lst]. *)
Theorem extract_with_context_flags :
  exists ws,
    Extractor.extract_with_context lst pred before_context after_context
    = Some ws
    /\ forall k l usedfirst usedlast,
         nth_error ws k = Some (l, usedfirst, usedlast) ->
         (usedfirst = true -> k = 0 /\ firstn (List.length l) lst = l)
         /\ (usedlast = true ->
             S k = List.length ws
             /\ skipn (List.length lst - List.length l) lst = l).
Proof.
  destruct (@result_chain A lst pred before_context after_context)
    as (rs & Hrun & Hc & Hq).
  exists (map (window_of lst) rs). split; [exact Hrun|].
  intros k l uf ul Hk. rewrite nth_error_map in Hk.
  destruct (nth_error rs k) as [[a b]|] eqn:Ek; [|discriminate].
  simpl in Hk. injection Hk as <- <- <-.
  pose proof (@chain_ordered A lst pred before_context after_context 0 rs Hc)
    as Ho.
  destruct (@chain_in A lst pred before_context after_context 0 rs (a, b) Hc
              (nth_error_In _ _ Ek)) as (p' & Hw).
  apply window_ok_range in Hw. simpl in Hw.
  assert (Hlen : List.length (slice lst a b) = b - a)
    by (apply slice_length; lia).
  split.
  - intros Ha. apply Nat.eqb_eq in Ha. subst a. split.
    + destruct k as [|k]; [reflexivity|].
      destruct (nth_error rs 0) as [r0|] eqn:E0;
        [|apply nth_error_None in E0;
          assert (S k < List.length rs)
            by (apply nth_error_Some; congruence); lia].
      pose proof (@ordered_from_pairwise 0 rs 0 (S k) r0 (0, b) Ho
                    ltac:(lia) E0 Ek) as Hle.
      pose proof (@ordered_from_lower 0 rs r0 Ho (nth_error_In _ _ E0)).
      simpl in Hle. lia.
    + rewrite Hlen. unfold slice. simpl. rewrite Nat.sub_0_r. reflexivity.
  - intros Hb. apply Nat.eqb_eq in Hb. split.
    + rewrite length_map.
      assert (k < List.length rs) by (apply nth_error_Some; congruence).
      destruct (nth_error rs (S k)) as [r1|] eqn:E1;
        [|apply nth_error_None in E1; lia].
      pose proof (@ordered_from_pairwise 0 rs k (S k) (a, b) r1 Ho
                    ltac:(lia) Ek E1) as Hle.
      destruct (@chain_in A lst pred before_context after_context 0 rs r1 Hc
                  (nth_error_In _ _ E1)) as (p1 & Hw1).
      apply window_ok_range in Hw1. simpl in Hle. lia.
    + rewrite Hlen. unfold slice. rewrite Hb. unfold len.
      replace (List.length lst - (List.length lst - a)) with a
        by (unfold len in *; lia).
      symmetry. apply firstn_all2. rewrite length_skipn. lia.
Qed.

(** X3.  In every returned window the first line that satisfies the
    predicate comes after at most [before_context + 1] lines. *)
Theorem extract_with_context_leading :
  exists ws,
    Extractor.extract_with_context lst pred before_context after_context
    = Some ws
    /\ forall l usedfirst usedlast,
         In (l, usedfirst, usedlast) ws ->
         exists k x,
           k <= before_context + 1
           /\ nth_error l k = Some x /\ pred x = true
           /\ forall i y, i < k -> nth_error l i = Some y -> pred y = false.
Proof.
  destruct (@result_chain A lst pred before_context after_context)
    as (rs & Hrun & Hc & Hq).
  exists (map (window_of lst) rs). split; [exact Hrun|].
  intros l uf ul Hin. apply in_map_iff in Hin.
  destruct Hin as ([a b] & Hw & Hin). injection Hw as <- <- <-.
  destruct (@chain_in A lst pred before_context after_context 0 rs (a, b) Hc
              Hin) as (p' & m & t & H).
  simpl in H. decompose [and] H. clear H.
  match goal with
  | Hm : P m = true |- _ =>
      apply pred_at_nth in Hm; destruct Hm as (x & Ex & Hx)
  end.
  exists (m - a), x. split; [lia|]. split; [|split; [assumption|]].
  - rewrite slice_nth by lia. replace (a + (m - a)) with m by lia. exact Ex.
  - intros i y Hi Ey. rewrite slice_nth in Ey by lia.
    apply (@pred_at_false_nth A lst pred (a + i) y); [|assumption].
    match goal with Hq' : quiet p' m |- _ => apply Hq' end. lia.
Qed.

(** X4.  In every returned window the last line that satisfies the
    predicate is followed by at most [after_context] lines, and by exactly
    that many unless the window ends the list ([usedlast]). *)
Theorem extract_with_context_trailing :
  exists ws,
    Extractor.extract_with_context lst pred before_context after_context
    = Some ws
    /\ forall l usedfirst usedlast,
         In (l, usedfirst, usedlast) ws ->
         exists k x,
           nth_error l k = Some x /\ pred x = true
           /\ (forall i y, k < i -> nth_error l i = Some y -> pred y = false)
           /\ List.length l <= k + 1 + after_context
           /\ (usedlast = true \/ List.length l = k + 1 + after_context).
Proof.
  destruct (@result_chain A lst pred before_context after_context)
    as (rs & Hrun & Hc & Hq).
  exists (map (window_of lst) rs). split; [exact Hrun|].
  intros l uf ul Hin. apply in_map_iff in Hin.
  destruct Hin as ([a b] & Hw & Hin). injection Hw as <- <- <-.
  destruct (@chain_in A lst pred before_context after_context 0 rs (a, b) Hc
              Hin) as (p' & m & t & H).
  simpl in H. decompose [and] H. clear H.
  match goal with
  | Ht : P t = true |- _ =>
      apply pred_at_nth in Ht; destruct Ht as (x & Ex & Hx)
  end.
  assert (Hlen : List.length (slice lst a b) = b - a)
    by (apply slice_length; lia).
  exists (t - a), x. split; [|split; [assumption|split; [|split]]].
  - rewrite slice_nth by lia. replace (a + (t - a)) with t by lia. exact Ex.
  - intros i y Hi Ey.
    destruct (@slice_nth_inv A lst a b i y ltac:(lia) Ey) as (Hib & Ey').
    apply (@pred_at_false_nth A lst pred (a + i) y); [|assumption].
    match goal with Hq' : quiet (t + 1) b |- _ => apply Hq' end. lia.
  - rewrite Hlen. lia.
  - rewrite Hlen.
    match goal with
    | Hend : b = n \/ _ |- _ => destruct Hend as [Eb|Eb]
    end.
    + left. apply Nat.eqb_eq. exact Eb.
    + right. lia.
Qed.


(** X5.  Two lines that satisfy the predicate, with no such line between
    them, lie in one window exactly when at most
    [after_context + max(before_context, 1)] lines separate them. *)
Theorem extract_with_context_merges :
  exists rs,
    Extractor.extract_with_context lst pred before_context after_context
    = Some (map (window_of lst) rs)
    /\ (forall r, In r rs -> fst r < snd r <= List.length lst)
    /\ forall i j,
         i < j -> P i = true -> P j = true -> quiet (i + 1) j ->
         ((exists r, In r rs /\ fst r <= i /\ j < snd r)
          <-> j - i - 1 <= after_context + Nat.max before_context 1).
Proof.
  destruct (@result_chain A lst pred before_context after_context)
    as (rs & Hrun & Hc & Hq).
  exists rs. split; [exact Hrun|]. split.
  { intros r Hin.
    destruct (@chain_in A lst pred before_context after_context 0 rs r Hc Hin)
      as (p' & Hw).
    apply window_ok_range in Hw. exact (proj2 Hw). }
  intros i j Hij Pi Pj Hbetween. split.
  - intros (r & Hin & Hi & Hj).
    destruct (@chain_in A lst pred before_context after_context 0 rs r Hc Hin)
      as (p' & m & t & H).
    decompose [and] H. clear H.
    assert (m <= i).
    { destruct (Nat.le_gt_cases m i); [assumption|].
      match goal with Hq' : quiet p' m |- _ => rewrite Hq' in Pi end;
        [discriminate|lia]. }
    assert (j <= t).
    { destruct (Nat.le_gt_cases j t); [assumption|].
      match goal with Hq' : quiet (t + 1) (snd r) |- _ => rewrite Hq' in Pj end;
        [discriminate|lia]. }
    match goal with
    | Hbr : Shape.bridged _ _ _ _ m t |- _ =>
        pose proof (Hbr i j ltac:(lia) Hij ltac:(lia) Pi Pj Hbetween) as Hgap
    end.
    unfold Shape.merge_gap in Hgap. lia.
  - intros Hgap.
    destruct (@covered A lst pred before_context after_context rs i Hc Hq Pi)
      as (r & Hin & Hi).
    exists r. split; [assumption|]. split; [lia|].
    destruct (@chain_in A lst pred before_context after_context 0 rs r Hc Hin)
      as (p' & m & t & H).
    decompose [and] H. clear H.
    destruct (Nat.lt_ge_cases j (snd r)) as [|Hout]; [assumption|].
    assert (i <= t).
    { destruct (Nat.le_gt_cases i t); [assumption|].
      match goal with Hq' : quiet (t + 1) (snd r) |- _ => rewrite Hq' in Pi end;
        [discriminate|lia]. }
    destruct (Nat.eq_dec i t) as [->|Hne].
    + match goal with
      | Hq' : quiet (t + 1) (t + _ + 2) |- _ => rewrite Hq' in Pj
      end; [discriminate|]. unfold Shape.merge_gap. lia.
    + match goal with
      | Ht : P t = true |- _ => rewrite Hbetween in Ht
      end; [discriminate|lia].
Qed.

(** X6.  A window has fewer than [before_context + 1] lines before its
    first matching line only when it starts at line 0 or right where the
    window before it ends. *)
Theorem extract_with_context_full_leading :
  exists rs,
    Extractor.extract_with_context lst pred before_context after_context
    = Some (map (window_of lst) rs)
    /\ forall k r,
         nth_error rs k = Some r ->
         (quiet (fst r) (fst r + (before_context + 1))
          /\ P (fst r + (before_context + 1)) = true)
         \/ (k = 0 /\ fst r = 0)
         \/ (exists k' r0, k = S k' /\ nth_error rs k' = Some r0
                           /\ snd r0 = fst r).
Proof.
  destruct (@result_chain A lst pred before_context after_context)
    as (rs & Hrun & Hc & Hq).
  exists rs. split; [exact Hrun|].
  intros k r Hk.
  pose proof (@chain_nth A lst pred before_context after_context 0 rs k r
                Hc Hk) as (m & t & H).
  decompose [and] H. clear H.
  match goal with
  | Hlead : fst r = _ \/ m = _ |- _ => destruct Hlead as [Ep|Em]
  end.
  - right. destruct k as [|k].
    + left. simpl in Ep. auto.
    + right.
      destruct (nth_error rs k) as [r0|] eqn:E0.
      * exists k, r0. split; [reflexivity|]. split; [exact E0|].
        rewrite (@last_end_firstn_S 0 rs k r0 E0) in Ep. congruence.
      * apply nth_error_None in E0.
        assert (S k < List.length rs) by (apply nth_error_Some; congruence).
        lia.
  - left. subst m. split; [|assumption].
    intros i Hi.
    match goal with Hq' : quiet _ (fst r + _) |- _ => apply Hq' end. lia.
Qed.

(** X7.  When every line of a non-empty list satisfies the predicate, the
    result is the whole list as one window, with both flags set. *)
Theorem extract_with_context_all_match :
  lst <> [] -> (forall x, In x lst -> pred x = true) ->
  Extractor.extract_with_context lst pred before_context after_context
  = Some [(lst, true, true)].
Proof.
  intros Hne Hall.
  assert (HP : forall i, i < n -> P i = true).
  { intros i Hi. unfold pred_at.
    destruct (nth_error lst i) as [x|] eqn:E.
    - apply Hall. apply (nth_error_In _ _ E).
    - apply nth_error_None in E. unfold len in Hi. lia. }
  assert (Hn : 0 < n) by (unfold len; destruct lst; [congruence|simpl; lia]).
  destruct (@result_chain A lst pred before_context after_context)
    as (rs & Hrun & Hc & Hq).
  rewrite Hrun. f_equal.
  destruct rs as [|[a b] rs].
  - simpl in Hq. specialize (HP 0 Hn). rewrite Hq in HP; [discriminate|lia].
  - destruct Hc as [(m & t & H) Hc]. simpl in H. decompose [and] H. clear H.
    assert (a = 0).
    { destruct a as [|a]; [reflexivity|].
      specialize (HP 0 Hn).
      match goal with
      | Hq' : quiet 0 m |- _ => rewrite (Hq' 0) in HP; [discriminate|lia]
      end. }
    subst a.
    assert (b = n).
    { destruct (Nat.eq_dec b n) as [|Hbn]; [assumption|].
      assert (Pb : P b = true) by (apply HP; lia).
      destruct (Nat.eq_dec b (t + 1)) as [Eb|Eb].
      - match goal with
        | Hq' : quiet (t + 1) (t + _ + 2) |- _ => rewrite Hq' in Pb
        end; [discriminate|lia].
      - assert (Pt : P (t + 1) = true) by (apply HP; lia).
        match goal with
        | Hq' : quiet (t + 1) b |- _ => rewrite Hq' in Pt
        end; [discriminate|lia]. }
    subst b.
    destruct rs as [|r rs].
    + simpl. unfold window_of, slice. simpl. rewrite Nat.sub_0_r.
      unfold len. rewrite firstn_all, Nat.eqb_refl. reflexivity.
    + destruct Hc as [Hw _]. apply window_ok_range in Hw. simpl in Hw. lia.
Qed.

End ShapeTheorems.

Lemma extract_with_context_all_match_witness :
  Extractor.extract_with_context [1; 2; 3] (fun x => 0 <? x) 1 1
  = Some [([1; 2; 3], true, true)].
Proof.
  apply (@extract_with_context_all_match nat [1; 2; 3] (fun x => 0 <? x) 1 1).
  - discriminate.
  - intros x [<-|[<-|[<-|[]]]]; reflexivity.
Defined.

(** ** Matches and the chunks made from them *)

Section MatchFacts.

Import Re.







(** What holds of the result of every run of the pattern, whatever the
    scanner does with the position reached, holds of every match. *)
Lemma find_from_forall p s (Q : match_obj -> Prop) :
  (forall pos rest e caps (k : cont),
     (forall pos' rest' caps' res,
        k pos' rest' caps' = Some res -> res = (pos', caps')) ->
     run (tree p) pos rest [] k = Some (e, caps) ->
     Q (Match p s pos e caps)) ->
  forall rest pos skip, Forall Q (find_from p s rest pos skip).
Proof.
  intros HQ.
  assert (H1 : forall pos rest e caps,
             match_at (tree p) pos rest = Some (e, caps) ->
             Q (Match p s pos e caps)).
  { intros pos rest e caps. apply HQ. intros pos' rest' caps' res H.
    injection H as <-. reflexivity. }
  assert (H2 : forall pos rest e caps,
             match_advancing (tree p) pos rest = Some (e, caps) ->
             Q (Match p s pos e caps)).
  { intros pos rest e caps. apply HQ. intros pos' rest' caps' res H.
    destruct (pos <? pos'); [|discriminate]. injection H as <-.
    reflexivity. }
  induction rest as [|c rest IH]; intros pos skip.
  - destruct skip as [|skip]; simpl; [|constructor].
    destruct (match_at (tree p) pos EmptyString) as [[e caps]|] eqn:E;
      [|constructor].
    constructor; [eapply H1; eassumption|].
    destruct (e =? pos); [|constructor].
    destruct (match_advancing (tree p) pos EmptyString) as [[e' caps']|]
      eqn:E'; constructor; [eapply H2; eassumption | constructor].
  - destruct skip as [|skip]; simpl; [|apply IH].
    destruct (match_at (tree p) pos (String c rest)) as [[e caps]|] eqn:E;
      [|apply IH].
    constructor; [eapply H1; eassumption|].
    destruct (e =? pos); [|apply IH].
    destruct (match_advancing (tree p) pos (String c rest))
      as [[e' caps']|] eqn:E';
      [constructor; [eapply H2; eassumption | apply IH] | apply IH].
Qed.

Lemma finditer_pattern p s : Forall (fun m => re m = p) (finditer p s).
Proof. apply find_from_forall. reflexivity. Qed.

(** *** Slices of a text *)

Lemma append_nil_r (s : string) : (s ++ EmptyString)%string = s.
Proof. induction s as [|c s IH]; simpl; [reflexivity | now rewrite IH]. Qed.

Lemma append_assoc (a b c : string) :
  ((a ++ b) ++ c)%string = (a ++ (b ++ c))%string.
Proof. induction a as [|x a IH]; simpl; [reflexivity | now rewrite IH]. Qed.








End MatchFacts.

Section SplitterFacts.

Import Re.










End SplitterFacts.

Section SplitterTheorems.

Import Re.







End SplitterTheorems.

Section GrammarTheorems.

Import Re.

Lemma str_from_get rest :
  forall d c t, str_from rest d = String c t -> String.get d rest = Some c.
Proof.
  induction rest as [|x rest IH]; intros [|d] c t H; simpl in *;
    try discriminate.
  - injection H as -> _. reflexivity.
  - apply (IH d c t). exact H.
Qed.

Lemma run_chr_last p pos rest e caps :
  forall p0 rest0 caps0,
    reached pos rest p0 rest0 ->
    run (Chr p) p0 rest0 caps0 (fun pos' _ caps' => Some (pos', caps'))
    = Some (e, caps) ->
    pos < e /\ exists c, String.get (e - 1 - pos) rest = Some c /\ p c = true.
Proof.
  intros p0 rest0 caps0 (d & -> & ->) H. simpl in H.
  destruct (str_from rest d) as [|c t] eqn:E; [discriminate|].
  destruct (p c) eqn:Hp; [|discriminate].
  injection H as <- _. split; [lia|]. exists c.
  replace (S (pos + d) - 1 - pos) with d by lia.
  split; [apply (str_from_get _ _ E) | exact Hp].
Qed.

(** Characters that often follow a link in running text and are not in
    [URLTRAILINGPATTERN]. *)
Lemma trailing_class_excludes c :
  (isword c || char_in "{}(@/-%&=+#$" c) = true ->
  char_in ".,;:!?)~" c = false.
Proof.
  destruct c as [[] [] [] [] [] [] [] []]; vm_compute; congruence.
Qed.

(** X11.  A match of the scheme alternative [HTTPURLPATTERN] is not empty
    and ends in a character of [URLTRAILINGPATTERN]: a link never ends in
    one of [. , ; : ! ? ) ~]. *)
Theorem scheme_url_last_char (pos : nat) (rest : string) (e : nat)
    (caps : captures) :
  match_at Grammar.HTTPURLPATTERN pos rest = Some (e, caps) ->
  pos < e
  /\ exists c,
       String.get (e - 1 - pos) rest = Some c
       /\ (isword c || char_in "{}(@/-%&=+#$" c) = true
       /\ char_in ".,;:!?)~" c = false.
Proof.
  unfold match_at, Grammar.HTTPURLPATTERN. intros H.
  apply run_seq_continues in H. destruct H as (p1 & t1 & c1 & R1 & H).
  apply run_seq_continues in H. destruct H as (p2 & t2 & c2 & R2 & H).
  apply run_seq_continues in H. destruct H as (p3 & t3 & c3 & R3 & H).
  unfold Grammar.URLTRAILINGPATTERN, Grammar.class in H.
  destruct (@run_chr_last _ pos rest e caps p3 t3 c3
              (reached_trans R1 (reached_trans R2 R3)) H)
    as (Hlt & c & Hget & Hc).
  split; [assumption|]. exists c. simpl in Hc.
  split; [assumption|]. split; [assumption|].
  apply trailing_class_excludes. assumption.
Qed.

(** X12.  A match of the email alternative is not empty and ends in a
    word character or [-]: an address never ends in a dot. *)
Theorem email_last_char (pos : nat) (rest : string) (e : nat)
    (caps : captures) :
  match_at Grammar.email pos rest = Some (e, caps) ->
  pos < e
  /\ exists c,
       String.get (e - 1 - pos) rest = Some c
       /\ (isword c || Ascii.eqb c "-") = true.
Proof.
  unfold match_at, Grammar.email. intros H.
  change (run (Group 3 ?r) ?p ?t ?c ?k)
    with (run r p t c (fun p' t' c' => k p' t' ((3, (p, p')) :: c'))) in H.
  apply run_seq_continues in H. destruct H as (p1 & t1 & c1 & R1 & H).
  apply run_seq_continues in H. destruct H as (p2 & t2 & c2 & R2 & H).
  apply run_seq_continues in H. destruct H as (p3 & t3 & c3 & R3 & H).
  apply run_seq_continues in H. destruct H as (p4 & t4 & c4 & R4 & H).
  pose proof (reached_trans R1 (reached_trans R2 (reached_trans R3 R4)))
    as (d & -> & ->).
  unfold Grammar.class in H. simpl in H.
  destruct (str_from rest d) as [|c t] eqn:E; [discriminate|].
  match type of H with
  | (if ?b then _ else _) = _ => destruct b eqn:Hc; [|discriminate]
  end.
  injection H as <- _. split; [lia|]. exists c.
  replace (S (pos + d) - 1 - pos) with d by lia.
  split; [apply (str_from_get _ _ E)|].
  rewrite orb_false_r in Hc. exact Hc.
Qed.

End GrammarTheorems.

Lemma scheme_url_last_char_witness :
  0 < 14
  /\ exists c,
       String.get (14 - 1 - 0) "http://a.b/c.d).," = Some c
       /\ (isword c || char_in "{}(@/-%&=+#$" c) = true
       /\ char_in ".,;:!?)~" c = false.
Proof.
  apply (@scheme_url_last_char 0 "http://a.b/c.d).," 14 [(2, (0, 4))]).
  vm_compute. reflexivity.
Defined.

Lemma email_last_char_witness :
  0 < 9
  /\ exists c,
       String.get (9 - 1 - 0) "joe@x.org." = Some c
       /\ (isword c || Ascii.eqb c "-") = true.
Proof.
  apply (@email_last_char 0 "joe@x.org." 9 [(3, (0, 9))]).
  vm_compute. reflexivity.
Defined.

Section DriverTheorems.

Import Re.

Lemma extract_nil_iff (A : Type) (lst : list A) (pred : A -> bool)
    (bc ac : nat) :
  Extractor.extract_with_context lst pred bc ac = Some []
  <-> Forall (fun x => pred x = false) lst.
Proof.
  destruct (@result_chain A lst pred bc ac) as (rs & Hrun & Hc & Hq).
  rewrite Forall_forall. split.
  - intros H. rewrite Hrun in H. injection H as H. apply map_eq_nil in H.
    subst rs. simpl in Hq. intros x Hin.
    destruct (In_nth_error _ _ Hin) as (i & Hi).
    apply (@pred_at_false_nth A lst pred i x); [|assumption].
    apply Hq. split; [lia|]. apply nth_error_Some. congruence.
  - intros Hnone. destruct rs as [|r rs]; [exact Hrun|].
    destruct Hc as [(m & t & H) _]. decompose [and] H.
    match goal with
    | Hm : Extractor.pred_at lst pred m = true |- _ =>
        apply pred_at_nth in Hm; destruct Hm as (x & Ex & Hx)
    end.
    apply nth_error_In in Ex. rewrite (Hnone x Ex) in Hx. discriminate.
Qed.







End DriverTheorems.

(** ** Numeric references and the chunks of the chunker *)

Section NumberFacts.

Import HTML.

Lemma digit_below_facts base c :
  (base <= 16)%N -> digit_below base c = true ->
  int_space c = false /\ Ascii.eqb c "_" = false
  /\ Ascii.eqb c "x" = false /\ Ascii.eqb c "X" = false
  /\ c <> "-"%char /\ c <> "+"%char.
Proof.
  intros Hb H.
  assert (H16 : digit_below 16 c = true).
  { unfold digit_below in *. destruct (digit_value c); [|discriminate].
    apply N.ltb_lt in H. apply N.ltb_lt. lia. }
  clear H. revert H16.
  destruct c as [[] [] [] [] [] [] [] []]; vm_compute; intros H;
    try discriminate; repeat split; try reflexivity; discriminate.
Qed.

Lemma rstrip_no_space s :
  all_chars (fun c => negb (int_space c)) s = true -> rstrip s = s.
Proof.
  induction s as [|c s IH]; simpl; [reflexivity|].
  intros H. apply andb_prop in H. destruct H as [Hc Hs].
  rewrite (IH Hs). apply negb_true_iff in Hc. rewrite Hc.
  destruct s; reflexivity.
Qed.

Lemma all_chars_impl (p q : ascii -> bool) s :
  (forall c, p c = true -> q c = true) ->
  all_chars p s = true -> all_chars q s = true.
Proof.
  intros Hpq. induction s as [|c s IH]; simpl; [reflexivity|].
  intros H. apply andb_prop in H. destruct H as [Hc Hs].
  rewrite (Hpq c Hc), (IH Hs). reflexivity.
Qed.

Lemma digits_all base s :
  (base <= 16)%N -> all_chars (digit_below base) s = true ->
  forall acc seen us,
    (s = EmptyString -> seen = true /\ us = true) ->
    exists n, digits base s acc seen us = Some n.
Proof.
  intros Hb. induction s as [|c s IH]; intros Hall acc seen us Hend.
  - destruct (Hend eq_refl) as [-> ->]. simpl. eauto.
  - simpl in Hall. apply andb_prop in Hall. destruct Hall as [Hc Hs].
    destruct (@digit_below_facts base c Hb Hc) as (_ & Hu & _).
    simpl. rewrite Hu. unfold digit_below in Hc.
    destruct (digit_value c) as [d|]; [|discriminate].
    rewrite Hc. apply IH; auto.
Qed.

Lemma sign_match c s :
  c <> "-"%char -> c <> "+"%char ->
  match String c s with
  | String "-" s' => (true, s')
  | String "+" s' => (false, s')
  | _ => (false, String c s)
  end = (false, String c s).
Proof.
  intros H1 H2.
  destruct c as [[] [] [] [] [] [] [] []]; try reflexivity; congruence.
Qed.

Lemma prefix_match base c s :
  (base <= 16)%N -> all_chars (digit_below base) s = true ->
  match String c s with
  | String "0" (String x s') =>
      if (base =? 16)%N && (Ascii.eqb x "x" || Ascii.eqb x "X")
      then (s', true)
      else (String c s, false)
  | _ => (String c s, false)
  end = (String c s, false).
Proof.
  intros Hb Hs.
  destruct c as [[] [] [] [] [] [] [] []]; try reflexivity.
  destruct s as [|x s]; [reflexivity|].
  simpl in Hs. apply andb_prop in Hs. destruct Hs as [Hx _].
  destruct (@digit_below_facts base x Hb Hx) as (_ & _ & E1 & E2 & _).
  rewrite E1, E2, andb_false_r. reflexivity.
Qed.

Lemma digit_count_digits base s :
  (base <= 16)%N -> all_chars (digit_below base) s = true ->
  digit_count s = String.length s.
Proof.
  intros Hb. induction s as [|c s IH]; intros Hall; [reflexivity|].
  simpl in Hall. apply andb_prop in Hall. destruct Hall as [Hc Hs].
  destruct (@digit_below_facts base c Hb Hc) as (_ & Hu & _).
  simpl. rewrite Hu, (IH Hs). reflexivity.
Qed.

(** [int(s, base)] returns a number that is not negative when [s] is
    made of digits below [base], at least one, and in base 10 no more
    than [max_str_digits]. *)
Lemma int_digits base s :
  (base <= 16)%N -> s <> EmptyString ->
  all_chars (digit_below base) s = true ->
  (base = 10%N -> String.length s <= max_str_digits) ->
  exists n, int s base = Ok (Z.of_N n).
Proof.
  intros Hb Hne Hall Hlen. destruct s as [|c s]; [congruence|].
  pose proof Hall as Hall'. simpl in Hall'. apply andb_prop in Hall'.
  destruct Hall' as [Hc Hs].
  destruct (@digit_below_facts base c Hb Hc) as (Hsp & _ & _ & _ & Hm & Hp).
  unfold int. cbn [lstrip]. rewrite Hsp.
  rewrite rstrip_no_space.
  2:{ apply all_chars_impl with (p := digit_below base); [|exact Hall].
      intros x Hx. destruct (@digit_below_facts base x Hb Hx) as (E & _).
      rewrite E. reflexivity. }
  rewrite (@sign_match c s Hm Hp).
  rewrite (@prefix_match base c s Hb Hs).
  destruct (@digits_all base (String c s) Hb Hall 0%N false false)
    as (n & ->); [discriminate|].
  exists n.
  rewrite (@digit_count_digits base (String c s) Hb Hall).
  destruct (N.eqb_spec base 10) as [E|_]; [|reflexivity].
  replace (max_str_digits <? String.length (String c s)) with false;
    [reflexivity|].
  symmetry. apply Nat.ltb_ge. apply Hlen. exact E.
Qed.

End NumberFacts.

Section ChunkerInvariants.

Import HTML.

Lemma extends_refl st : extends st st.
Proof.
  exists []. rewrite app_nil_r. repeat split; [constructor | lia].
Qed.

Lemma extends_trans st1 st2 st3 :
  extends st1 st2 -> extends st2 st3 -> extends st1 st3.
Proof.
  intros (x1 & E1 & F1 & L1) (x2 & E2 & F2 & L2). exists (x1 ++ x2).
  rewrite E2, E1, app_assoc. repeat split; [|lia].
  apply Forall_app. auto.
Qed.

(** A change of the state outside [rval], or a new empty paragraph. *)
Lemma extends_same_chunks st st' :
  all_chunks st' = all_chunks st ->
  List.length (rval st) <= List.length (rval st') -> extends st st'.
Proof.
  intros E L. exists []. rewrite app_nil_r. repeat split; auto.
Qed.

Lemma concat_unit (X : Type) (l : list (list X)) (x : list X) :
  List.concat (l ++ [x]) = List.concat l ++ x.
Proof. rewrite concat_app. simpl. rewrite app_nil_r. reflexivity. Qed.

Lemma add_chunk_extends st c :
  well_formed st -> markup_ok c = true ->
  exists st',
    add_chunk st c = Ok st' /\ well_formed st' /\ same_stacks st st'
    /\ list_stack st' = list_stack st /\ extends st st'
    /\ last_chunk st' = Some c.
Proof.
  destruct st as [rv aps ts ss acs ls iss].
  unfold well_formed, add_chunk, append_to_last, cur_url, extends,
    all_chunks, same_stacks. cbn.
  intros (Ha & Hs & Hr) Hc. destruct aps; cbn.
  - rewrite last_item_app. cbn. rewrite removelast_last.
    eexists. split; [reflexivity|]. cbn.
    split; [repeat split; auto using app_unit_not_nil|].
    split; [auto|]. split; [reflexivity|]. split.
    + exists [c]. rewrite concat_unit. rewrite !length_app. simpl.
      repeat split; [constructor; [assumption|constructor] | lia].
    + unfold last_chunk. cbn. rewrite rev_unit. reflexivity.
  - destruct (last_item_ok (Hr eq_refl)) as (rv' & para & -> & Hl).
    destruct ts; cbn.
    + destruct (last_item_ok Ha) as (acs' & u & -> & Hu).
      rewrite Hu. cbn. rewrite Hl. cbn. rewrite removelast_last.
      rewrite last_item_app. cbn. rewrite removelast_last.
      eexists. split; [reflexivity|]. cbn.
      split; [repeat split; auto using app_unit_not_nil|].
      split; [auto|]. split; [reflexivity|]. split.
      * exists [Chunk (Literal " ") u; c]. rewrite !concat_unit.
        rewrite !length_app. simpl. rewrite <- !app_assoc.
        repeat split;
          [constructor; [reflexivity|constructor; [assumption|constructor]]
          | lia].
      * unfold last_chunk. cbn. rewrite !rev_unit. reflexivity.
    + rewrite Hl. cbn. rewrite removelast_last.
      eexists. split; [reflexivity|]. cbn.
      split; [repeat split; auto using app_unit_not_nil|].
      split; [auto|]. split; [reflexivity|]. split.
      * exists [c]. rewrite !concat_unit. rewrite !length_app. simpl.
        rewrite <- app_assoc.
        repeat split; [constructor; [assumption|constructor] | lia].
      * unfold last_chunk. cbn. rewrite !rev_unit. reflexivity.
Qed.

Lemma new_paragraph_extends st :
  extends st (set_rval st (rval st ++ [[]])).
Proof.
  apply extends_same_chunks.
  - unfold all_chunks. simpl. rewrite concat_unit, app_nil_r. reflexivity.
  - simpl. rewrite length_app. lia.
Qed.

Lemma end_para_extends st :
  well_formed st ->
  exists st',
    end_para st = Ok st' /\ well_formed st' /\ same_stacks st st'
    /\ list_stack st' = list_stack st /\ extends st st'.
Proof.
  intros (Ha & Hs & Hr). unfold end_para.
  set (st1 := set_trailing_space
                (if at_para_start st then set_rval st (rval st ++ [[]])
                 else set_at_para_start st true) false).
  assert (H1 : well_formed st1 /\ same_stacks st st1
               /\ list_stack st1 = list_stack st /\ extends st st1).
  { unfold well_formed, same_stacks, st1.
    destruct (at_para_start st); simpl.
    - repeat split; auto using app_unit_not_nil.
      destruct (new_paragraph_extends st) as (x & E & F & L).
      exists x. auto.
    - repeat split; auto; try discriminate.
      apply extends_same_chunks; [reflexivity | simpl; lia]. }
  destruct H1 as (Hwf1 & Hsame & Hls & Hext).
  destruct (list_stack st1) eqn:E.
  - exists st1. rewrite <- Hls. auto.
  - destruct (last_item_ok (proj1 Hwf1)) as (acs' & u & Hacs & Hu).
    unfold cur_url. rewrite Hu. cbn [bind].
    destruct (@add_chunk_extends st1
                (Chunk (Literal (spaces (3 * List.length (p :: l)))) u)
                Hwf1 eq_refl)
      as (st' & Hadd & Hwf' & Hsame' & Hls' & Hext' & _).
    exists st'. split; [exact Hadd|]. split; [exact Hwf'|].
    split; [apply same_stacks_trans with st1; assumption|].
    split; [congruence|]. apply extends_trans with st1; assumption.
Qed.

Lemma decimal2_markup counter u :
  markup_ok (Chunk (Literal (decimal2 counter ++ ".")%string) u) = true.
Proof. reflexivity. Qed.

Lemma end_list_para_extends st :
  well_formed st ->
  exists st',
    end_list_para st = Ok st' /\ well_formed st' /\ same_stacks st st'
    /\ extends st st'.
Proof.
  intros Hwf. unfold end_list_para.
  set (st1 := if at_para_start st then set_rval st (rval st ++ [[]])
              else st).
  assert (H1 : well_formed st1 /\ same_stacks st st1 /\ extends st st1).
  { destruct Hwf as (Ha & Hs & Hr). unfold well_formed, same_stacks, st1.
    destruct (at_para_start st); simpl.
    - repeat split; auto using app_unit_not_nil.
      apply new_paragraph_extends.
    - repeat split; auto. apply extends_refl. }
  destruct H1 as (Hwf1 & Hsame & Hext).
  destruct (list_stack st1) eqn:Hls.
  - destruct (end_para_extends Hwf1) as (st' & He & Hwf' & Hsame' & _ & Hext').
    exists st'. split; [exact He|]. split; [exact Hwf'|].
    split; [apply same_stacks_trans with st1; assumption|].
    apply extends_trans with st1; assumption.
  - assert (Hne : p :: l <> []) by discriminate.
    destruct (last_item_ok Hne) as (ls' & [tag counter] & Hlseq & Hlast).
    rewrite Hlast. cbn [bind].
    destruct (last_item_ok (proj1 Hwf1)) as (acs' & u & Hacs & Hu).
    destruct (String.eqb tag "ul").
    + destruct (nth_error ul_tags _) as [glyph|] eqn:Hg.
      * cbn [bind]. unfold cur_url. rewrite Hu. cbn [bind].
        destruct (@add_chunk_extends st1
                    (Chunk (Literal (glyph ++ "  ")%string) u) Hwf1 eq_refl)
          as (st' & Hadd & Hwf' & Hsame' & _ & Hext' & _).
        exists st'. split; [exact Hadd|]. split; [exact Hwf'|].
        split; [apply same_stacks_trans with st1; assumption|].
        apply extends_trans with st1; assumption.
      * apply nth_error_None in Hg.
        change (List.length ul_tags) with 3 in Hg.
        pose proof (Nat.mod_upper_bound
                      (List.length
                         (filter (fun t => String.eqb (fst t) tag) (p :: l)))
                      3 ltac:(lia)).
        lia.
    + set (st2 := set_list_stack st1
                    (removelast (p :: l) ++ [(tag, counter + 1)])).
      assert (H2 : well_formed st2 /\ same_stacks st1 st2
                   /\ extends st1 st2).
      { destruct Hwf1 as (Ha & Hs & Hr).
        unfold well_formed, same_stacks, st2. simpl.
        repeat split; auto. apply extends_same_chunks; reflexivity || auto. }
      destruct H2 as (Hwf2 & Hsame2 & Hext2).
      unfold cur_url. replace (anchor_stack st2) with (anchor_stack st1)
        by reflexivity.
      rewrite Hu. cbn [bind].
      destruct (@add_chunk_extends st2
                  (Chunk (Literal (decimal2 counter ++ ".")%string) u) Hwf2
                  (decimal2_markup counter u))
        as (st' & Hadd & Hwf' & Hsame' & _ & Hext' & _).
      exists st'. split; [exact Hadd|]. split; [exact Hwf'|].
      split.
      * apply same_stacks_trans with st1; [assumption|].
        apply same_stacks_trans with st2; assumption.
      * apply extends_trans with st1; [assumption|].
        apply extends_trans with st2; assumption.
Qed.


Lemma styles_cases styles :
  styles_ok styles = true ->
  styles = [] \/ styles = ["bold"] \/ styles = ["italic"]
  \/ styles = ["bold"; "italic"] \/ styles = ["italic"; "bold"].
Proof.
  unfold styles_ok. cbn [existsb]. intros H.
  repeat match type of H with
         | ((if ?d then true else false) || _)%bool = true =>
             destruct d as [->|_]; [tauto|cbn [orb] in H]
         end.
  discriminate.
Qed.

Lemma styled_markup (top : option string) styles data u :
  styles_ok styles = true ->
  markup_ok
    (Chunk
       (Styled
          match styles with
          | _ :: _ =>
              (match top with
               | None => "msgtext"
               | Some _ => "anchor"
               end ++ ":" ++ String.concat EmptyString (sorted styles))%string
          | [] => match top with
                  | None => "msgtext"
                  | Some _ => "anchor"
                  end
          end data) u) = true.
Proof.
  intros H. destruct (@styles_cases styles H) as [->|[->|[->|[->| ->]]]];
    destruct top; reflexivity.
Qed.

Lemma set_with_styles styles x :
  styles_ok styles = true -> x = "bold" \/ x = "italic" ->
  styles_ok (set_with styles x) = true.
Proof.
  intros H Hx. destruct (@styles_cases styles H) as [->|[->|[->|[->| ->]]]];
    destruct Hx as [-> | ->]; reflexivity.
Qed.

Lemma sound_same st st' :
  sound st -> well_formed st' -> same_stacks st st' -> sound st'.
Proof.
  intros [_ Hst] Hwf (_ & E & _). split; [assumption|]. rewrite E. exact Hst.
Qed.

Lemma sound_top st :
  sound st ->
  exists ss' top, style_stack st = ss' ++ [top]
                  /\ last_item (style_stack st) = Ok top
                  /\ styles_ok top = true.
Proof.
  intros [(Ha & Hs & Hr) Hst].
  destruct (last_item_ok Hs) as (ss' & top & E & Hl).
  exists ss', top. split; [assumption|]. split; [assumption|].
  rewrite E in Hst. apply Forall_app in Hst. destruct Hst as [_ Hst].
  inversion Hst. assumption.
Qed.

Lemma handle_data_extends st data :
  sound st ->
  exists st',
    handle_data st data = Ok st' /\ well_formed st' /\ same_stacks st st'
    /\ list_stack st' = list_stack st /\ extends st st'.
Proof.
  intros Hsound. pose proof Hsound as [Hwf Hst]. unfold handle_data.
  destruct (in_style_or_script st) eqn:Hin.
  { exists st. split; [reflexivity|]. split; [assumption|].
    split; [unfold same_stacks; auto|]. split; [reflexivity|].
    apply extends_refl. }
  set (st1 := match data with
              | String c _ =>
                  if isspace c then set_trailing_space st true else st
              | EmptyString => st
              end).
  assert (H1 : well_formed st1 /\ same_stacks st st1
               /\ list_stack st1 = list_stack st /\ extends st st1).
  { unfold st1. destruct data as [|c data]; [|destruct (isspace c)];
      unfold well_formed, same_stacks in *; simpl;
      repeat split; try tauto;
      solve [apply extends_refl
            | apply extends_same_chunks; [reflexivity | simpl; lia]]. }
  destruct H1 as (Hwf1 & Hsame1 & Hls1 & Hext1).
  pose proof Hsame1 as (Ha1 & Hs1 & Hi1).
  destruct (last_item_ok (proj1 Hwf1)) as (acs' & u & Hacs & Hu).
  destruct (sound_top Hsound) as (ss' & styles & Hss & Hstyles & Hok).
  rewrite <- Hs1 in Hstyles.
  rewrite Hu, Hstyles. cbn [bind]. unfold cur_url at 1. rewrite Hu.
  cbn [bind].
  match goal with
  | |- context [add_chunk st1 ?c] =>
      destruct (@add_chunk_extends st1 c Hwf1
                  (@styled_markup u styles _ u Hok))
        as (st' & -> & Hwf' & Hsame' & Hls' & Hext' & _)
  end.
  cbn [bind]. eexists. split; [reflexivity|].
  split; [exact Hwf'|].
  split; [apply same_stacks_trans with st1; assumption|].
  split; [simpl; congruence|].
  apply extends_trans with st1; [assumption|].
  apply extends_trans with st'; [assumption|].
  apply extends_same_chunks; [reflexivity | simpl; lia].
Qed.

Lemma Forall_unit (X : Type) (Q : X -> Prop) (l : list X) (x : X) :
  Forall Q l -> Q x -> Forall Q (l ++ [x]).
Proof. intros. apply Forall_app. auto. Qed.

Lemma Forall_removelast (X : Type) (Q : X -> Prop) (l : list X) :
  Forall Q l -> Forall Q (removelast l).
Proof.
  intros H. destruct l as [|a l0]; [constructor|].
  assert (Hne : a :: l0 <> []) by discriminate.
  destruct (exists_last Hne) as (l' & x & E). rewrite E in *.
  rewrite removelast_last. apply Forall_app in H. tauto.
Qed.


Lemma tag_style_names tag style :
  lookup tag tag_styles = Some style -> style = "bold" \/ style = "italic".
Proof.
  unfold tag_styles. cbn [lookup].
  destruct (String.eqb "b" tag); [intros H; injection H as <-; auto|].
  destruct (String.eqb "i" tag); [intros H; injection H as <-; auto|].
  discriminate.
Qed.

Lemma handle_starttag_sound st tag attrs :
  sound st ->
  exists st',
    handle_starttag st tag attrs = Ok st' /\ sound st' /\ extends st st'.
Proof.
  intros Hsound. pose proof Hsound as [Hwf Hst].
  pose proof Hwf as (Ha & Hs & Hr). unfold handle_starttag.
  destruct (sound_top Hsound) as (ss' & top & Hss & Htop & Hok).
  destruct (String.eqb tag "a").
  { eexists. split; [reflexivity|]. split.
    - split; [|exact Hst]. unfold well_formed. simpl.
      auto using app_unit_not_nil.
    - apply extends_same_chunks; [reflexivity | simpl; lia]. }
  destruct (tag_in tag ["ul"; "ol"]).
  { match goal with
    | |- context [end_para ?s] =>
        destruct (@end_para_extends s)
          as (st' & H & Hwf' & Hsame & _ & Hext);
          [unfold well_formed; simpl; auto|]
    end.
    exists st'. split; [exact H|]. split.
    - apply sound_same with (st := st); [assumption|assumption|].
      unfold same_stacks in *. simpl in Hsame. exact Hsame.
    - destruct Hext as (x & E & F & L). exists x. auto. }
  destruct (lookup tag tag_styles) as [style|] eqn:Hlook.
  { rewrite Htop. cbn [bind]. eexists. split; [reflexivity|]. split.
    - split; [unfold well_formed; simpl; auto using app_unit_not_nil|].
      simpl. apply Forall_unit; [assumption|].
      apply set_with_styles; [assumption|].
      apply (tag_style_names _ Hlook).
    - apply extends_same_chunks; [reflexivity | simpl; lia]. }
  destruct (isheadertag tag).
  { rewrite Htop. cbn [bind]. eexists. split; [reflexivity|]. split.
    - split; [unfold well_formed; simpl; auto using app_unit_not_nil|].
      simpl. apply Forall_unit; [assumption|].
      apply set_with_styles; auto.
    - apply extends_same_chunks; [reflexivity | simpl; lia]. }
  destruct (tag_in tag ["p"; "br"]).
  { destruct (end_para_extends Hwf) as (st' & H & Hwf' & Hsame & _ & Hext).
    exists st'. split; [exact H|]. split; [|exact Hext].
    apply sound_same with (st := st); assumption. }
  destruct (String.eqb tag "img").
  { match goal with
    | |- context [match ?x with Some _ => _ | None => handle_data st _ end] =>
        destruct x as [src|]
    end.
    - match goal with
      | |- context [handle_data ?s ?alt] =>
          destruct (@handle_data_extends s alt)
            as (st' & -> & Hwf' & Hsame & _ & Hext);
            [split; [unfold well_formed; simpl; auto using app_unit_not_nil
                    | exact Hst]|]
      end.
      cbn [bind]. eexists. split; [reflexivity|].
      destruct Hwf' as (Ha' & Hs' & Hr'). destruct Hsame as (E1 & E2 & E3).
      simpl in E1, E2, E3. split.
      + split.
        * unfold well_formed. simpl. rewrite E1, removelast_last. auto.
        * simpl. rewrite E2. exact Hst.
      + destruct Hext as (x & E & F & L). exists x. auto.
    - match goal with
      | |- context [handle_data st ?alt] =>
          destruct (@handle_data_extends st alt Hsound)
            as (st' & H & Hwf' & Hsame & _ & Hext)
      end.
      exists st'. split; [exact H|]. split; [|exact Hext].
      apply sound_same with (st := st); assumption. }
  destruct (String.eqb tag "li").
  { destruct (end_list_para_extends Hwf) as (st' & H & Hwf' & Hsame & Hext).
    exists st'. split; [exact H|]. split; [|exact Hext].
    apply sound_same with (st := st); assumption. }
  destruct (tag_in tag ["style"; "script"]).
  { eexists. split; [reflexivity|]. split.
    - split; [unfold well_formed; simpl; auto | exact Hst].
    - apply extends_same_chunks; [reflexivity | simpl; lia]. }
  exists st. split; [reflexivity|]. split; [assumption | apply extends_refl].
Qed.

Lemma handle_endtag_sound st tag :
  sound st ->
  exists st', handle_endtag st tag = Ok st' /\ sound st' /\ extends st st'.
Proof.
  intros Hsound. pose proof Hsound as [Hwf Hst].
  pose proof Hwf as (Ha & Hs & Hr). unfold handle_endtag.
  destruct (String.eqb tag "a").
  { eexists. split; [reflexivity|].
    destruct (1 <? List.length (anchor_stack st)) eqn:E;
      [|split; [assumption | apply extends_refl]].
    apply Nat.ltb_lt in E. split.
    - split; [|exact Hst]. unfold well_formed. simpl.
      auto using removelast_not_nil.
    - apply extends_same_chunks; [reflexivity | simpl; lia]. }
  destruct (lookup tag tag_styles).
  { eexists. split; [reflexivity|].
    destruct (1 <? List.length (style_stack st)) eqn:E;
      [|split; [assumption | apply extends_refl]].
    apply Nat.ltb_lt in E. split.
    - split; [unfold well_formed; simpl; auto using removelast_not_nil|].
      simpl. apply Forall_removelast. exact Hst.
    - apply extends_same_chunks; [reflexivity | simpl; lia]. }
  destruct (tag_in tag ["ul"; "ol"]).
  { match goal with
    | |- context [end_para ?s] =>
        destruct (@end_para_extends s)
          as (st' & H & Hwf' & Hsame & _ & Hext)
    end.
    { destruct (0 <? List.length (list_stack st)); [|assumption].
      unfold well_formed. simpl. auto. }
    exists st'. split; [exact H|].
    destruct (0 <? List.length (list_stack st)).
    - split.
      + apply sound_same with (st := st); [assumption|assumption|].
        unfold same_stacks in *. simpl in Hsame. exact Hsame.
      + destruct Hext as (x & E & F & L). exists x. auto.
    - split; [|exact Hext]. apply sound_same with (st := st); assumption. }
  destruct (isheadertag tag).
  { match goal with
    | |- context [end_para ?s] =>
        destruct (@end_para_extends s)
          as (st' & H & Hwf' & Hsame & _ & Hext)
    end.
    { destruct (1 <? List.length (style_stack st)) eqn:E; [|assumption].
      apply Nat.ltb_lt in E. unfold well_formed. simpl.
      auto using removelast_not_nil. }
    exists st'. split; [exact H|].
    destruct (1 <? List.length (style_stack st)).
    - destruct Hsame as (E1 & E2 & E3). simpl in E1, E2, E3. split.
      + split; [assumption|]. rewrite E2. apply Forall_removelast. exact Hst.
      + destruct Hext as (x & E & F & L). exists x. auto.
    - split; [|exact Hext]. apply sound_same with (st := st); assumption. }
  destruct (tag_in tag ["style"; "script"]).
  { eexists. split; [reflexivity|]. split.
    - split; [unfold well_formed; simpl; auto | exact Hst].
    - apply extends_same_chunks; [reflexivity | simpl; lia]. }
  exists st. split; [reflexivity|]. split; [assumption | apply extends_refl].
Qed.

(** A numeric reference with a valid name is text for [handle_data]. *)
Lemma handle_charref_valid st name :
  valid_charref name = true ->
  exists text, handle_charref st name = handle_data st text.
Proof.
  unfold valid_charref, handle_charref.
  destruct name as [|c0 name1]; [discriminate|].
  intros Hv.
  assert (Hint : exists n,
             (if Ascii.eqb c0 "x" then int name1 16
              else int (String c0 name1) 10) = Ok (Z.of_N n)).
  { destruct (Ascii.eqb c0 "x").
    - destruct name1 as [|c1 name2]; [discriminate|].
      apply int_digits; [lia | discriminate | exact Hv | discriminate].
    - apply andb_prop in Hv. destruct Hv as [Hd Hl].
      apply int_digits; [lia | discriminate | exact Hd|].
      intros _. apply Nat.leb_le. exact Hl. }
  destruct Hint as (n & ->). cbn [bind].
  destruct (Z.of_N n <? 128)%Z.
  - unfold chr. replace (Z.of_N n <? 0)%Z with false
      by (symmetry; apply Z.ltb_ge; lia).
    cbn [bind]. eexists. reflexivity.
  - destruct (lookup_char (Z.of_N n) extrachars); cbn [bind];
      eexists; reflexivity.
Qed.

Lemma handle_charref_text st name st' :
  handle_charref st name = Ok st' ->
  exists text, handle_data st text = Ok st'.
Proof.
  unfold handle_charref. intros H.
  match type of H with
  | bind ?c _ = _ => destruct c as [char|]; [|discriminate]
  end.
  cbn [bind] in H.
  match type of H with
  | bind ?c _ = _ => destruct c as [text|]; [|discriminate]
  end.
  cbn [bind] in H. exists text. exact H.
Qed.

(** Every event that a handler completes leaves a sound state with the
    former chunks in place. *)
Lemma handle_sound st ev st' :
  sound st -> handle st ev = Ok st' -> sound st' /\ extends st st'.
Proof.
  intros Hsound H.
  destruct ev as [tag attrs|tag attrs|tag|data|name|name|e]; simpl in H;
    [| | | | | |discriminate].
  - destruct (@handle_starttag_sound st tag attrs Hsound) as (st1 & E & R).
    rewrite E in H. injection H as <-. exact R.
  - unfold handle_startendtag in H. destruct (tag_in tag _).
    + destruct (@handle_starttag_sound st tag attrs Hsound) as (st1 & E & R).
      rewrite E in H. injection H as <-. exact R.
    + injection H as <-. split; [assumption | apply extends_refl].
  - destruct (@handle_endtag_sound st tag Hsound) as (st1 & E & R).
    rewrite E in H. injection H as <-. exact R.
  - destruct (@handle_data_extends st data Hsound)
      as (st1 & E & Hwf & Hsame & _ & Hext).
    rewrite E in H. injection H as <-.
    split; [apply sound_same with (st := st); assumption | assumption].
  - apply handle_charref_text in H. destruct H as (text & H).
    destruct (@handle_data_extends st text Hsound)
      as (st1 & E & Hwf & Hsame & _ & Hext).
    rewrite E in H. injection H as <-.
    split; [apply sound_same with (st := st); assumption | assumption].
  - unfold handle_entityref in H.
    assert (Ht : exists text, handle_data st text = Ok st')
      by (destruct (lookup name entities); eauto).
    destruct Ht as (text & Ht).
    destruct (@handle_data_extends st text Hsound)
      as (st1 & E & Hwf & Hsame & _ & Hext).
    rewrite E in Ht. injection Ht as <-.
    split; [apply sound_same with (st := st); assumption | assumption].
Qed.

Lemma handle_total st ev :
  sound st -> ok_event ev = true -> exists st', handle st ev = Ok st'.
Proof.
  intros Hsound Hok.
  destruct ev as [tag attrs|tag attrs|tag|data|name|name|e]; simpl;
    [| | | | | |discriminate].
  - destruct (@handle_starttag_sound st tag attrs Hsound) as (st1 & E & _).
    eauto.
  - unfold handle_startendtag. destruct (tag_in tag _); [|eauto].
    destruct (@handle_starttag_sound st tag attrs Hsound) as (st1 & E & _).
    eauto.
  - destruct (@handle_endtag_sound st tag Hsound) as (st1 & E & _). eauto.
  - destruct (@handle_data_extends st data Hsound) as (st1 & E & _). eauto.
  - simpl in Hok. destruct (@handle_charref_valid st name Hok) as (text & ->).
    destruct (@handle_data_extends st text Hsound) as (st1 & E & _). eauto.
  - unfold handle_entityref. destruct (lookup name entities) as [text|].
    + destruct (@handle_data_extends st text Hsound) as (st1 & E & _). eauto.
    + match goal with
      | |- context [handle_data st ?text] =>
          destruct (@handle_data_extends st text Hsound) as (st1 & E & _)
      end.
      eauto.
Qed.

Lemma init_sound : sound init.
Proof.
  split; [apply init_wf|]. simpl. constructor; [reflexivity|constructor].
Qed.

Lemma feed_sound evs :
  forall st st', sound st -> feed st evs = Ok st' ->
                 sound st' /\ extends st st'.
Proof.
  induction evs as [|ev evs IH]; intros st st' Hs H; simpl in H.
  - injection H as <-. split; [assumption | apply extends_refl].
  - destruct (handle st ev) as [st1|] eqn:E; [|discriminate].
    cbn [bind] in H. destruct (handle_sound _ Hs E) as [Hs1 Hx1].
    destruct (IH st1 st' Hs1 H) as [Hs' Hx'].
    split; [assumption|]. apply extends_trans with st1; assumption.
Qed.

Lemma feed_total evs :
  forall st, sound st -> Forall (fun ev => ok_event ev = true) evs ->
             exists st', feed st evs = Ok st'.
Proof.
  induction evs as [|ev evs IH]; intros st Hs Hok; simpl.
  - eauto.
  - inversion Hok as [|? ? Hev Hevs]; subst.
    destruct (handle_total _ Hs Hev) as (st1 & E). rewrite E. cbn [bind].
    apply IH; [|assumption]. apply (handle_sound _ Hs E).
Qed.

End ChunkerInvariants.

Section ChunkerFacts.

Import HTML.

Lemma feed_app evs1 :
  forall st evs2,
    feed st (evs1 ++ evs2) = (st1 <- feed st evs1 ;; feed st1 evs2).
Proof.
  induction evs1 as [|ev evs1 IH]; intros st evs2; simpl; [reflexivity|].
  destruct (handle st ev) as [st1|]; cbn [bind]; [apply IH | reflexivity].
Qed.

Lemma removelast_unit (A : Type) (l : list A) (x : A) :
  removelast (l ++ [x]) = l.
Proof. apply removelast_last. Qed.

Lemma last_item_unit (A : Type) (l : list A) (x : A) :
  last_item (l ++ [x]) = Ok x.
Proof. unfold last_item. rewrite rev_unit. reflexivity. Qed.

Lemma one_lt_unit (A : Type) (l : list A) (x : A) :
  l <> [] -> (1 <? List.length (l ++ [x])) = true.
Proof.
  intros H. apply Nat.ltb_lt. rewrite length_app. simpl.
  destruct l; [contradiction | simpl; lia].
Qed.

Lemma text_event_keeps st ev :
  in_style_or_script st = true -> text_event ev = true ->
  handle st ev = Ok st.
Proof.
  intros Hin Hev.
  assert (Hd : forall text, handle_data st text = Ok st)
    by (intros text; unfold handle_data; rewrite Hin; reflexivity).
  destruct ev as [tag attrs|tag attrs|tag|data|name|name|e];
    try discriminate; simpl.
  - apply Hd.
  - destruct (@handle_charref_valid st name Hev) as (text & ->). apply Hd.
  - unfold handle_entityref. destruct (lookup name entities); apply Hd.
Qed.

Lemma text_events_keep evs :
  forall st,
    in_style_or_script st = true ->
    Forall (fun ev => text_event ev = true) evs ->
    feed st evs = Ok st.
Proof.
  induction evs as [|ev evs IH]; intros st Hin Hevs; simpl; [reflexivity|].
  inversion Hevs as [|? ? Hev Hrest]; subst.
  rewrite (@text_event_keeps st ev Hin Hev). cbn [bind]. apply IH; assumption.
Qed.

End ChunkerFacts.

(** X15.  No handler raises in a sequence of handler calls in which
    every call of [handle_charref] has a well-formed name (decimal digits,
    no more than [int] converts, or [x] and hexadecimal digits): the
    stacks, the paragraph list and the glyph table are never read out of
    range.  Exceptions of the tokenizer are another matter: [Abort] is
    not such a call. *)
Theorem feed_never_raises (evs : list HTML.event) :
  Forall (fun ev => HTML.ok_event ev = true) evs ->
  exists st, HTML.feed HTML.init evs = Ok st.
Proof.
  intros Hok. apply feed_total; [apply init_sound | exact Hok].
Qed.

Lemma feed_never_raises_witness :
  exists st,
    HTML.feed HTML.init
      [HTML.StartTag "ul" []; HTML.StartTag "li" []; HTML.Data "a  b";
       HTML.CharRef "x41"; HTML.EndTag "ul"; HTML.EndTag "b";
       HTML.CharRef "8212"]
    = Ok st.
Proof.
  apply feed_never_raises. repeat constructor.
Defined.

(** X16.  Every chunk that the chunker has produced carries markup: a
    bare text (list indentation, bullets, numbers, the joining blank) or
    a text under one of the eight style names [msgtext], [anchor] and
    their [:bold], [:italic], [:bolditalic] forms. *)
Theorem feed_chunks_have_markup (evs : list HTML.event)
    (st : HTML.HTMLChunker) :
  HTML.feed HTML.init evs = Ok st ->
  Forall (fun c => HTML.markup_ok c = true) (HTML.all_chunks st).
Proof.
  intros H. destruct (feed_sound _ init_sound H) as [_ (extra & E & F & _)].
  rewrite E. exact F.
Qed.

(** X17.  The chunker only appends: the chunks produced by a prefix of
    the events are, in order, the first chunks produced by all of them,
    and the number of paragraphs does not go down. *)
Theorem feed_keeps_chunks (evs1 evs2 : list HTML.event)
    (st1 st2 : HTML.HTMLChunker) :
  HTML.feed HTML.init evs1 = Ok st1 ->
  HTML.feed HTML.init (evs1 ++ evs2) = Ok st2 ->
  exists extra,
    HTML.all_chunks st2 = HTML.all_chunks st1 ++ extra
    /\ List.length (HTML.rval st1) <= List.length (HTML.rval st2).
Proof.
  intros H1 H2. rewrite feed_app, H1 in H2. cbn [bind] in H2.
  destruct (feed_sound _ init_sound H1) as [Hs1 _].
  destruct (feed_sound _ Hs1 H2) as [_ (extra & E & _ & L)].
  exists extra. auto.
Qed.

(** X18.  On a chunker whose stacks hold their base entries, the start
    tag of [a], [b] or [i] followed at once by its end tag leaves the
    chunker exactly as it was. *)
Theorem start_end_tag_round_trip (st : HTML.HTMLChunker) (tag : string)
    (attrs : HTML.attrs_t) :
  HTML.well_formed st ->
  tag = "a" \/ tag = "b" \/ tag = "i" ->
  HTML.feed st [HTML.StartTag tag attrs; HTML.EndTag tag] = Ok st.
Proof.
  intros (Ha & Hs & _) Htag.
  destruct (last_item_ok Hs) as (ss' & top & Hss & Htop).
  destruct Htag as [-> | [-> | ->]]; cbn [HTML.feed HTML.handle];
    unfold HTML.handle_starttag; simpl String.eqb; cbn [HTML.tag_in existsb];
    simpl String.eqb; cbn [orb HTML.lookup HTML.tag_styles];
    simpl String.eqb; try rewrite Htop; cbn [bind];
    unfold HTML.handle_endtag; simpl String.eqb;
    cbn [HTML.lookup HTML.tag_styles]; simpl String.eqb;
    cbn [HTML.set_anchor_stack HTML.set_style_stack HTML.anchor_stack
         HTML.style_stack];
    rewrite one_lt_unit by assumption;
    unfold HTML.set_anchor_stack, HTML.set_style_stack; simpl;
    rewrite removelast_unit; destruct st; reflexivity.
Qed.

Lemma start_end_tag_round_trip_witness :
  HTML.feed HTML.init [HTML.StartTag "b" []; HTML.EndTag "b"] = Ok HTML.init.
Proof.
  apply start_end_tag_round_trip.
  - unfold HTML.well_formed. simpl. repeat split; discriminate.
  - right. left. reflexivity.
Defined.

(** X19.  Whatever the state, calls of [handle_data], of
    [handle_entityref] and of [handle_charref] with a well-formed name
    between the start tag and the end tag of [style] or [script] add
    nothing: after the end tag the chunker is as before the start tag,
    with the style/script flag off. *)
Theorem style_script_content_dropped (st : HTML.HTMLChunker)
    (tag1 tag2 : string) (attrs : HTML.attrs_t) (evs : list HTML.event) :
  HTML.tag_in tag1 ["style"; "script"] = true ->
  HTML.tag_in tag2 ["style"; "script"] = true ->
  Forall (fun ev => HTML.text_event ev = true) evs ->
  HTML.feed st (HTML.StartTag tag1 attrs :: evs ++ [HTML.EndTag tag2])
  = Ok (HTML.set_in_style_or_script st false).
Proof.
  intros H1 H2 Hevs.
  assert (Hs : forall tag, HTML.tag_in tag ["style"; "script"] = true ->
                           tag = "style" \/ tag = "script").
  { intros tag H. unfold HTML.tag_in in H. simpl in H.
    apply orb_prop in H. destruct H as [H|H].
    - left. apply String.eqb_eq. exact H.
    - rewrite orb_false_r in H. right. apply String.eqb_eq. exact H. }
  assert (Hstart :
    HTML.handle st (HTML.StartTag tag1 attrs)
    = Ok (HTML.set_in_style_or_script st true))
    by (destruct (Hs _ H1) as [-> | ->]; reflexivity).
  assert (Hend : forall s,
    HTML.handle s (HTML.EndTag tag2)
    = Ok (HTML.set_in_style_or_script s false))
    by (intros s; destruct (Hs _ H2) as [-> | ->]; reflexivity).
  cbn [HTML.feed]. rewrite Hstart. cbn [bind].
  rewrite feed_app, text_events_keep by (assumption || reflexivity).
  cbn [bind HTML.feed]. rewrite Hend. reflexivity.
Qed.

Lemma style_script_content_dropped_witness :
  HTML.feed HTML.init
    (HTML.StartTag "style" []
     :: [HTML.Data "p { color: red }"; HTML.EntityRef "amp"]
     ++ [HTML.EndTag "style"])
  = Ok (HTML.set_in_style_or_script HTML.init false).
Proof.
  apply style_script_content_dropped;
    [reflexivity | reflexivity | repeat constructor].
Defined.

Lemma feed_chunks_have_markup_witness :
  Forall (fun c => HTML.markup_ok c = true)
    (HTML.all_chunks
       (HTML.Build
          [[Chunk (Styled "anchor" "see this") (Some "http://x.org");
            Chunk (Literal " ") None;
            Chunk (Styled "msgtext:bold" "now") None]]
          false false [[]; ["bold"]] [None] [] false)).
Proof.
  apply (@feed_chunks_have_markup
           [HTML.StartTag "a" [("href", Some "http://x.org")];
            HTML.Data " see  this "; HTML.EndTag "a";
            HTML.StartTag "b" []; HTML.Data "now"]).
  vm_compute. reflexivity.
Defined.

Lemma feed_keeps_chunks_witness :
  exists extra,
    HTML.all_chunks
      (HTML.Build
         [[Chunk (Styled "anchor" "see this") (Some "http://x.org");
           Chunk (Literal " ") None;
           Chunk (Styled "msgtext:bold" "now") None]]
         false false [[]; ["bold"]] [None] [] false)
    = HTML.all_chunks
        (HTML.Build
           [[Chunk (Styled "anchor" "see this") (Some "http://x.org")]]
           false true [[]] [None; Some "http://x.org"] [] false)
      ++ extra
    /\ List.length
         (HTML.rval
            (HTML.Build
               [[Chunk (Styled "anchor" "see this") (Some "http://x.org")]]
               false true [[]] [None; Some "http://x.org"] [] false))
       <= List.length
            (HTML.rval
               (HTML.Build
                  [[Chunk (Styled "anchor" "see this") (Some "http://x.org");
                    Chunk (Literal " ") None;
                    Chunk (Styled "msgtext:bold" "now") None]]
                  false false [[]; ["bold"]] [None] [] false)).
Proof.
  apply (@feed_keeps_chunks
           [HTML.StartTag "a" [("href", Some "http://x.org")];
            HTML.Data " see  this "]
           [HTML.EndTag "a"; HTML.StartTag "b" []; HTML.Data "now"]);
    vm_compute; reflexivity.
Defined.

Section ListFacts.

Import HTML.

Lemma handle_data_chunk st data acs u ss styles :
  well_formed st -> in_style_or_script st = false ->
  anchor_stack st = acs ++ [u] -> style_stack st = ss ++ [styles] ->
  exists st',
    handle_data st data = Ok st'
    /\ last_chunk st'
       = Some (Chunk
                 (Styled
                    (let style :=
                       match u with
                       | None => "msgtext"
                       | Some _ => "anchor"
                       end in
                     match styles with
                     | _ :: _ =>
                         (style ++ ":"
                          ++ String.concat EmptyString (sorted styles))%string
                     | [] => style
                     end)
                    (join " " (split data)))
                 u).
Proof.
  intros Hwf Hin Hacs Hss. unfold handle_data. rewrite Hin.
  set (st1 := match data with
              | String c _ =>
                  if isspace c then set_trailing_space st true else st
              | EmptyString => st
              end).
  assert (H1 : well_formed st1 /\ same_stacks st st1).
  { unfold st1. destruct data as [|c data]; [|destruct (isspace c)];
      unfold well_formed, same_stacks in *; simpl; tauto. }
  destruct H1 as (Hwf1 & (Ha1 & Hs1 & Hi1)).
  unfold cur_url. rewrite Ha1, Hs1, Hacs, Hss, !last_item_unit. cbn [bind].
  match goal with
  | |- context [add_chunk st1 ?c] =>
      destruct (add_chunk_spec c Hwf1) as (st' & -> & Hwf' & Hsame' & Hlast)
  end.
  cbn [bind]. eexists. split; [reflexivity|].
  unfold last_chunk in *. simpl. exact Hlast.
Qed.

Lemma match_unit (X Y : Type) (l : list X) (x : X) (a b : Y) :
  match l ++ [x] with
  | _ :: _ => a
  | [] => b
  end = a.
Proof. destruct l; reflexivity. Qed.

Lemma text_event_data st ev :
  text_event ev = true -> exists text, handle st ev = handle_data st text.
Proof.
  intros Hev.
  destruct ev as [tag attrs|tag attrs|tag|data|name|name|e];
    try discriminate; simpl.
  - eauto.
  - apply handle_charref_valid. exact Hev.
  - unfold handle_entityref. destruct (lookup name entities); eauto.
Qed.

(** Text leaves the three stacks as they are. *)
Lemma texts_run evs :
  forall st,
    sound st -> Forall (fun ev => text_event ev = true) evs ->
    exists st',
      feed st evs = Ok st' /\ sound st' /\ same_stacks st st'
      /\ list_stack st' = list_stack st.
Proof.
  induction evs as [|ev evs IH]; intros st Hs Hevs; simpl.
  - exists st. unfold same_stacks. tauto.
  - inversion Hevs as [|? ? Hev Hrest]; subst.
    destruct (@text_event_data st ev Hev) as (text & ->).
    destruct (@handle_data_extends st text Hs)
      as (st1 & -> & Hwf1 & Hsame1 & Hl1 & _).
    cbn [bind].
    destruct (IH st1 (sound_same Hs Hwf1 Hsame1) Hrest)
      as (st' & H & Hs' & Hsame' & Hl').
    exists st'. split; [exact H|]. split; [exact Hs'|]. split.
    + apply same_stacks_trans with st1; assumption.
    + congruence.
Qed.

(** An item of a list that is not a [ul] list: the number of the item,
    and the counter goes up. *)
Lemma numbered_item st attrs ls tag n :
  well_formed st -> list_stack st = ls ++ [(tag, n)] ->
  String.eqb tag "ul" = false ->
  exists st' u,
    handle_starttag st "li" attrs = Ok st' /\ well_formed st'
    /\ same_stacks st st' /\ list_stack st' = ls ++ [(tag, n + 1)]
    /\ cur_url st = Ok u
    /\ last_chunk st' = Some (Chunk (Literal (decimal2 n ++ ".")%string) u).
Proof.
  intros Hwf Hls Htag.
  change (handle_starttag st "li" attrs) with (end_list_para st).
  unfold end_list_para.
  set (st1 := if at_para_start st then set_rval st (rval st ++ [[]])
              else st).
  assert (H1 : well_formed st1 /\ same_stacks st st1
               /\ list_stack st1 = list_stack st).
  { destruct Hwf as (Ha & Hs & Hr). unfold well_formed, same_stacks, st1.
    destruct (at_para_start st) eqn:E; simpl; rewrite ?E;
      repeat split; auto using app_unit_not_nil. }
  destruct H1 as (Hwf1 & Hsame1 & Hl1).
  rewrite Hl1, Hls, match_unit, last_item_unit. cbn [bind].
  rewrite Htag, removelast_unit.
  destruct (last_item_ok (proj1 Hwf1)) as (acs & u & Hacs & Hu).
  unfold cur_url at 1. cbn [anchor_stack set_list_stack]. rewrite Hu.
  cbn [bind].
  match goal with
  | |- context [add_chunk ?s ?c] =>
      destruct (@add_chunk_extends s c)
        as (st' & -> & Hwf' & Hsame' & Hl' & _ & Hlast);
        [destruct Hwf1 as (? & ? & ?); unfold well_formed; simpl; auto
        | reflexivity |]
  end.
  exists st', u. split; [reflexivity|]. split; [exact Hwf'|]. split.
  - apply same_stacks_trans with st1; [assumption|].
    unfold same_stacks in *. simpl in Hsame'. exact Hsame'.
  - split; [exact Hl'|]. split; [|exact Hlast].
    unfold cur_url. destruct Hsame1 as (<- & _). exact Hu.
Qed.

Lemma numbered_items items :
  forall st ls n,
    sound st -> list_stack st = ls ++ [("ol", n)] ->
    Forall (fun it => Forall (fun ev => text_event ev = true) (snd it))
      items ->
    exists st',
      feed st (flat_map (fun it => StartTag "li" (fst it) :: snd it) items)
      = Ok st'
      /\ sound st' /\ same_stacks st st'
      /\ list_stack st' = ls ++ [("ol", n + List.length items)].
Proof.
  induction items as [|[attrs texts] items IH]; intros st ls n Hs Hls Hit.
  - exists st. simpl. rewrite Nat.add_0_r. unfold same_stacks. tauto.
  - inversion Hit as [|? ? Htexts Hrest]; subst. simpl in Htexts.
    cbn [flat_map fst snd]. rewrite <- app_comm_cons. cbn [feed handle].
    destruct (@numbered_item st attrs ls "ol" n (proj1 Hs) Hls eq_refl)
      as (st1 & u & -> & Hwf1 & Hsame1 & Hl1 & _ & _).
    cbn [bind]. rewrite feed_app.
    destruct (@texts_run texts st1 (sound_same Hs Hwf1 Hsame1) Htexts)
      as (st2 & -> & Hs2 & Hsame2 & Hl2).
    cbn [bind]. rewrite Hl1 in Hl2.
    destruct (IH st2 ls (n + 1) Hs2 Hl2 Hrest)
      as (st' & H & Hs' & Hsame' & Hl').
    exists st'. split; [exact H|]. split; [exact Hs'|]. split.
    + apply same_stacks_trans with st2; [|assumption].
      apply same_stacks_trans with st1; assumption.
    + rewrite Hl'. simpl. do 3 f_equal. lia.
Qed.

(** ** [str.split] and [str.join] *)

Lemma all_chars_app p a b :
  all_chars p (a ++ b)%string = all_chars p a && all_chars p b.
Proof.
  induction a as [|c a IH]; simpl; [reflexivity|].
  rewrite IH, andb_assoc. reflexivity.
Qed.

Lemma split_ws_word w :
  forall rest acc,
    all_chars (fun c => negb (isspace c)) w = true ->
    split_ws (w ++ rest)%string acc = split_ws rest (acc ++ w)%string.
Proof.
  induction w as [|c w IH]; intros rest acc Hw; simpl.
  - rewrite append_nil_r. reflexivity.
  - simpl in Hw. apply andb_prop in Hw. destruct Hw as [Hc Hw].
    apply negb_true_iff in Hc. rewrite Hc, IH by assumption.
    rewrite append_assoc. reflexivity.
Qed.

Lemma split_join ws : Forall ws_word ws -> split (join " " ws) = ws.
Proof.
  unfold split. induction ws as [|w ws IH]; intros Hws; [reflexivity|].
  inversion Hws as [|? ? [Hne Hw] Hrest]; subst.
  destruct ws as [|w' ws].
  - simpl. rewrite <- (append_nil_r w) at 1.
    rewrite split_ws_word by assumption. simpl.
    destruct w; [contradiction | reflexivity].
  - change (join " " (w :: w' :: ws))
      with (w ++ String " " (join " " (w' :: ws)))%string.
    rewrite split_ws_word by assumption.
    change (EmptyString ++ w)%string with w.
    change (split_ws (String " " (join " " (w' :: ws))) w)
      with (match w with
            | EmptyString => split_ws (join " " (w' :: ws)) EmptyString
            | _ => w :: split_ws (join " " (w' :: ws)) EmptyString
            end).
    rewrite (IH Hrest). destruct w; [contradiction | reflexivity].
Qed.

Lemma split_ws_words s :
  forall acc,
    all_chars (fun c => negb (isspace c)) acc = true ->
    Forall ws_word (split_ws s acc).
Proof.
  induction s as [|c s IH]; intros acc Hacc; simpl.
  - destruct acc; constructor; [|constructor]. split; [discriminate|assumption].
  - destruct (isspace c) eqn:Hc.
    + destruct acc.
      * apply IH. reflexivity.
      * constructor; [split; [discriminate|assumption]|]. apply IH.
        reflexivity.
    + apply IH. rewrite all_chars_app, Hacc. simpl. rewrite Hc. reflexivity.
Qed.

Lemma split_words s : Forall ws_word (split s).
Proof. apply split_ws_words. reflexivity. Qed.

End ListFacts.

(** X20.  The innermost anchor decides.  Text that follows the start tag
    of an anchor becomes a chunk with the [href] of that tag as its link,
    also when the tag has no [href] and stands inside another link; the
    style name starts with [anchor] with a link and with [msgtext]
    without one, and the text is the words of the data joined by single
    blanks. *)
Theorem anchor_text_takes_href (st : HTML.HTMLChunker)
    (attrs : HTML.attrs_t) (data : string) :
  HTML.well_formed st -> HTML.in_style_or_script st = false ->
  exists st' style,
    HTML.feed st [HTML.StartTag "a" attrs; HTML.Data data] = Ok st'
    /\ HTML.last_chunk st'
       = Some (Chunk (Styled style (join " " (split data)))
                 (HTML.findattr attrs "href"))
    /\ String.prefix
         match HTML.findattr attrs "href" with
         | Some _ => "anchor"
         | None => "msgtext"
         end style = true.
Proof.
  intros Hwf Hin. destruct Hwf as (Ha & Hs & Hr).
  destruct (last_item_ok Hs) as (ss & styles & Hss & _).
  cbn [HTML.feed HTML.handle].
  change (HTML.handle_starttag st "a" attrs)
    with (Ok (HTML.set_anchor_stack st
                (HTML.anchor_stack st ++ [HTML.findattr attrs "href"]))).
  cbn [bind].
  match goal with
  | |- context [HTML.handle_data ?s data] =>
      destruct (@handle_data_chunk s data (HTML.anchor_stack st)
                  (HTML.findattr attrs "href") ss styles)
        as (st' & -> & Hlast);
        [unfold HTML.well_formed; simpl; auto using app_unit_not_nil
        | exact Hin | reflexivity | exact Hss |]
  end.
  cbn [bind]. eexists. eexists. split; [reflexivity|].
  split; [exact Hlast|].
  destruct (HTML.findattr attrs "href"); destruct styles; reflexivity.
Qed.

Lemma anchor_text_takes_href_witness :
  exists st' style,
    HTML.feed
      (HTML.Build [] true false [[]] [None; Some "http://x.org"] [] false)
      [HTML.StartTag "a" [("name", Some "top")]; HTML.Data "up"] = Ok st'
    /\ HTML.last_chunk st'
       = Some (Chunk (Styled style (join " " (split "up")))
                 (HTML.findattr [("name", Some "top")] "href"))
    /\ String.prefix
         match HTML.findattr [("name", Some "top")] "href" with
         | Some _ => "anchor"
         | None => "msgtext"
         end style = true.
Proof.
  apply anchor_text_takes_href.
  - unfold HTML.well_formed. simpl. repeat split; discriminate.
  - reflexivity.
Defined.

(** X21.  The items of an ordered list are numbered from 1.  In any state
    that a parse has reached, after the start tag of [ol] and a number of
    items, each an [li] start tag followed by calls of [handle_data],
    [handle_entityref] and [handle_charref] with a well-formed name, the
    next [li] start tag adds the chunk ["%2d."] of the number of items so
    far plus one, with the link of the anchor that was open before the
    list. *)
Theorem ordered_list_numbering (evs0 : list HTML.event)
    (st : HTML.HTMLChunker) (attrs attrs' : HTML.attrs_t)
    (items : list (HTML.attrs_t * list HTML.event)) :
  HTML.feed HTML.init evs0 = Ok st ->
  Forall (fun it => Forall (fun ev => HTML.text_event ev = true) (snd it))
    items ->
  exists st' u,
    HTML.feed st
      (HTML.StartTag "ol" attrs
       :: flat_map (fun it => HTML.StartTag "li" (fst it) :: snd it) items
       ++ [HTML.StartTag "li" attrs'])
    = Ok st'
    /\ HTML.cur_url st = Ok u
    /\ HTML.last_chunk st'
       = Some (Chunk
                 (Literal (decimal2 (List.length items + 1) ++ ".")%string)
                 u).
Proof.
  intros Hrun Hitems.
  destruct (feed_sound _ init_sound Hrun) as [Hs _].
  cbn [HTML.feed HTML.handle].
  change (HTML.handle_starttag st "ol" attrs)
    with (HTML.end_para
            (HTML.set_list_stack st (HTML.list_stack st ++ [("ol", 1)]))).
  match goal with
  | |- context [HTML.end_para ?s] =>
      destruct (@end_para_extends s)
        as (st1 & -> & Hwf1 & Hsame1 & Hl1 & _);
        [destruct Hs as [(? & ? & ?) _]; unfold HTML.well_formed; simpl; auto|]
  end.
  cbn [bind]. rewrite feed_app.
  assert (Hs1 : HTML.sound st1).
  { apply sound_same with (st := st); [assumption|assumption|].
    unfold HTML.same_stacks in *. simpl in Hsame1. exact Hsame1. }
  simpl in Hl1.
  destruct (@numbered_items items st1 (HTML.list_stack st) 1 Hs1 Hl1 Hitems)
    as (st2 & -> & Hs2 & Hsame2 & Hl2).
  cbn [bind HTML.feed HTML.handle].
  destruct (@numbered_item st2 attrs' (HTML.list_stack st) "ol"
              (1 + List.length items) (proj1 Hs2) Hl2 eq_refl)
    as (st' & u & -> & _ & _ & _ & Hu & Hlast).
  cbn [bind]. exists st', u. split; [reflexivity|]. split.
  - unfold HTML.cur_url in *. destruct Hsame2 as (E2 & _).
    destruct Hsame1 as (E1 & _). simpl in E1. rewrite <- E1, <- E2. exact Hu.
  - rewrite Nat.add_comm. exact Hlast.
Qed.

Lemma ordered_list_numbering_witness :
  exists st' u,
    HTML.feed HTML.init
      (HTML.StartTag "ol" []
       :: flat_map (fun it => HTML.StartTag "li" (fst it) :: snd it)
            [([], [HTML.Data "one"]); ([], [HTML.Data "two"])]
       ++ [HTML.StartTag "li" []])
    = Ok st'
    /\ HTML.cur_url HTML.init = Ok u
    /\ HTML.last_chunk st'
       = Some (Chunk
                 (Literal
                    (decimal2
                       (List.length
                          [(@nil (string * option string), [HTML.Data "one"]);
                           ([], [HTML.Data "two"])] + 1) ++ ".")%string)
                 u).
Proof.
  apply (@ordered_list_numbering []); [reflexivity | repeat constructor].
Defined.

(** X22.  The text of a chunk that [handle_data] adds is normalised: it
    has the words of the data, and joining its own words by single blanks
    gives the text back. *)
Theorem handle_data_text_normalised (st : HTML.HTMLChunker) (data : string) :
  HTML.well_formed st -> HTML.in_style_or_script st = false ->
  exists st' style u text,
    HTML.handle_data st data = Ok st'
    /\ HTML.last_chunk st' = Some (Chunk (Styled style text) u)
    /\ split text = split data
    /\ join " " (split text) = text.
Proof.
  intros Hwf Hin.
  destruct (handle_data_spec data Hwf Hin)
    as (st' & style & u & H & _ & _ & _ & Hlast).
  exists st', style, u, (join " " (split data)).
  split; [exact H|]. split; [exact Hlast|].
  rewrite (split_join (split_words data)). auto.
Qed.

Lemma handle_data_text_normalised_witness :
  exists st' style u text,
    HTML.handle_data HTML.init "  two   words " = Ok st'
    /\ HTML.last_chunk st' = Some (Chunk (Styled style text) u)
    /\ split text = split "  two   words "
    /\ join " " (split text) = text.
Proof.
  apply handle_data_text_normalised.
  - unfold HTML.well_formed. simpl. repeat split; discriminate.
  - reflexivity.
Defined.

Section LinkFacts.

Import HTML.

Variable U : list string.

Lemma last_item_inv (X : Type) (l : list X) (x : X) :
  last_item l = Ok x -> exists l', l = l' ++ [x].
Proof.
  unfold last_item. intros H. destruct (rev l) as [|y l'] eqn:E;
    [discriminate|].
  injection H as ->. exists (rev l').
  rewrite <- (rev_involutive l), E. reflexivity.
Qed.

Lemma cur_url_linked st u :
  linked U st -> cur_url st = Ok u -> url_in U u.
Proof.
  intros [Ha _] H. apply last_item_inv in H. destruct H as (l' & E).
  rewrite E in Ha. apply Forall_app in Ha. destruct Ha as [_ Ha].
  inversion Ha. assumption.
Qed.

Lemma linked_same st st' :
  linked U st -> anchor_stack st' = anchor_stack st ->
  all_chunks st' = all_chunks st -> linked U st'.
Proof. intros [Ha Hc] Ea Ec. split; congruence. Qed.

Lemma append_to_last_linked st c st' :
  linked U st -> url_in U (url c) -> append_to_last st c = Ok st' ->
  linked U st' /\ anchor_stack st' = anchor_stack st.
Proof.
  intros [Ha Hc] Hu H. unfold append_to_last in H.
  destruct (last_item (rval st)) as [para|] eqn:El; [|discriminate].
  cbn [bind] in H. injection H as <-.
  apply last_item_inv in El. destruct El as (rv' & El).
  split; [|reflexivity]. split; [exact Ha|].
  unfold all_chunks in *. simpl. rewrite El in *.
  rewrite removelast_last, concat_unit.
  rewrite concat_unit in Hc. rewrite app_assoc.
  apply Forall_app. split; [exact Hc|]. constructor; [exact Hu|constructor].
Qed.

Lemma add_chunk_linked st c st' :
  linked U st -> url_in U (url c) -> add_chunk st c = Ok st' ->
  linked U st' /\ anchor_stack st' = anchor_stack st.
Proof.
  intros Hl Hu H. unfold add_chunk in H.
  match type of H with
  | bind ?m _ = _ =>
      assert (H1 : forall s, m = Ok s ->
                linked U s /\ anchor_stack s = anchor_stack st)
  end.
  { intros s Hs. destruct (at_para_start st).
    - injection Hs as <-. split; [|reflexivity].
      apply linked_same with st; [assumption | reflexivity|].
      unfold all_chunks. simpl. rewrite concat_unit, app_nil_r. reflexivity.
    - destruct (trailing_space st).
      + destruct (cur_url st) as [u|] eqn:Eu; [|discriminate].
        cbn [bind] in Hs.
        apply (@append_to_last_linked st (Chunk (Literal " ") u) s Hl
                 (@cur_url_linked st u Hl Eu) Hs).
      + injection Hs as <-. auto. }
  match type of H with
  | bind ?m _ = _ => destruct m as [s|]; [|discriminate]
  end.
  destruct (H1 s eq_refl) as [Hl1 Ea1]. cbn [bind] in H.
  destruct (append_to_last s c) as [s2|] eqn:E2; [|discriminate].
  cbn [bind] in H. injection H as <-.
  destruct (@append_to_last_linked s c s2 Hl1 Hu E2) as [Hl2 Ea2].
  split; [|simpl; congruence].
  apply linked_same with s2; [assumption | reflexivity | reflexivity].
Qed.

Lemma end_para_linked st st' :
  linked U st -> end_para st = Ok st' ->
  linked U st' /\ anchor_stack st' = anchor_stack st.
Proof.
  intros Hl H. unfold end_para in H.
  set (st1 := set_trailing_space
                (if at_para_start st then set_rval st (rval st ++ [[]])
                 else set_at_para_start st true) false) in H.
  assert (H1 : linked U st1 /\ anchor_stack st1 = anchor_stack st).
  { unfold st1. destruct (at_para_start st); (split; [|reflexivity]);
      apply linked_same with st; try assumption; try reflexivity.
    unfold all_chunks. simpl. rewrite concat_unit, app_nil_r. reflexivity. }
  destruct H1 as [Hl1 Ea1].
  destruct (list_stack st1).
  - injection H as <-. auto.
  - destruct (cur_url st1) as [u|] eqn:Eu; [|discriminate].
    cbn [bind] in H.
    match type of H with
    | add_chunk _ ?c = _ =>
        destruct (@add_chunk_linked st1 c st' Hl1
                    (@cur_url_linked st1 u Hl1 Eu) H)
          as [Hl' Ea']
    end.
    split; [assumption | congruence].
Qed.

Lemma end_list_para_linked st st' :
  linked U st -> end_list_para st = Ok st' ->
  linked U st' /\ anchor_stack st' = anchor_stack st.
Proof.
  intros Hl H. unfold end_list_para in H.
  set (st1 := if at_para_start st then set_rval st (rval st ++ [[]])
              else st) in H.
  assert (H1 : linked U st1 /\ anchor_stack st1 = anchor_stack st).
  { unfold st1. destruct (at_para_start st); (split; [|reflexivity]);
      [|assumption].
    apply linked_same with st; try assumption; try reflexivity.
    unfold all_chunks. simpl. rewrite concat_unit, app_nil_r. reflexivity. }
  destruct H1 as [Hl1 Ea1].
  destruct (list_stack st1) eqn:Els.
  - destruct (@end_para_linked st1 st' Hl1 H) as [Hl' Ea'].
    split; [assumption | congruence].
  - destruct (last_item (p :: l)) as [[tag counter]|]; [|discriminate].
    cbn [bind] in H. destruct (String.eqb tag "ul").
    + destruct (nth_error ul_tags _) as [glyph|]; [|discriminate].
      cbn [bind] in H.
      destruct (cur_url st1) as [u|] eqn:Eu; [|discriminate].
      cbn [bind] in H.
      match type of H with
      | add_chunk _ ?c = _ =>
          destruct (@add_chunk_linked st1 c st' Hl1
                      (@cur_url_linked st1 u Hl1 Eu) H)
            as [Hl' Ea']
      end.
      split; [assumption | congruence].
    + match type of H with
      | bind (cur_url ?s) _ = _ =>
          assert (Hl2 : linked U s)
            by (apply linked_same with st1; auto);
          destruct (cur_url s) as [u|] eqn:Eu; [|discriminate];
          cbn [bind] in H;
          match type of H with
          | add_chunk _ ?c = _ =>
              destruct (@add_chunk_linked s c st' Hl2
                          (@cur_url_linked s u Hl2 Eu) H)
                as [Hl' Ea']
          end
      end.
      split; [assumption|]. rewrite Ea'. simpl. exact Ea1.
Qed.

Lemma handle_data_linked st data st' :
  linked U st -> handle_data st data = Ok st' ->
  linked U st' /\ anchor_stack st' = anchor_stack st.
Proof.
  intros Hl H. unfold handle_data in H.
  destruct (in_style_or_script st); [injection H as <-; auto|].
  set (st1 := match data with
              | String c _ =>
                  if isspace c then set_trailing_space st true else st
              | EmptyString => st
              end) in H.
  assert (H1 : linked U st1 /\ anchor_stack st1 = anchor_stack st).
  { unfold st1. destruct data as [|c data]; [auto|].
    destruct (isspace c); [|auto]. split; [|reflexivity].
    apply linked_same with st; auto. }
  destruct H1 as [Hl1 Ea1].
  destruct (last_item (anchor_stack st1)) as [top|]; [|discriminate].
  cbn [bind] in H.
  destruct (last_item (style_stack st1)) as [styles|]; [|discriminate].
  cbn [bind] in H.
  destruct (cur_url st1) as [u|] eqn:Eu; [|discriminate].
  cbn [bind] in H.
  match type of H with
  | bind (add_chunk st1 ?c) _ = _ =>
      destruct (add_chunk st1 c) as [s2|] eqn:E2; [|discriminate];
      destruct (@add_chunk_linked st1 c s2 Hl1 (@cur_url_linked st1 u Hl1 Eu)
                  E2)
        as [Hl2 Ea2]
  end.
  cbn [bind] in H. injection H as <-. split; [|simpl; congruence].
  apply linked_same with s2; auto.
Qed.

Lemma linked_push st u :
  linked U st -> url_in U u ->
  linked U (set_anchor_stack st (anchor_stack st ++ [u])).
Proof.
  intros [Ha Hc] Hu. split; [|exact Hc]. simpl.
  apply Forall_app. split; [exact Ha|]. constructor; [exact Hu|constructor].
Qed.

Lemma linked_pop st :
  linked U st -> linked U (set_anchor_stack st (removelast (anchor_stack st))).
Proof.
  intros [Ha Hc]. split; [|exact Hc]. simpl.
  destruct (anchor_stack st) as [|x l] using rev_ind; [exact Ha|].
  rewrite removelast_last. apply Forall_app in Ha. tauto.
Qed.

Lemma image_link_external attrs src :
  findattr attrs "src" = Some src -> external src = true ->
  image_link attrs = [src].
Proof. intros E H. unfold image_link. rewrite E, H. reflexivity. Qed.

Lemma handle_starttag_linked st tag attrs st' :
  linked U st -> incl (links_of (StartTag tag attrs)) U ->
  handle_starttag st tag attrs = Ok st' -> linked U st'.
Proof.
  intros Hl Hin H. unfold handle_starttag in H. cbn [links_of] in Hin.
  destruct (String.eqb tag "a").
  { injection H as <-. apply linked_push; [assumption|].
    destruct (findattr attrs "href") as [u|]; [|exact I].
    apply Hin. left. reflexivity. }
  destruct (tag_in tag ["ul"; "ol"]).
  { apply end_para_linked in H; [tauto|].
    apply linked_same with st; auto. }
  destruct (lookup tag tag_styles).
  { destruct (last_item (style_stack st)); [|discriminate].
    cbn [bind] in H. injection H as <-. apply linked_same with st; auto. }
  destruct (isheadertag tag).
  { destruct (last_item (style_stack st)); [|discriminate].
    cbn [bind] in H. injection H as <-. apply linked_same with st; auto. }
  destruct (tag_in tag ["p"; "br"]).
  { apply end_para_linked in H; tauto. }
  destruct (String.eqb tag "img").
  { destruct (findattr attrs "src") as [src|] eqn:Esrc.
    - destruct (external src) eqn:Eext.
      + rewrite (@image_link_external attrs src Esrc Eext) in Hin.
        match type of H with
        | bind (handle_data ?s ?alt) _ = _ =>
            destruct (handle_data s alt) as [s2|] eqn:E2; [|discriminate];
            apply handle_data_linked in E2;
            [|apply linked_push; [assumption | apply Hin; left; reflexivity]]
        end.
        cbn [bind] in H. injection H as <-. apply linked_pop. tauto.
      + apply handle_data_linked in H; tauto.
    - apply handle_data_linked in H; tauto. }
  destruct (String.eqb tag "li").
  { apply end_list_para_linked in H; tauto. }
  destruct (tag_in tag ["style"; "script"]); injection H as <-;
    [apply linked_same with st; auto | assumption].
Qed.

Lemma handle_endtag_linked st tag st' :
  linked U st -> handle_endtag st tag = Ok st' -> linked U st'.
Proof.
  intros Hl H. unfold handle_endtag in H.
  destruct (String.eqb tag "a").
  { injection H as <-. destruct (1 <? _); [apply linked_pop|]; assumption. }
  destruct (lookup tag tag_styles).
  { injection H as <-. destruct (1 <? _); [|assumption].
    apply linked_same with st; auto. }
  destruct (tag_in tag ["ul"; "ol"]).
  { apply end_para_linked in H; [tauto|].
    destruct (0 <? _); [|assumption]. apply linked_same with st; auto. }
  destruct (isheadertag tag).
  { apply end_para_linked in H; [tauto|].
    destruct (1 <? _); [|assumption]. apply linked_same with st; auto. }
  destruct (tag_in tag ["style"; "script"]); injection H as <-;
    [apply linked_same with st; auto | assumption].
Qed.

Lemma handle_linked st ev st' :
  linked U st -> incl (links_of ev) U -> handle st ev = Ok st' ->
  linked U st'.
Proof.
  intros Hl Hin H.
  destruct ev as [tag attrs|tag attrs|tag|data|name|name|e]; simpl in H;
    [| | | | | |discriminate].
  - apply (@handle_starttag_linked st tag attrs st' Hl Hin H).
  - unfold handle_startendtag in H.
    destruct (tag_in tag ["p"; "br"; "li"; "img"]) eqn:Et;
      [|injection H as <-; assumption].
    apply (@handle_starttag_linked st tag attrs st' Hl); [|exact H].
    cbn [links_of] in *.
    destruct (String.eqb tag "a") eqn:Ea; [|exact Hin].
    apply String.eqb_eq in Ea. subst tag. discriminate.
  - apply (@handle_endtag_linked st tag st' Hl H).
  - apply handle_data_linked in H; tauto.
  - apply handle_charref_text in H. destruct H as (text & H).
    apply handle_data_linked in H; tauto.
  - unfold handle_entityref in H.
    destruct (lookup name entities); apply handle_data_linked in H; tauto.
Qed.

Lemma feed_linked evs :
  forall st st',
    linked U st -> Forall (fun ev => incl (links_of ev) U) evs ->
    feed st evs = Ok st' -> linked U st'.
Proof.
  induction evs as [|ev evs IH]; intros st st' Hl Hevs H; simpl in H.
  - injection H as <-. assumption.
  - inversion Hevs as [|? ? Hev Hrest]; subst.
    destruct (handle st ev) as [st1|] eqn:E; [|discriminate].
    cbn [bind] in H.
    apply (IH st1 st' (@handle_linked st ev st1 Hl Hev E) Hrest H).
Qed.

End LinkFacts.

Section HtmlDriverFacts.

Lemma somechunkisurl_false para :
  Drivers.somechunkisurl para = false
  <-> Forall (fun c => Drivers.has_url c = false) para.
Proof.
  unfold Drivers.somechunkisurl. induction para as [|c para IH]; simpl.
  - split; [constructor | reflexivity].
  - rewrite orb_false_iff, IH. split.
    + intros [H1 H2]. constructor; assumption.
    + intros H. inversion H. auto.
Qed.

End HtmlDriverFacts.

(** X23.  The chunker invents no link.  Every link of a chunk is the
    [href] of the start tag of an anchor or the external [src] of an
    image among the events of the parse. *)
Theorem feed_links_from_events (evs : list HTML.event)
    (st : HTML.HTMLChunker) (c : chunk) (u : string) :
  HTML.feed HTML.init evs = Ok st ->
  In c (HTML.all_chunks st) -> url c = Some u ->
  In u (flat_map HTML.links_of evs).
Proof.
  intros Hrun Hc Hu.
  assert (Hl : HTML.linked (flat_map HTML.links_of evs) st).
  { apply (@feed_linked (flat_map HTML.links_of evs) evs HTML.init st).
    - split; [|constructor]. simpl. constructor; [exact I|constructor].
    - apply Forall_forall. intros ev Hev x Hx. apply in_flat_map.
      exists ev. auto.
    - exact Hrun. }
  destruct Hl as [_ Hl]. rewrite Forall_forall in Hl.
  specialize (Hl c Hc). rewrite Hu in Hl. exact Hl.
Qed.

Lemma feed_links_from_events_witness :
  In "http://x.org"
    (flat_map HTML.links_of
       [HTML.StartTag "a" [("href", Some "http://x.org")];
        HTML.Data " see  this "; HTML.EndTag "a";
        HTML.StartTag "b" []; HTML.Data "now"]).
Proof.
  apply (@feed_links_from_events _
           (HTML.Build
              [[Chunk (Styled "anchor" "see this") (Some "http://x.org");
                Chunk (Literal " ") None;
                Chunk (Styled "msgtext:bold" "now") None]]
              false false [[]; ["bold"]] [None] [] false)
           (Chunk (Styled "anchor" "see this") (Some "http://x.org"))).
  - vm_compute. reflexivity.
  - left. reflexivity.
  - reflexivity.
Defined.

(** X24.  When the tokenizer does not raise on the message and calls
    [handle_charref], if at all, with well-formed names only,
    [extracthtmlurls] does not raise and returns windows, and every window
    holds a paragraph with a chunk that has a link. *)
Theorem extracthtmlurls_windows_hold_links
    (calls : string -> list HTML.event) (mesg : string)
    (regex : option Re.pattern) :
  Forall (fun ev => HTML.ok_event ev = true) (calls mesg) ->
  exists ws,
    Drivers.extracthtmlurls calls mesg regex = Ok (Some ws)
    /\ forall l usedfirst usedlast,
         In (l, usedfirst, usedlast) ws ->
         exists para c,
           In para l /\ In c para /\ Drivers.has_url c = true.
Proof.
  intros Hok. unfold Drivers.extracthtmlurls.
  destruct (@feed_total (calls mesg) HTML.init init_sound Hok) as (st & ->).
  cbn [bind].
  destruct (@result_chain _ (HTML.rval st) Drivers.somechunkisurl 1 1)
    as (rs & -> & Hc & Hq).
  eexists. split; [reflexivity|].
  intros l uf ul Hin. apply in_map_iff in Hin.
  destruct Hin as ([a b] & Hw & Hin). injection Hw as <- <- <-.
  destruct (@chain_in _ (HTML.rval st) Drivers.somechunkisurl 1 1 0 rs (a, b)
              Hc Hin)
    as (p' & m & t & H).
  simpl in H. decompose [and] H. clear H.
  match goal with
  | Hm : Extractor.pred_at _ _ m = true |- _ =>
      apply pred_at_nth in Hm; destruct Hm as (para & Ex & Hx)
  end.
  apply existsb_exists in Hx. destruct Hx as (c & Hc' & Hu).
  exists para, c. split; [|auto].
  apply (@nth_error_In _ _ (m - a)).
  rewrite slice_nth by lia. replace (a + (m - a)) with m by lia. exact Ex.
Qed.

Lemma extracthtmlurls_windows_hold_links_witness :
  exists ws,
    Drivers.extracthtmlurls
      (fun _ => [HTML.StartTag "a" [("href", Some "http://x.org")];
                 HTML.Data "x"]) "<a href=http://x.org>x" None
    = Ok (Some ws)
    /\ forall l usedfirst usedlast,
         In (l, usedfirst, usedlast) ws ->
         exists para c,
           In para l /\ In c para /\ Drivers.has_url c = true.
Proof.
  apply extracthtmlurls_windows_hold_links. repeat constructor.
Defined.

(** X25.  For a message that the chunker parses, [extracthtmlurls]
    returns no window exactly when no chunk of the parse has a link. *)
Theorem extracthtmlurls_empty_iff (calls : string -> list HTML.event)
    (mesg : string) (regex : option Re.pattern) (st : HTML.HTMLChunker) :
  HTML.feed HTML.init (calls mesg) = Ok st ->
  Drivers.extracthtmlurls calls mesg regex = Ok (Some [])
  <-> Forall (fun c => Drivers.has_url c = false) (HTML.all_chunks st).
Proof.
  intros Hrun. unfold Drivers.extracthtmlurls, HTML.all_chunks.
  rewrite Hrun. cbn [bind]. rewrite Forall_concat. split; intros H.
  - injection H as H. apply extract_nil_iff in H.
    eapply Forall_impl; [|exact H]. intros para. apply somechunkisurl_false.
  - f_equal. apply extract_nil_iff.
    eapply Forall_impl; [|exact H]. intros para. apply somechunkisurl_false.
Qed.

Lemma extracthtmlurls_empty_iff_witness :
  Drivers.extracthtmlurls (fun _ => [HTML.Data "no link"]) "no link" None
  = Ok (Some [])
  <-> Forall (fun c => Drivers.has_url c = false)
        (HTML.all_chunks
           (HTML.Build [[Chunk (Styled "msgtext" "no link") None]]
              false false [[]] [None] [] false)).
Proof.
  apply extracthtmlurls_empty_iff. vm_compute. reflexivity.
Defined.

Section NestingFacts.

Import HTML.

Lemma same_nesting_refl st : same_nesting st st.
Proof. unfold same_nesting. auto. Qed.

Lemma same_nesting_trans st1 st2 st3 :
  same_nesting st1 st2 -> same_nesting st2 st3 -> same_nesting st1 st3.
Proof.
  unfold same_nesting. intros (A1 & S1 & L1) (A2 & S2 & L2).
  repeat split; congruence.
Qed.

Lemma same_stacks_nesting st st' :
  same_stacks st st' -> list_stack st' = list_stack st ->
  same_nesting st st'.
Proof.
  unfold same_stacks, same_nesting. intros (A & S & _) L.
  rewrite L. auto.
Qed.

Lemma end_list_para_nesting st st' :
  well_formed st -> end_list_para st = Ok st' -> same_nesting st st'.
Proof.
  intros Hwf H. unfold end_list_para in H.
  set (st1 := if at_para_start st then set_rval st (rval st ++ [[]])
              else st) in H.
  assert (H1 : well_formed st1 /\ same_nesting st st1).
  { destruct Hwf as (Ha & Hs & Hr). unfold well_formed, same_nesting, st1.
    destruct (at_para_start st); simpl; repeat split;
      auto using app_unit_not_nil. }
  destruct H1 as (Hwf1 & Hn1).
  apply same_nesting_trans with st1; [exact Hn1|].
  destruct (list_stack st1) eqn:Hls.
  - destruct (end_para_extends Hwf1) as (s & He & _ & Hsame & Hl & _).
    rewrite He in H. injection H as <-.
    apply same_stacks_nesting; assumption.
  - assert (Hne : p :: l <> []) by discriminate.
    destruct (last_item_ok Hne) as (ls' & [tag counter] & Hlseq & Hlast).
    rewrite Hlast in H. cbn [bind] in H.
    destruct (last_item_ok (proj1 Hwf1)) as (acs' & u & Hacs & Hu).
    destruct (String.eqb tag "ul").
    + destruct (nth_error ul_tags _) as [glyph|]; [|discriminate].
      cbn [bind] in H. unfold cur_url in H. rewrite Hu in H.
      cbn [bind] in H.
      destruct (@add_chunk_extends st1
                  (Chunk (Literal (glyph ++ "  ")%string) u) Hwf1 eq_refl)
        as (s & Hadd & _ & Hsame & Hl & _).
      rewrite Hadd in H. injection H as <-.
      apply same_stacks_nesting; assumption.
    + set (st2 := set_list_stack st1
                    (removelast (p :: l) ++ [(tag, counter + 1)])) in H.
      assert (H2 : well_formed st2 /\ same_nesting st1 st2).
      { destruct Hwf1 as (Ha & Hs & Hr).
        unfold well_formed, same_nesting, st2.
        cbn [anchor_stack style_stack list_stack rval at_para_start
             set_list_stack].
        repeat split; auto.
        rewrite Hls, Hlseq, removelast_last, !map_app. reflexivity. }
      destruct H2 as (Hwf2 & Hn2).
      unfold cur_url in H.
      replace (anchor_stack st2) with (anchor_stack st1) in H
        by reflexivity.
      rewrite Hu in H. cbn [bind] in H.
      destruct (@add_chunk_extends st2
                  (Chunk (Literal (decimal2 counter ++ ".")%string) u) Hwf2
                  (decimal2_markup counter u))
        as (s & Hadd & _ & Hsame & Hl & _).
      rewrite Hadd in H. injection H as <-.
      apply same_nesting_trans with st2; [exact Hn2|].
      apply same_stacks_nesting; assumption.
Qed.

Lemma paired_false tag :
  paired tag = false ->
  String.eqb tag "a" = false /\ tag_in tag ["ul"; "ol"] = false
  /\ lookup tag tag_styles = None /\ isheadertag tag = false.
Proof.
  unfold paired. intros H. repeat (apply orb_false_iff in H; destruct H as [H ?]).
  repeat split; auto. destruct (lookup tag tag_styles); [discriminate|auto].
Qed.

Lemma starttag_neutral st tag attrs st' :
  sound st -> paired tag = false ->
  handle_starttag st tag attrs = Ok st' -> same_nesting st st'.
Proof.
  intros Hs Hp H. pose proof Hs as [Hwf _].
  destruct (paired_false _ Hp) as (E1 & E2 & E3 & E4).
  unfold handle_starttag in H. rewrite E1, E2, E3, E4 in H.
  destruct (tag_in tag ["p"; "br"]).
  { destruct (end_para_extends Hwf) as (s & He & _ & Hsame & Hl & _).
    rewrite He in H. injection H as <-.
    apply same_stacks_nesting; assumption. }
  destruct (String.eqb tag "img").
  { match type of H with
    | match ?x with Some _ => _ | None => _ end = _ => destruct x as [src|]
    end.
    - match type of H with
      | bind (handle_data ?s ?alt) _ = _ =>
          destruct (@handle_data_extends s alt)
            as (s2 & E & _ & Hsame & Hl & _);
            [split; [destruct Hwf as (? & ? & ?); unfold well_formed; simpl;
                     auto using app_unit_not_nil
                    | exact (proj2 Hs)]|]
      end.
      rewrite E in H. cbn [bind] in H. injection H as <-.
      destruct Hsame as (A & S & _). simpl in A, S, Hl.
      unfold same_nesting. simpl. rewrite A, removelast_last, S, Hl. auto.
    - match type of H with
      | handle_data st ?alt = _ =>
          destruct (@handle_data_extends st alt Hs)
            as (s2 & E & _ & Hsame & Hl & _)
      end.
      rewrite E in H. injection H as <-.
      apply same_stacks_nesting; assumption. }
  destruct (String.eqb tag "li").
  { apply end_list_para_nesting; assumption. }
  destruct (tag_in tag ["style"; "script"]); injection H as <-;
    unfold same_nesting; simpl; auto.
Qed.

Lemma neutral_stacks st ev st' :
  sound st -> neutral ev = true -> handle st ev = Ok st' ->
  same_nesting st st'.
Proof.
  intros Hs Hn H.
  assert (Hd : forall text, handle_data st text = Ok st' ->
                            same_nesting st st').
  { intros text Ht.
    destruct (@handle_data_extends st text Hs)
      as (s & E & _ & Hsame & Hl & _).
    rewrite E in Ht. injection Ht as <-.
    apply same_stacks_nesting; assumption. }
  destruct ev as [tag attrs|tag attrs|tag|data|name|name|e]; simpl in H, Hn;
    [| | | | | |discriminate].
  - apply negb_true_iff in Hn.
    apply (@starttag_neutral st tag attrs st' Hs Hn H).
  - unfold handle_startendtag in H.
    destruct (tag_in tag ["p"; "br"; "li"; "img"]) eqn:Et;
      [|injection H as <-; apply same_nesting_refl].
    apply (@starttag_neutral st tag attrs st' Hs); [|exact H].
    unfold tag_in in Et. simpl in Et.
    repeat match type of Et with
           | (String.eqb tag ?t || _)%bool = true =>
               destruct (String.eqb_spec tag t) as [->|_];
                 [reflexivity | cbn [orb] in Et]
           end.
    discriminate.
  - apply negb_true_iff in Hn.
    destruct (paired_false _ Hn) as (E1 & E2 & E3 & E4).
    unfold handle_endtag in H. rewrite E1, E3, E2, E4 in H.
    destruct (tag_in tag ["style"; "script"]); injection H as <-;
      unfold same_nesting; simpl; auto.
  - eauto.
  - apply handle_charref_text in H. destruct H as (text & H). eauto.
  - unfold handle_entityref in H. destruct (lookup name entities); eauto.
Qed.

Lemma neutral_ok ev : neutral ev = true -> ok_event ev = true.
Proof. destruct ev; simpl; auto. Qed.

Lemma map_fst_removelast (X Y : Type) (l : list (X * Y)) :
  map fst (removelast l) = removelast (map fst l).
Proof.
  induction l as [|x l IH] using rev_ind; [reflexivity|].
  rewrite map_app. simpl. rewrite !removelast_last. reflexivity.
Qed.

(** A pair of tags around events that keep the nesting. *)
Lemma pair_nesting st tag attrs body :
  sound st -> paired tag = true ->
  (forall s, sound s ->
     exists s', feed s body = Ok s' /\ sound s' /\ same_nesting s s') ->
  exists st',
    feed st (StartTag tag attrs :: body ++ [EndTag tag]) = Ok st'
    /\ sound st' /\ same_nesting st st'.
Proof.
  intros Hs Hp Hbody.
  destruct (@handle_starttag_sound st tag attrs Hs) as (s1 & E1 & Hs1 & _).
  destruct (Hbody s1 Hs1) as (s2 & E2 & Hs2 & Hn2).
  destruct (@handle_endtag_sound s2 tag Hs2) as (s3 & E3 & Hs3 & _).
  exists s3. split; [|split; [exact Hs3|]].
  { cbn [feed handle]. rewrite E1. cbn [bind].
    rewrite feed_app, E2. cbn [bind feed handle]. rewrite E3. reflexivity. }
  destruct Hn2 as (A2 & S2 & L2). pose proof Hs as [(Ha & Hst & _) _].
  unfold handle_starttag in E1. unfold handle_endtag in E3.
  unfold paired in Hp.
  destruct (String.eqb tag "a").
  { injection E1 as <-. simpl in A2, S2, L2.
    rewrite A2, one_lt_unit in E3 by assumption. injection E3 as <-.
    unfold same_nesting. simpl. rewrite removelast_last. auto. }
  destruct (tag_in tag ["ul"; "ol"]) eqn:Eul.
  { assert (Hl : lookup tag tag_styles = None).
    { unfold tag_in in Eul. simpl in Eul.
      destruct (String.eqb_spec tag "ul") as [->|_]; [reflexivity|].
      destruct (String.eqb_spec tag "ol") as [->|_]; [reflexivity|].
      discriminate. }
    rewrite Hl in E3.
    match type of E1 with
    | end_para ?s = _ =>
        destruct (@end_para_extends s)
          as (x & Ex & _ & Hsame1 & Hl1 & _);
          [unfold well_formed; simpl; destruct Hs as [(? & ? & ?) _]; auto|]
    end.
    rewrite Ex in E1. injection E1 as ->.
    destruct Hsame1 as (A1 & S1 & _). simpl in A1, S1, Hl1.
    assert (Hlen : (0 <? List.length (list_stack s2)) = true).
    { apply Nat.ltb_lt. rewrite <- (length_map fst), L2, Hl1, length_map.
      rewrite length_app. simpl. lia. }
    rewrite Hlen in E3.
    match type of E3 with
    | end_para ?s = _ =>
        destruct (@end_para_extends s)
          as (y & Ey & _ & Hsame3 & Hl3 & _);
          [unfold well_formed; simpl; destruct Hs2 as [(? & ? & ?) _]; auto|]
    end.
    rewrite Ey in E3. injection E3 as ->.
    destruct Hsame3 as (A3 & S3 & _). simpl in A3, S3, Hl3.
    unfold same_nesting. rewrite A3, S3, Hl3, A2, S2, A1, S1.
    split; [reflexivity|]. split; [reflexivity|].
    rewrite map_fst_removelast, L2, Hl1, map_app. simpl.
    apply removelast_last. }
  destruct (lookup tag tag_styles) as [style|].
  { destruct (last_item (style_stack st)) as [top|]; [|discriminate].
    cbn [bind] in E1. injection E1 as <-. simpl in A2, S2, L2.
    rewrite S2, one_lt_unit in E3 by assumption. injection E3 as <-.
    unfold same_nesting. simpl. rewrite removelast_last. auto. }
  simpl in Hp. rewrite Hp in E1, E3.
  destruct (last_item (style_stack st)) as [top|]; [|discriminate].
  cbn [bind] in E1. injection E1 as <-. simpl in A2, S2, L2.
  rewrite S2, one_lt_unit in E3 by assumption.
  match type of E3 with
  | end_para ?s = _ =>
      destruct (@end_para_extends s)
        as (y & Ey & _ & Hsame3 & Hl3 & _);
        [unfold well_formed; simpl; rewrite removelast_last;
         destruct Hs2 as [(? & ? & ?) _]; auto|]
  end.
  rewrite Ey in E3. injection E3 as ->.
  destruct Hsame3 as (A3 & S3 & _). simpl in A3, S3, Hl3.
  unfold same_nesting. rewrite A3, S3, Hl3, removelast_last. auto.
Qed.

Lemma balanced_nesting evs :
  balanced evs ->
  forall st, sound st ->
    exists st', feed st evs = Ok st' /\ sound st' /\ same_nesting st st'.
Proof.
  induction 1 as [|ev evs Hn Hb IH|tag attrs body evs Hp Hb1 IH1 Hb2 IH2];
    intros st Hs.
  - exists st. split; [reflexivity|]. split; [assumption|].
    apply same_nesting_refl.
  - destruct (@handle_total st ev Hs (neutral_ok _ Hn)) as (s1 & E1).
    destruct (@handle_sound st ev s1 Hs E1) as [Hs1 _].
    destruct (IH s1 Hs1) as (st' & E & Hs' & Hn').
    exists st'. cbn [feed]. rewrite E1. cbn [bind].
    split; [exact E|]. split; [exact Hs'|].
    apply same_nesting_trans with s1; [|exact Hn'].
    apply (@neutral_stacks st ev s1 Hs Hn E1).
  - destruct (@pair_nesting st tag attrs body Hs Hp IH1)
      as (s1 & E1 & Hs1 & Hn1).
    destruct (IH2 s1 Hs1) as (st' & E & Hs' & Hn').
    exists st'.
    change (StartTag tag attrs :: body ++ EndTag tag :: evs)
      with ((StartTag tag attrs :: body) ++ [EndTag tag] ++ evs).
    rewrite app_assoc.
    change ((StartTag tag attrs :: body) ++ [EndTag tag])
      with (StartTag tag attrs :: body ++ [EndTag tag]).
    rewrite feed_app, E1. cbn [bind].
    split; [exact E|]. split; [exact Hs'|].
    apply same_nesting_trans with s1; assumption.
Qed.

End NestingFacts.

(** X26.  Links and styles do not leak out of well-nested markup.  In any
    state that a parse has reached, handler calls in which the tags [a],
    [b], [i], [ul], [ol] and the header tags come in nested pairs (any
    other tags, text, entity references and [handle_charref] with
    well-formed names between them) are handled without an exception,
    and leave the open anchors, the open styles and the open lists as
    they were: only the counters of the open lists may have moved. *)
Theorem balanced_events_keep_nesting (evs0 evs : list HTML.event)
    (st : HTML.HTMLChunker) :
  HTML.feed HTML.init evs0 = Ok st -> HTML.balanced evs ->
  exists st',
    HTML.feed st evs = Ok st'
    /\ HTML.anchor_stack st' = HTML.anchor_stack st
    /\ HTML.style_stack st' = HTML.style_stack st
    /\ map fst (HTML.list_stack st') = map fst (HTML.list_stack st).
Proof.
  intros Hrun Hb.
  destruct (feed_sound _ init_sound Hrun) as [Hs _].
  destruct (balanced_nesting Hb Hs) as (st' & E & _ & Hn).
  exists st'. split; [exact E | exact Hn].
Qed.

Lemma balanced_events_keep_nesting_witness :
  exists st',
    HTML.feed
      (HTML.Build [[]; [Chunk (Literal "   ") None]] false false [[]]
         [None] [("ol", 1)] false)
      [HTML.StartTag "li" [];
       HTML.StartTag "a" [("href", Some "http://x.org")];
       HTML.StartTag "b" []; HTML.Data "x"; HTML.EndTag "b";
       HTML.EndTag "a"]
    = Ok st'
    /\ HTML.anchor_stack st'
       = HTML.anchor_stack
           (HTML.Build [[]; [Chunk (Literal "   ") None]] false false [[]]
              [None] [("ol", 1)] false)
    /\ HTML.style_stack st'
       = HTML.style_stack
           (HTML.Build [[]; [Chunk (Literal "   ") None]] false false [[]]
              [None] [("ol", 1)] false)
    /\ map fst (HTML.list_stack st')
       = map fst
           (HTML.list_stack
              (HTML.Build [[]; [Chunk (Literal "   ") None]] false false
                 [[]] [None] [("ol", 1)] false)).
Proof.
  apply (@balanced_events_keep_nesting [HTML.StartTag "ol" []]).
  - vm_compute. reflexivity.
  - apply HTML.balanced_neutral; [reflexivity|].
    apply (@HTML.balanced_pair "a" _
             [HTML.StartTag "b" []; HTML.Data "x"; HTML.EndTag "b"] []);
      [reflexivity | | apply HTML.balanced_nil].
    apply (@HTML.balanced_pair "b" _ [HTML.Data "x"] []);
      [reflexivity | | apply HTML.balanced_nil].
    apply HTML.balanced_neutral; [reflexivity | apply HTML.balanced_nil].
Defined.

(** X27.  The bullet of an item of an unordered list goes by the number
    of [ul] lists that are open, the innermost included: with [d] of them
    it is entry [d mod 3] of [ul_tags] followed by two blanks, so the
    items of an outermost list start with the second entry, a plus sign;
    the lookup never leaves the table, and the list stack stays as it
    is. *)
Theorem unordered_list_bullet (st : HTML.HTMLChunker)
    (attrs : HTML.attrs_t) (ls : list (string * nat)) (n : nat) :
  HTML.well_formed st -> HTML.list_stack st = ls ++ [("ul", n)] ->
  exists st' u,
    HTML.handle_starttag st "li" attrs = Ok st'
    /\ HTML.cur_url st = Ok u
    /\ HTML.last_chunk st'
       = Some (Chunk
                 (Literal
                    (nth
                       (S (List.length
                             (filter (fun t => String.eqb (fst t) "ul") ls))
                        mod 3)
                       HTML.ul_tags EmptyString ++ "  ")%string)
                 u)
    /\ HTML.list_stack st' = HTML.list_stack st.
Proof.
  intros Hwf Hls.
  change (HTML.handle_starttag st "li" attrs) with (HTML.end_list_para st).
  unfold HTML.end_list_para.
  set (st1 := if HTML.at_para_start st
              then HTML.set_rval st (HTML.rval st ++ [[]])
              else st).
  assert (H1 : HTML.well_formed st1 /\ HTML.same_stacks st st1
               /\ HTML.list_stack st1 = HTML.list_stack st).
  { destruct Hwf as (Ha & Hs & Hr).
    unfold HTML.well_formed, HTML.same_stacks, st1.
    destruct (HTML.at_para_start st) eqn:E; simpl; rewrite ?E;
      repeat split; auto using app_unit_not_nil. }
  destruct H1 as (Hwf1 & Hsame1 & Hl1).
  rewrite Hl1, Hls, match_unit, last_item_unit. cbn [bind].
  change (String.eqb "ul" "ul") with true. cbv iota.
  rewrite filter_app, length_app. cbn [filter fst String.eqb Ascii.eqb].
  change (String.eqb "ul" "ul") with true. cbv iota. cbn [List.length].
  rewrite Nat.add_1_r.
  change (List.length HTML.ul_tags) with 3.
  set (d := S (List.length (filter (fun t => String.eqb (fst t) "ul") ls))).
  assert (Hd : d mod 3 < List.length HTML.ul_tags)
    by (apply Nat.mod_upper_bound; discriminate).
  rewrite (@nth_error_nth' _ HTML.ul_tags (d mod 3) EmptyString Hd).
  cbn [bind].
  destruct (last_item_ok (proj1 Hwf1)) as (acs & u & Hacs & Hu).
  unfold HTML.cur_url at 1. rewrite Hu. cbn [bind].
  match goal with
  | |- context [HTML.add_chunk st1 ?c] =>
      destruct (@add_chunk_extends st1 c Hwf1 eq_refl)
        as (st' & -> & _ & _ & Hl' & _ & Hlast)
  end.
  exists st', u. split; [reflexivity|]. split.
  - unfold HTML.cur_url. destruct Hsame1 as (<- & _). exact Hu.
  - split; [exact Hlast | congruence].
Qed.

Lemma unordered_list_bullet_witness :
  exists st' u,
    HTML.handle_starttag
      (HTML.Build [[]; [Chunk (Literal "   ") None]] false false [[]]
         [None] ([] ++ [("ul", 1)]) false) "li" []
    = Ok st'
    /\ HTML.cur_url
         (HTML.Build [[]; [Chunk (Literal "   ") None]] false false [[]]
            [None] ([] ++ [("ul", 1)]) false)
       = Ok u
    /\ HTML.last_chunk st'
       = Some (Chunk
                 (Literal
                    (nth
                       (S (List.length
                             (filter (fun t => String.eqb (fst t) "ul")
                                (@nil (string * nat))))
                        mod 3)
                       HTML.ul_tags EmptyString ++ "  ")%string)
                 u)
    /\ HTML.list_stack st'
       = HTML.list_stack
           (HTML.Build [[]; [Chunk (Literal "   ") None]] false false [[]]
              [None] ([] ++ [("ul", 1)]) false).
Proof.
  apply (@unordered_list_bullet _ [] [] 1).
  - unfold HTML.well_formed. simpl. repeat split; discriminate.
  - reflexivity.
Defined.

Section BlankFacts.

Import HTML.

Lemma add_chunk_flags st c st' :
  add_chunk st c = Ok st' ->
  at_para_start st' = false /\ trailing_space st' = false.
Proof.
  unfold add_chunk. intros H.
  match type of H with
  | bind ?m _ = _ => destruct m as [s|]; [|discriminate]
  end.
  cbn [bind] in H.
  destruct (append_to_last s c) as [s2|]; [|discriminate].
  cbn [bind] in H. injection H as <-. auto.
Qed.

(** In a paragraph that has begun, [add_chunk] puts the chunk after the
    chunks so far, and a blank before it when the trailing space is
    set. *)
Lemma add_chunk_in_paragraph st c :
  well_formed st -> at_para_start st = false ->
  exists st' u,
    add_chunk st c = Ok st' /\ cur_url st = Ok u
    /\ all_chunks st'
       = all_chunks st
         ++ (if trailing_space st then [Chunk (Literal " ") u] else [])
         ++ [c].
Proof.
  destruct st as [rv aps ts ss acs ls iss].
  unfold well_formed, add_chunk, append_to_last, cur_url, all_chunks. cbn.
  intros (Ha & Hs & Hr) ->. cbn.
  destruct (last_item_ok (Hr eq_refl)) as (rv' & para & -> & Hl).
  destruct (last_item_ok Ha) as (acs' & u & -> & Hu).
  rewrite Hu. destruct ts; cbn.
  - rewrite Hl. cbn. rewrite removelast_last.
    rewrite last_item_app. cbn. rewrite removelast_last.
    eexists. exists u. split; [reflexivity|]. split; [reflexivity|].
    cbn. rewrite !concat_unit, <- !app_assoc. reflexivity.
  - rewrite Hl. cbn. rewrite removelast_last.
    eexists. exists u. split; [reflexivity|]. split; [reflexivity|].
    cbn. rewrite !concat_unit, <- !app_assoc. reflexivity.
Qed.

Lemma handle_data_flags st data st' :
  in_style_or_script st = false -> handle_data st data = Ok st' ->
  at_para_start st' = false
  /\ trailing_space st'
     = match last_char data with
       | Some c => isspace c
       | None => false
       end.
Proof.
  intros Hin H. unfold handle_data in H. rewrite Hin in H.
  match type of H with
  | bind ?m _ = _ => destruct m as [top|]; [|discriminate]
  end.
  cbn [bind] in H.
  match type of H with
  | bind ?m _ = _ => destruct m as [styles|]; [|discriminate]
  end.
  cbn [bind] in H.
  match type of H with
  | bind ?m _ = _ => destruct m as [u|]; [|discriminate]
  end.
  cbn [bind] in H.
  match type of H with
  | bind ?m _ = _ => destruct m as [s|] eqn:E; [|discriminate]
  end.
  cbn [bind] in H. injection H as <-.
  apply add_chunk_flags in E. simpl. tauto.
Qed.

End BlankFacts.

(** X28.  One blank between two texts.  When the chunker has handled the
    text [d1] outside [style] and [script], a following text [d2] adds its
    chunk right after the chunks so far, with exactly one blank chunk in
    between when [d1] ends or [d2] starts with whitespace and nothing in
    between otherwise; the blank carries the current link. *)
Theorem blank_between_texts (st st1 : HTML.HTMLChunker) (d1 d2 : string) :
  HTML.well_formed st -> HTML.in_style_or_script st = false ->
  HTML.handle_data st d1 = Ok st1 ->
  exists st2 style u,
    HTML.handle_data st1 d2 = Ok st2
    /\ HTML.cur_url st = Ok u
    /\ HTML.all_chunks st2
       = HTML.all_chunks st1
         ++ (if match last_char d1 with
                | Some c => isspace c
                | None => false
                end
                || match d2 with
                   | String c _ => isspace c
                   | EmptyString => false
                   end
             then [Chunk (Literal " ") u]
             else [])
         ++ [Chunk (Styled style (join " " (split d2))) u].
Proof.
  intros Hwf Hin H1.
  destruct (@handle_data_flags st d1 st1 Hin H1) as [Hp1 Ht1].
  destruct (handle_data_wf d1 Hwf) as (s & E & Hwf1 & Hsame1).
  rewrite E in H1. injection H1 as ->.
  destruct Hsame1 as (A1 & S1 & I1).
  unfold HTML.handle_data. rewrite I1, Hin.
  set (st1' := match d2 with
               | String c _ =>
                   if isspace c then HTML.set_trailing_space st1 true
                   else st1
               | EmptyString => st1
               end).
  assert (H2 : HTML.well_formed st1' /\ HTML.at_para_start st1' = false
               /\ HTML.anchor_stack st1' = HTML.anchor_stack st1
               /\ HTML.style_stack st1' = HTML.style_stack st1
               /\ HTML.all_chunks st1' = HTML.all_chunks st1
               /\ HTML.trailing_space st1'
                  = match last_char d1 with
                    | Some c => isspace c
                    | None => false
                    end
                    || match d2 with
                       | String c _ => isspace c
                       | EmptyString => false
                       end).
  { unfold st1'. destruct d2 as [|c d2].
    - rewrite orb_false_r. auto 10.
    - destruct (isspace c).
      + rewrite orb_true_r. unfold HTML.well_formed in *. simpl. auto 10.
      + rewrite orb_false_r. auto 10. }
  destruct H2 as (Hwf2 & Hp2 & A2 & S2 & C2 & T2).
  destruct (last_item_ok (proj1 Hwf2)) as (acs & u & Hacs & Hu).
  destruct (last_item_ok (proj1 (proj2 Hwf2))) as (ss & styles & Hss & Hst).
  rewrite Hu, Hst. cbn [bind]. unfold HTML.cur_url at 1. rewrite Hu.
  cbn [bind].
  match goal with
  | |- context [HTML.add_chunk st1' ?c] =>
      destruct (@add_chunk_in_paragraph st1' c Hwf2 Hp2)
        as (st2 & u' & -> & Hu' & Hall)
  end.
  unfold HTML.cur_url in Hu'. rewrite Hu in Hu'. injection Hu' as <-.
  cbn [bind]. eexists. eexists. exists u. split; [reflexivity|]. split.
  - unfold HTML.cur_url. rewrite <- A1, <- A2. exact Hu.
  - unfold HTML.all_chunks in *. simpl. rewrite Hall, C2, T2. reflexivity.
Qed.

Lemma blank_between_texts_witness :
  exists st2 style u,
    HTML.handle_data
      (HTML.Build [[Chunk (Styled "msgtext" "one") None]] false true [[]]
         [None] [] false) "two"
    = Ok st2
    /\ HTML.cur_url HTML.init = Ok u
    /\ HTML.all_chunks st2
       = HTML.all_chunks
           (HTML.Build [[Chunk (Styled "msgtext" "one") None]] false true
              [[]] [None] [] false)
         ++ (if match last_char "one " with
                | Some c => isspace c
                | None => false
                end
                || match "two" with
                   | String c _ => isspace c
                   | EmptyString => false
                   end
             then [Chunk (Literal " ") u]
             else [])
         ++ [Chunk (Styled style (join " " (split "two"))) u].
Proof.
  apply (@blank_between_texts HTML.init).
  - unfold HTML.well_formed. simpl. repeat split; discriminate.
  - reflexivity.
  - vm_compute. reflexivity.
Defined.

Section ReferenceFacts.

Import HTML.




End ReferenceFacts.


